(** * PromptOps: process runner, OAuth refresh and artifact encryption

    A shallow embedding of the TypeScript sources of the PromptOps GitHub
    action ([index.ts], [encrypt.ts], [oauth.ts]) and the properties of its
    specification.

    Conventions.
    - A JavaScript string is a [string]; each character stands for one UTF-16
      code unit below 256, so that the whitespace set of [trim], the classes
      of the regular expressions and the UTF-8 encoding performed by
      [encodeURIComponent] are the ECMAScript ones on that range.
    - Node's platform services (child processes, [crypto], [fetch], [fs],
      [JSON]) are not code of the repository.  What a child process emits is
      an event list; the other services are Section variables together with
      the part of their documented contract that a proof needs.
    - Side effects are recorded in traces, in program order. *)

From Stdlib Require Import String Ascii List ZArith Lia Bool.
From Stdlib Require Import Decimal DecimalString DecimalZ DecimalPos.
Import ListNotations.
Open Scope string_scope.

(** An [Error] object; only its message is observed. *)
Record JsError := mkError { message : string }.

(** ** Strings *)

Module Str.

Lemma append_nil_r (s : string) : s ++ "" = s.
Proof. induction s; simpl; congruence. Qed.

Lemma append_assoc (a b c : string) : (a ++ b) ++ c = a ++ (b ++ c).
Proof. induction a; simpl; congruence. Qed.

Lemma length_append (a b : string) :
  String.length (a ++ b) = String.length a + String.length b.
Proof. induction a; simpl; congruence. Qed.

(** [forallb] and [existsb] on the characters of a string. *)
Fixpoint all (p : ascii -> bool) (s : string) : bool :=
  match s with
  | EmptyString => true
  | String c s' => p c && all p s'
  end.

Fixpoint any (p : ascii -> bool) (s : string) : bool :=
  match s with
  | EmptyString => false
  | String c s' => p c || any p s'
  end.

Fixpoint map (f : ascii -> ascii) (s : string) : string :=
  match s with
  | EmptyString => EmptyString
  | String c s' => String (f c) (map f s')
  end.

(** [parts.join(sep)] *)
Fixpoint join (sep : string) (parts : list string) : string :=
  match parts with
  | [] => ""
  | [p] => p
  | p :: rest => p ++ sep ++ join sep rest
  end.

(** [s.split(sep)] for a one-character separator. *)
Fixpoint split (sep : ascii) (s : string) : list string :=
  match s with
  | EmptyString => [""]
  | String c s' =>
      if Ascii.eqb c sep then "" :: split sep s'
      else match split sep s' with
           | [] => [String c ""]
           | p :: ps => String c p :: ps
           end
  end.

Lemma all_append p a b : all p (a ++ b) = all p a && all p b.
Proof. induction a; simpl; [reflexivity|]. rewrite IHa, andb_assoc; reflexivity. Qed.

Lemma any_append p a b : any p (a ++ b) = any p a || any p b.
Proof. induction a; simpl; [reflexivity|]. rewrite IHa, orb_assoc; reflexivity. Qed.

Lemma map_append f a b : map f (a ++ b) = map f a ++ map f b.
Proof. induction a; simpl; congruence. Qed.

Lemma length_map f s : String.length (map f s) = String.length s.
Proof. induction s; simpl; congruence. Qed.

Lemma all_weaken (p q : ascii -> bool) s :
  (forall c, p c = true -> q c = true) -> all p s = true -> all q s = true.
Proof.
  intros Hpq. induction s as [|c s IH]; simpl; [reflexivity|].
  rewrite !andb_true_iff. intros [Hc Hs]. split; auto.
Qed.

Lemma split_nonempty sep s : split sep s <> [].
Proof.
  destruct s as [|c s]; simpl; [discriminate|].
  destruct (Ascii.eqb c sep); [discriminate|].
  destruct (split sep s); discriminate.
Qed.

(** A string without the separator is a single field. *)
Lemma split_none sep s :
  all (fun c => negb (Ascii.eqb c sep)) s = true -> split sep s = [s].
Proof.
  induction s as [|c s IH]; simpl; [reflexivity|].
  rewrite andb_true_iff. intros [Hc Hs].
  apply negb_true_iff in Hc. rewrite Hc, (IH Hs). reflexivity.
Qed.

(** The first separator ends the first field. *)
Lemma split_cons sep a b :
  all (fun c => negb (Ascii.eqb c sep)) a = true ->
  split sep (a ++ String sep b) = a :: split sep b.
Proof.
  induction a as [|c a IH]; simpl.
  - intros _. rewrite Ascii.eqb_refl. reflexivity.
  - rewrite andb_true_iff. intros [Hc Ha].
    apply negb_true_iff in Hc. rewrite Hc, (IH Ha). reflexivity.
Qed.

End Str.

(** ** ECMAScript string primitives used by the sources *)

Module JS.

Definition LF : ascii := ascii_of_nat 10.
Definition CR : ascii := ascii_of_nat 13.
Definition DQUOTE : ascii := ascii_of_nat 34.
Definition BACKSLASH : ascii := ascii_of_nat 92.

(** The code unit lies in a range of a character class. *)
Definition in_range (lo hi : nat) (c : ascii) : bool :=
  let n := nat_of_ascii c in ((lo <=? n) && (n <=? hi))%nat.

(** WhiteSpace and LineTerminator code units below 256: TAB, LF, VT, FF, CR,
    SP and NBSP. *)
Definition is_whitespace (c : ascii) : bool :=
  let n := nat_of_ascii c in
  ((n =? 9) || (n =? 10) || (n =? 11) || (n =? 12) || (n =? 13)
   || (n =? 32) || (n =? 160))%nat.

(** [String.prototype.trimStart] *)
Fixpoint trimStart (s : string) : string :=
  match s with
  | EmptyString => EmptyString
  | String c s' => if is_whitespace c then trimStart s' else s
  end.

(** [String.prototype.trimEnd] *)
Fixpoint trimEnd (s : string) : string :=
  match s with
  | EmptyString => EmptyString
  | String c s' =>
      match trimEnd s' with
      | EmptyString => if is_whitespace c then EmptyString else String c EmptyString
      | t => String c t
      end
  end.

(** [String.prototype.trim]: white space is removed from both ends. *)
Definition trim (s : string) : string := trimEnd (trimStart s).

(** [s.replace(/\r/g, '\n')] *)
Definition replace_cr (s : string) : string :=
  Str.map (fun c => if Ascii.eqb c CR then LF else c) s.


(** Truthiness of an optional string: [undefined] and [''] are falsy. *)
Definition truthy (o : option string) : bool :=
  match o with
  | Some (String _ _) => true
  | _ => false
  end.

(** [`${n}`] for an integral number. *)
Definition string_of_Z (z : Z) : string := NilZero.string_of_int (Z.to_int z).

(** The decimal text of a number identifies it. *)
Lemma to_int_not_nil z : Z.to_int z <> Pos Nil /\ Z.to_int z <> Neg Nil.
Proof.
  destruct z as [|p|p]; simpl; split; try discriminate;
    intros [= E]; apply (DecimalPos.Unsigned.to_uint_nonnil p); exact E.
Qed.

Lemma int_of_string_of_Z z :
  NilZero.int_of_string (string_of_Z z) = Some (Z.to_int z).
Proof. unfold string_of_Z. apply NilZero.isi; apply to_int_not_nil. Qed.

Lemma string_of_Z_inj a b : string_of_Z a = string_of_Z b -> a = b.
Proof.
  intros H. apply (f_equal NilZero.int_of_string) in H.
  rewrite !int_of_string_of_Z in H. injection H as H.
  apply (f_equal Z.of_int) in H. rewrite !DecimalZ.of_to in H. exact H.
Qed.

(** *** Facts about [trim] and [replace] *)








Lemma replace_cr_append a b : replace_cr (a ++ b) = replace_cr a ++ replace_cr b.
Proof. apply Str.map_append. Qed.



(** *** [trim] is idempotent *)

Definition starts_clean (s : string) : Prop :=
  match s with
  | EmptyString => True
  | String c _ => is_whitespace c = false
  end.

Lemma trimStart_clean s : starts_clean (trimStart s).
Proof.
  induction s as [|c s IH]; simpl; [exact I|].
  destruct (is_whitespace c) eqn:E; [exact IH | exact E].
Qed.

Lemma trimStart_of_clean s : starts_clean s -> trimStart s = s.
Proof. destruct s as [|c s]; simpl; [reflexivity|]. intros ->. reflexivity. Qed.

Lemma trimEnd_clean s : starts_clean s -> starts_clean (trimEnd s).
Proof.
  destruct s as [|c s]; simpl; [auto|]. intros Hc.
  destruct (trimEnd s); [rewrite Hc|]; exact Hc.
Qed.

Lemma trimEnd_idempotent s : trimEnd (trimEnd s) = trimEnd s.
Proof.
  induction s as [|c s IH]; simpl; [reflexivity|].
  destruct (trimEnd s) as [|d t] eqn:E.
  - destruct (is_whitespace c) eqn:Hc; simpl; [reflexivity|]. rewrite Hc. reflexivity.
  - change (trimEnd (String c (String d t)))
      with (match trimEnd (String d t) with
            | EmptyString => if is_whitespace c then EmptyString else String c EmptyString
            | String x y => String c (String x y)
            end).
    rewrite IH. reflexivity.
Qed.

Lemma trim_idempotent s : trim (trim s) = trim s.
Proof.
  unfold trim.
  rewrite (trimStart_of_clean (trimEnd (trimStart s)))
    by apply trimEnd_clean, trimStart_clean.
  apply trimEnd_idempotent.
Qed.

(** *** What [trim] removes

    Only white space goes, and only from the two ends: the text is the
    trimmed text between two runs of white space. *)




End JS.

(** ** ProcessRunner: [runCommand] of [index.ts] *)

Module Runner.

(** What the promise returned by [runCommand] settles to. *)
Inductive Settlement :=
| Resolved (result : string)
| Rejected (err : JsError).

(** The two piped output streams of the child. *)
Inductive Stream := Out | Err.

(** Effects of one [runCommand] call, in program order.  A
    [process.stdout.write] is tagged with the stream whose handler
    performed it. *)
Inductive Effect :=
| ConsoleLog (line : string)
| Spawn (command : string) (args : list string)
| StdinWrite (data : string)
| StdinEnd
| StdoutWrite (site : Stream) (text : string)
| Resolve (result : string)
| Reject (err : JsError).

(** Events that the child process delivers to the registered handlers. *)
Inductive ChildEvent :=
| StdoutData (data : string)        (* child.stdout 'data', after data.toString() *)
| StderrData (data : string)        (* child.stderr 'data', after data.toString() *)
| SpawnError (err : JsError)        (* child 'error' *)
| Close (code : option Z).          (* child 'close'; the code is null after a signal *)

(** The third parameter of [runCommand]. *)
Record Options := { stdin : option string; hideError : option bool }.

(** The variables captured by the handlers, the state of the returned
    promise, and the effects so far. *)
Record Closure := {
  output : string;
  error : string;
  settled : bool;
  promise : option Settlement;
  effects : list Effect
}.

(** *** logCommand *)

(** [\w] *)
Definition is_word (c : ascii) : bool :=
  JS.in_range 48 57 c || JS.in_range 65 90 c || JS.in_range 97 122 c || Ascii.eqb c "_".

(** [[\w@%+=:,./-]] *)
Definition is_plain (c : ascii) : bool :=
  is_word c || Str.any (Ascii.eqb c) "@%+=:,./-".

(** The [replace] of [quoteArg]: every double quote and every backslash
    gets a backslash in front of it. *)
Fixpoint escape (arg : string) : string :=
  match arg with
  | EmptyString => EmptyString
  | String c rest =>
      if Ascii.eqb c JS.DQUOTE || Ascii.eqb c JS.BACKSLASH
      then String JS.BACKSLASH (String c (escape rest))
      else String c (escape rest)
  end.

Definition quoteArg (arg : string) : string :=
  match arg with
  | String _ _ =>
      if Str.all is_plain arg then arg
      else String JS.DQUOTE (escape arg ++ String JS.DQUOTE EmptyString)
  | EmptyString => String JS.DQUOTE (String JS.DQUOTE EmptyString)
  end.

Definition logCommand (command : string) (args : list string) : Effect :=
  ConsoleLog ("> " ++ Str.join " " (command :: List.map quoteArg args)).

(** *** The promise and its guard *)

(** A settled promise ignores every later [resolve] and [reject]. *)
Definition settle (p : option Settlement) (v : Settlement) : option Settlement :=
  match p with
  | None => Some v
  | Some _ => p
  end.

Definition fail (err : JsError) (st : Closure) : Closure :=
  if settled st then st
  else {| output := output st; error := error st; settled := true;
          promise := settle (promise st) (Rejected err);
          effects := effects st ++ [Reject err] |}.

Definition succeed (result : string) (st : Closure) : Closure :=
  if settled st then st
  else {| output := output st; error := error st; settled := true;
          promise := settle (promise st) (Resolved result);
          effects := effects st ++ [Resolve result] |}.

(** [`${code}`] for the exit code of the 'close' event. *)
Definition show_code (code : option Z) : string :=
  match code with
  | Some z => JS.string_of_Z z
  | None => "null"
  end.

(** [code !== 0] *)
Definition code_is_zero (code : option Z) : bool :=
  match code with
  | Some z => Z.eqb z 0
  | None => false
  end.

Definition exit_message (command : string) (code : option Z) (error : string) : string :=
  command ++ " exited with code " ++ show_code code ++ String JS.LF error.

(** *** The handlers *)

Definition isTrue (b : option bool) : bool :=
  match b with Some true => true | _ => false end.

Definition on_stdout (data : string) (st : Closure) : Closure :=
  {| output := output st ++ data; error := error st; settled := settled st;
     promise := promise st;
     effects := effects st ++ [StdoutWrite Out (JS.replace_cr data)] |}.

Definition on_stderr (opts : Options) (data : string) (st : Closure) : Closure :=
  {| output := output st; error := error st ++ data; settled := settled st;
     promise := promise st;
     effects := if isTrue (hideError opts) then effects st
                else effects st ++ [StdoutWrite Err (JS.replace_cr data)] |}.

Definition on_close (command : string) (code : option Z) (st : Closure) : Closure :=
  if code_is_zero code then succeed (JS.trim (output st)) st
  else fail (mkError (exit_message command code (error st))) st.

Definition handle (command : string) (opts : Options)
    (st : Closure) (ev : ChildEvent) : Closure :=
  match ev with
  | StdoutData data => on_stdout data st
  | StderrData data => on_stderr opts data st
  | SpawnError err => fail err st
  | Close code => on_close command code st
  end.

(** The synchronous part of the executor: the command line is logged, the
    child is spawned, and a truthy [stdin] is written and ended. *)
Definition start (command : string) (args : list string) (opts : Options) : Closure :=
  {| output := ""; error := ""; settled := false; promise := None;
     effects := [logCommand command args; Spawn command args]
                ++ match stdin opts with
                   | Some (String c s) => [StdinWrite (String c s); StdinEnd]
                   | _ => []
                   end |}.

(** [runCommand], on the events that the child goes on to deliver. *)
Definition runCommand (command : string) (args : list string) (opts : Options)
    (events : list ChildEvent) : Closure :=
  fold_left (handle command opts) events (start command args opts).

(** *** Observations *)

Fixpoint stdout_text (events : list ChildEvent) : string :=
  match events with
  | [] => ""
  | StdoutData d :: rest => d ++ stdout_text rest
  | _ :: rest => stdout_text rest
  end.

Fixpoint stderr_text (events : list ChildEvent) : string :=
  match events with
  | [] => ""
  | StderrData d :: rest => d ++ stderr_text rest
  | _ :: rest => stderr_text rest
  end.

Definition is_data (ev : ChildEvent) : bool :=
  match ev with
  | StdoutData _ | StderrData _ => true
  | _ => false
  end.

(** Text that the handler of [child.stdout] has echoed. *)
Fixpoint echoed_stdout (effs : list Effect) : string :=
  match effs with
  | [] => ""
  | StdoutWrite Out text :: rest => text ++ echoed_stdout rest
  | _ :: rest => echoed_stdout rest
  end.

Definition is_settle_call (e : Effect) : bool :=
  match e with
  | Resolve _ | Reject _ => true
  | _ => false
  end.

Definition is_stdin_op (e : Effect) : bool :=
  match e with
  | StdinWrite _ | StdinEnd => true
  | _ => false
  end.

Definition settle_calls (st : Closure) : nat :=
  List.length (filter is_settle_call (effects st)).

(** *** Evaluation on small runs *)

Example quoteArg_plain : quoteArg "--version" = "--version".
Proof. reflexivity. Qed.

Example quoteArg_space :
  quoteArg "Add agent output"
  = String JS.DQUOTE ("Add agent output" ++ String JS.DQUOTE EmptyString).
Proof. reflexivity. Qed.

Example run_exit_zero :
  promise (runCommand "npm" ["view"] {| stdin := None; hideError := None |}
             [StdoutData "1.2"; StdoutData (String "." (String "3" (String JS.LF "")));
              Close (Some 0%Z)])
  = Some (Resolved "1.2.3").
Proof. reflexivity. Qed.

Example run_exit_nonzero :
  promise (runCommand "git" ["push"] {| stdin := None; hideError := None |}
             [StderrData "denied"; Close (Some 128%Z)])
  = Some (Rejected (mkError ("git exited with code 128" ++ String JS.LF "denied"))).
Proof. reflexivity. Qed.

(** *** Structure of a run *)

(** The text of an exit code identifies the code. *)
Lemma show_code_inj a b : show_code a = show_code b -> a = b.
Proof.
  destruct a as [x|], b as [y|]; simpl; intros H.
  - f_equal. apply JS.string_of_Z_inj, H.
  - apply (f_equal NilZero.int_of_string) in H.
    rewrite JS.int_of_string_of_Z in H. discriminate H.
  - apply (f_equal NilZero.int_of_string) in H.
    rewrite JS.int_of_string_of_Z in H. discriminate H.
  - reflexivity.
Qed.

Lemma runCommand_app command args opts events later :
  runCommand command args opts (events ++ later)
  = fold_left (handle command opts) later (runCommand command args opts events).
Proof. unfold runCommand. apply fold_left_app. Qed.

(** The guard and the promise agree, and [resolve] and [reject] have been
    called once exactly when the guard is set. *)
Definition guarded (st : Closure) : Prop :=
  (settled st = false /\ promise st = None /\ settle_calls st = 0)
  \/ (settled st = true /\ promise st <> None /\ settle_calls st = 1).

Lemma settle_calls_snoc st e :
  List.length (filter is_settle_call (effects st ++ [e]))
  = settle_calls st + (if is_settle_call e then 1 else 0).
Proof.
  unfold settle_calls. rewrite filter_app, length_app. simpl.
  destruct (is_settle_call e); reflexivity.
Qed.

Lemma start_guarded command args opts : guarded (start command args opts).
Proof.
  left. unfold settle_calls. simpl.
  destruct (stdin opts) as [[|c s]|]; repeat split; reflexivity.
Qed.

Lemma fail_guarded err st : guarded st -> guarded (fail err st).
Proof.
  unfold fail. intros [(Hs & Hp & Hc) | (Hs & Hp & Hc)]; rewrite Hs.
  - right. unfold settle_calls; simpl. rewrite settle_calls_snoc, Hc, Hp.
    repeat split; simpl; congruence.
  - right. auto.
Qed.

Lemma succeed_guarded result st : guarded st -> guarded (succeed result st).
Proof.
  unfold succeed. intros [(Hs & Hp & Hc) | (Hs & Hp & Hc)]; rewrite Hs.
  - right. unfold settle_calls; simpl. rewrite settle_calls_snoc, Hc, Hp.
    repeat split; simpl; congruence.
  - right. auto.
Qed.

Lemma handle_guarded command opts st ev :
  guarded st -> guarded (handle command opts st ev).
Proof.
  intros H. destruct ev as [d|d|err|code]; simpl.
  - unfold guarded, on_stdout, settle_calls in *; simpl.
    rewrite settle_calls_snoc. simpl. unfold settle_calls. rewrite Nat.add_0_r. exact H.
  - unfold guarded, on_stderr, settle_calls in *; simpl.
    destruct (isTrue (hideError opts)); [exact H|].
    rewrite settle_calls_snoc. simpl. unfold settle_calls. rewrite Nat.add_0_r. exact H.
  - apply fail_guarded, H.
  - unfold on_close. destruct (code_is_zero code);
      [apply succeed_guarded | apply fail_guarded]; exact H.
Qed.

Lemma fold_guarded command opts events st :
  guarded st -> guarded (fold_left (handle command opts) events st).
Proof.
  revert st. induction events as [|ev events IH]; simpl; intros st H; [exact H|].
  apply IH, handle_guarded, H.
Qed.

Lemma runCommand_guarded command args opts events :
  guarded (runCommand command args opts events).
Proof. apply fold_guarded, start_guarded. Qed.

(** Once the guard is set, no handler touches the promise or calls
    [resolve] or [reject]. *)
Lemma handle_settled command opts st ev :
  settled st = true ->
  settled (handle command opts st ev) = true
  /\ promise (handle command opts st ev) = promise st
  /\ filter is_settle_call (effects (handle command opts st ev))
     = filter is_settle_call (effects st).
Proof.
  intros Hs. destruct ev as [d|d|err|code]; simpl.
  - repeat split; auto. rewrite filter_app; simpl. apply app_nil_r.
  - repeat split; auto. destruct (isTrue (hideError opts)); [reflexivity|].
    rewrite filter_app; simpl. apply app_nil_r.
  - unfold fail. rewrite Hs. auto.
  - unfold on_close, succeed, fail. rewrite Hs. destruct (code_is_zero code); auto.
Qed.

Lemma fold_settled command opts events st :
  settled st = true ->
  promise (fold_left (handle command opts) events st) = promise st
  /\ filter is_settle_call (effects (fold_left (handle command opts) events st))
     = filter is_settle_call (effects st).
Proof.
  revert st. induction events as [|ev events IH]; simpl; intros st Hs; [auto|].
  destruct (handle_settled command opts st ev Hs) as (Hs' & Hp & Hf).
  destruct (IH _ Hs') as [Hp' Hf']. split; congruence.
Qed.

(** Data events before the first terminal event only accumulate. *)
Lemma fold_data command opts pre st :
  forallb is_data pre = true ->
  let st' := fold_left (handle command opts) pre st in
  output st' = output st ++ stdout_text pre
  /\ error st' = error st ++ stderr_text pre
  /\ settled st' = settled st
  /\ promise st' = promise st.
Proof.
  revert st. induction pre as [|ev pre IH]; simpl; intros st Hd.
  - rewrite !Str.append_nil_r. auto.
  - apply andb_true_iff in Hd. destruct Hd as [Hev Hpre].
    destruct (IH (handle command opts st ev) Hpre) as (Ho & He & Hs & Hp).
    rewrite Ho, He, Hs, Hp.
    destruct ev as [d|d|err|code]; simpl in *; try discriminate;
      rewrite ?Str.append_assoc; auto.
Qed.

Lemma run_data command args opts pre :
  forallb is_data pre = true ->
  let st := runCommand command args opts pre in
  output st = stdout_text pre /\ error st = stderr_text pre
  /\ settled st = false /\ promise st = None.
Proof.
  intros Hd. apply (fold_data command opts pre (start command args opts)) in Hd.
  exact Hd.
Qed.

(** The echo of [child.stdout] is the accumulated text with its carriage
    returns replaced; a resolved value is the trimmed form of a prefix of
    the accumulated text. *)
Definition echo_inv (st : Closure) : Prop :=
  echoed_stdout (effects st) = JS.replace_cr (output st)
  /\ forall s, promise st = Some (Resolved s) ->
       exists p q, output st = p ++ q /\ s = JS.trim p.

Lemma echoed_stdout_app a b :
  echoed_stdout (a ++ b) = echoed_stdout a ++ echoed_stdout b.
Proof.
  induction a as [|e a IH]; simpl; [reflexivity|].
  destruct e as [| | | |[|] t| |]; rewrite ?IH, ?Str.append_assoc; reflexivity.
Qed.

Lemma start_echo_inv command args opts : echo_inv (start command args opts).
Proof.
  split.
  - simpl. destruct (stdin opts) as [[|c s]|]; reflexivity.
  - simpl. discriminate.
Qed.

Lemma handle_echo_inv command opts st ev :
  guarded st -> echo_inv st -> echo_inv (handle command opts st ev).
Proof.
  intros Hg [He Hp]. destruct ev as [d|d|err|code]; simpl.
  - split; simpl.
    + rewrite echoed_stdout_app, He, JS.replace_cr_append. simpl.
      rewrite Str.append_nil_r. reflexivity.
    + intros s Hs. destruct (Hp s Hs) as (p & q & Ho & Ht).
      exists p, (q ++ d). rewrite Ho, Str.append_assoc. auto.
  - split; simpl; [|exact Hp].
    destruct (isTrue (hideError opts)); [exact He|].
    rewrite echoed_stdout_app, He. simpl. apply Str.append_nil_r.
  - unfold fail. destruct (settled st) eqn:Hs; [split; assumption|].
    split; simpl.
    + rewrite echoed_stdout_app, He. simpl. apply Str.append_nil_r.
    + destruct Hg as [(_ & Hn & _) | (Hs' & _)]; [|congruence].
      rewrite Hn. simpl. discriminate.
  - unfold on_close, succeed, fail.
    destruct (code_is_zero code), (settled st) eqn:Hs; try (split; assumption).
    + split; simpl.
      * rewrite echoed_stdout_app, He. simpl. apply Str.append_nil_r.
      * destruct Hg as [(_ & Hn & _) | (Hs' & _)]; [|congruence].
        rewrite Hn. simpl. intros s [= <-].
        exists (output st), "". rewrite Str.append_nil_r. auto.
    + split; simpl.
      * rewrite echoed_stdout_app, He. simpl. apply Str.append_nil_r.
      * destruct Hg as [(_ & Hn & _) | (Hs' & _)]; [|congruence].
        rewrite Hn. simpl. discriminate.
Qed.

Lemma fold_echo_inv command opts events st :
  guarded st -> echo_inv st -> echo_inv (fold_left (handle command opts) events st).
Proof.
  revert st. induction events as [|ev events IH]; simpl; intros st Hg Hi; [exact Hi|].
  apply IH; [apply handle_guarded, Hg | apply handle_echo_inv; assumption].
Qed.



(** *** Properties of the specification *)

(** C2, as amended.  The first terminal event of a run decides its outcome,
    and [resolve] or [reject] is called exactly once: an 'error' event
    rejects with the launch error itself, which carries no exit code; a
    'close' event with code 0 resolves with the accumulated standard
    output with the white space at BOTH ends removed ([trim]); a 'close'
    event with any other code rejects with an error whose message holds
    the text of that code, which no other code shares, and the accumulated
    error-stream text.  Before a terminal event the promise is pending. *)
Theorem run_outcome_by_first_terminal_event command args opts pre ev post :
  forallb is_data pre = true ->
  is_data ev = false ->
  let st := runCommand command args opts (pre ++ ev :: post) in
  promise (runCommand command args opts pre) = None
  /\ settle_calls st = 1
  /\ (forall err, ev = SpawnError err -> promise st = Some (Rejected err))
  /\ (ev = Close (Some 0%Z) ->
      promise st = Some (Resolved (JS.trim (stdout_text pre))))
  /\ (forall code, ev = Close code -> code <> Some 0%Z ->
      promise st
      = Some (Rejected (mkError (command ++ " exited with code " ++ show_code code
                                 ++ String JS.LF (stderr_text pre))))
      /\ forall other, show_code other = show_code code -> other = code).
Proof.
  intros Hpre Hev st.
  destruct (run_data command args opts pre Hpre) as (Ho & He & Hs & Hp).
  assert (Hst : st = fold_left (handle command opts) post
                       (handle command opts (runCommand command args opts pre) ev)).
  { unfold st. rewrite runCommand_app. reflexivity. }
  set (mid := handle command opts (runCommand command args opts pre) ev) in *.
  assert (Hmid : settled mid = true).
  { unfold mid. destruct ev as [d|d|err|code]; simpl in *; try discriminate.
    - unfold fail. rewrite Hs. reflexivity.
    - unfold on_close, succeed, fail. rewrite Hs. destruct (code_is_zero code); reflexivity. }
  destruct (fold_settled command opts post mid Hmid) as [Hkeep _].
  split; [exact Hp|]. split.
  { pose proof (runCommand_guarded command args opts (pre ++ ev :: post)) as Hg.
    fold st in Hg. destruct Hg as [(Hf & _) | (_ & _ & Hc)]; [|exact Hc].
    exfalso. rewrite Hst in Hf.
    assert (Hg' : guarded (fold_left (handle command opts) post mid)).
    { rewrite <- Hst. unfold st. apply runCommand_guarded. }
    destruct Hg' as [(_ & Hn & _) | (Ht & _)]; [|congruence].
    rewrite Hkeep in Hn.
    pose proof (handle_guarded command opts _ ev (runCommand_guarded command args opts pre)) as Hm.
    fold mid in Hm. destruct Hm as [(Hm & _) | (_ & Hm & _)]; congruence. }
  rewrite Hst, Hkeep. unfold mid. split; [|split].
  - intros err ->. simpl. unfold fail. rewrite Hs. simpl. rewrite Hp. reflexivity.
  - intros ->. simpl. unfold on_close, succeed. simpl. rewrite Hs. simpl.
    rewrite Hp, Ho. reflexivity.
  - intros code -> Hcode. simpl. unfold on_close.
    assert (Hz : code_is_zero code = false).
    { destruct code as [z|]; simpl; [|reflexivity].
      destruct (Z.eqb_spec z 0); [subst; congruence | reflexivity]. }
    rewrite Hz. unfold fail. rewrite Hs. simpl. rewrite Hp, He.
    split; [reflexivity | intros other; apply show_code_inj].
Qed.

Lemma run_outcome_by_first_terminal_event_witness :
  promise (runCommand "gh" ["pr"; "create"] {| stdin := None; hideError := None |}
             ([StdoutData " https://github.com/o/r/pull/7 "; StderrData "warn"]
              ++ Close (Some 0%Z) :: [Close (Some 1%Z)]))
  = Some (Resolved "https://github.com/o/r/pull/7").
Proof.
  destruct (run_outcome_by_first_terminal_event
              "gh" ["pr"; "create"] {| stdin := None; hideError := None |}
              [StdoutData " https://github.com/o/r/pull/7 "; StderrData "warn"]
              (Close (Some 0%Z)) [Close (Some 1%Z)] eq_refl eq_refl)
    as (_ & _ & _ & H & _).
  exact (H eq_refl).
Defined.

(** C2, as stated, fails: the resolved value is not the accumulated output
    with only its trailing white space removed.  [git status --porcelain]
    starts a line of an unstaged change with a space, and [trim] removes
    it. *)
Lemma run_success_trims_leading_whitespace :
  let st := runCommand "git" ["status"; "--porcelain"]
              {| stdin := None; hideError := None |}
              [StdoutData (" M a.txt" ++ String JS.LF ""); Close (Some 0%Z)] in
  promise st = Some (Resolved "M a.txt")
  /\ JS.trimEnd (" M a.txt" ++ String JS.LF "") = " M a.txt"
  /\ promise st <> Some (Resolved (JS.trimEnd (" M a.txt" ++ String JS.LF ""))).
Proof. repeat split. discriminate. Qed.

(** C6.  For every sequence of events and every continuation of it,
    [resolve] and [reject] are called at most once, and once the promise is
    settled every later event leaves the outcome and the calls made to it
    as they are. *)
Theorem settled_at_most_once command args opts events later o :
  let st := runCommand command args opts events in
  let st' := runCommand command args opts (events ++ later) in
  settle_calls st' <= 1
  /\ (promise st = Some o ->
      promise st' = Some o
      /\ filter is_settle_call (effects st') = filter is_settle_call (effects st)
      /\ settle_calls st' = 1).
Proof.
  intros st st'. split.
  - destruct (runCommand_guarded command args opts (events ++ later))
      as [(_ & _ & H) | (_ & _ & H)]; fold st' in H; lia.
  - intros Ho.
    destruct (runCommand_guarded command args opts events)
      as [(_ & Hn & _) | (Hs & _ & Hc)]; [fold st in Hn; congruence|].
    fold st in Hs, Hc. unfold st'. rewrite runCommand_app. fold st.
    destruct (fold_settled command opts later st Hs) as [Hp Hf].
    repeat split; [congruence | exact Hf |].
    unfold settle_calls. rewrite Hf. exact Hc.
Qed.

Lemma settled_at_most_once_witness :
  promise (runCommand "gemini" ["-y"] {| stdin := Some "hi"; hideError := None |}
             ([SpawnError (mkError "spawn gemini ENOENT")]
              ++ [Close (Some (-2)%Z); StdoutData "late"; Close (Some 0%Z)]))
  = Some (Rejected (mkError "spawn gemini ENOENT")).
Proof.
  destruct (settled_at_most_once "gemini" ["-y"]
              {| stdin := Some "hi"; hideError := None |}
              [SpawnError (mkError "spawn gemini ENOENT")]
              [Close (Some (-2)%Z); StdoutData "late"; Close (Some 0%Z)]
              (Rejected (mkError "spawn gemini ENOENT")))
    as [_ H].
  exact (proj1 (H eq_refl)).
Defined.

(** C8, as amended.  When a NON-EMPTY input is supplied, it is written to
    the input stream of the child right after the spawn and the stream is
    ended immediately after the write; no handler touches the stream
    again.  When the input is absent or the empty string, nothing is
    written and the stream is never ended. *)
Theorem stdin_written_and_ended_when_truthy command args opts events :
  let effs := effects (runCommand command args opts events) in
  match stdin opts with
  | Some (String c s) =>
      exists rest,
        effs = logCommand command args :: Spawn command args
               :: StdinWrite (String c s) :: StdinEnd :: rest
        /\ filter is_stdin_op rest = []
  | _ => filter is_stdin_op effs = []
  end.
Proof.
  assert (Hfold : forall evs st,
    exists rest, effects (fold_left (handle command opts) evs st)
                 = (effects st ++ rest)%list
                 /\ filter is_stdin_op rest = []).
  { induction evs as [|ev evs IH]; simpl; intros st.
    - exists []. rewrite app_nil_r. auto.
    - destruct (IH (handle command opts st ev)) as (rest & Hr & Hf).
      assert (Hstep : exists r1, effects (handle command opts st ev)
                                 = (effects st ++ r1)%list
                                 /\ filter is_stdin_op r1 = []).
      { destruct ev as [d|d|err|code]; simpl.
        - eexists; split; reflexivity.
        - destruct (isTrue (hideError opts)).
          + exists []. rewrite app_nil_r. auto.
          + eexists; split; reflexivity.
        - unfold fail. destruct (settled st); simpl.
          + exists []. rewrite app_nil_r. auto.
          + eexists; split; reflexivity.
        - unfold on_close, succeed, fail.
          destruct (code_is_zero code), (settled st); simpl;
            try (exists []; rewrite app_nil_r; auto; fail);
            eexists; split; reflexivity. }
      destruct Hstep as (r1 & Hr1 & Hf1).
      exists (r1 ++ rest)%list. rewrite Hr, Hr1, <- app_assoc. split; [reflexivity|].
      rewrite filter_app, Hf1, Hf. reflexivity. }
  intros effs. unfold effs, runCommand.
  destruct (Hfold events (start command args opts)) as (rest & Hr & Hf).
  rewrite Hr. unfold start; simpl.
  destruct (stdin opts) as [[|c s]|]; simpl.
  - exact Hf.
  - exists rest. auto.
  - exact Hf.
Qed.

(** C8, as stated, fails for the empty input: [if (stdin)] is false for
    [''], so the input stream of the child is neither written nor ended. *)
Lemma empty_stdin_is_not_ended :
  let effs := effects (runCommand "gemini" ["-y"]
                         {| stdin := Some ""; hideError := None |}
                         [StdoutData "OK"; Close (Some 0%Z)]) in
  ~ In StdinEnd effs /\ ~ In (StdinWrite "") effs.
Proof.
  simpl. split; intros H;
    repeat (destruct H as [H|H]; [discriminate H|]); exact H.
Qed.




(** *** Further properties of [logCommand] and [runCommand] *)

(** Reading an escaped text back: a backslash stands for the character
    after it. *)
Fixpoint unescape (s : string) : string :=
  match s with
  | EmptyString => EmptyString
  | String c tl =>
      if Ascii.eqb c JS.BACKSLASH then
        match tl with
        | String d rest => String d (unescape rest)
        | EmptyString => String c EmptyString
        end
      else String c (unescape tl)
  end.

Definition is_plain_arg (arg : string) : bool :=
  match arg with
  | EmptyString => false
  | String _ _ => Str.all is_plain arg
  end.

Definition is_spawn (e : Effect) : bool :=
  match e with Spawn _ _ => true | _ => false end.

(** What a handler may do: write to the console, settle the promise. *)
Definition is_handler_effect (e : Effect) : bool :=
  match e with
  | StdoutWrite _ _ | Resolve _ | Reject _ => true
  | _ => false
  end.

(** Text that the handler of [child.stderr] has echoed. *)
Fixpoint echoed_stderr (effs : list Effect) : string :=
  match effs with
  | [] => ""
  | StdoutWrite Err text :: rest => text ++ echoed_stderr rest
  | _ :: rest => echoed_stderr rest
  end.

Definition not_stderr (ev : ChildEvent) : bool :=
  match ev with StderrData _ => false | _ => true end.

Lemma quoteArg_cases arg :
  quoteArg arg
  = if is_plain_arg arg then arg
    else String JS.DQUOTE (escape arg ++ String JS.DQUOTE EmptyString).
Proof. destruct arg; reflexivity. Qed.

Lemma unescape_escape arg : unescape (escape arg) = arg.
Proof.
  induction arg as [|c arg IH]; [reflexivity|]. cbn [escape].
  destruct (Ascii.eqb c JS.DQUOTE || Ascii.eqb c JS.BACKSLASH) eqn:E.
  - cbn [unescape]. rewrite Ascii.eqb_refl, IH. reflexivity.
  - apply orb_false_iff in E. destruct E as [_ E].
    cbn [unescape]. rewrite E, IH. reflexivity.
Qed.

Lemma escape_length arg : String.length arg <= String.length (escape arg).
Proof.
  induction arg as [|c arg IH]; simpl; [lia|].
  destruct (Ascii.eqb c JS.DQUOTE || Ascii.eqb c JS.BACKSLASH); simpl; lia.
Qed.

Lemma append_cancel_last (a b : string) (c : ascii) :
  a ++ String c EmptyString = b ++ String c EmptyString -> a = b.
Proof.
  revert b. induction a as [|x a IH]; intros [|y b]; simpl; intros H.
  - reflexivity.
  - injection H as _ H. destruct b; discriminate H.
  - injection H as _ H. destruct a; discriminate H.
  - injection H as -> H. f_equal. apply IH, H.
Qed.

Lemma plain_arg_starts_plain arg :
  is_plain_arg arg = true ->
  exists c rest, arg = String c rest /\ Ascii.eqb c JS.DQUOTE = false.
Proof.
  destruct arg as [|c rest]; simpl; [discriminate|].
  rewrite andb_true_iff. intros [Hc _]. exists c, rest. split; [reflexivity|].
  destruct (Ascii.eqb_spec c JS.DQUOTE) as [->|]; [|reflexivity].
  vm_compute in Hc. discriminate Hc.
Qed.

(** X1.  [quoteArg] returns an argument as it is exactly when the argument
    is not empty and made of word characters and [@%+=:,./-] only; every
    other argument comes back between double quotes, longer than it
    was. *)
Theorem quoteArg_unchanged_iff_plain arg :
  (quoteArg arg = arg <-> arg <> EmptyString /\ Str.all is_plain arg = true)
  /\ (quoteArg arg <> arg ->
      quoteArg arg = String JS.DQUOTE (escape arg ++ String JS.DQUOTE EmptyString)
      /\ String.length arg + 2 <= String.length (quoteArg arg)).
Proof.
  assert (Hlen : String.length
                   (String JS.DQUOTE (escape arg ++ String JS.DQUOTE EmptyString))
                 = String.length (escape arg) + 2).
  { cbn [String.length]. rewrite Str.length_append. simpl. lia. }
  pose proof (escape_length arg) as Hesc.
  rewrite quoteArg_cases. destruct (is_plain_arg arg) eqn:Hp.
  - split; [|congruence]. split; [|reflexivity]. intros _.
    destruct arg; [discriminate Hp|]. split; [discriminate | exact Hp].
  - split.
    + split.
      * intros H. apply (f_equal String.length) in H. rewrite Hlen in H. lia.
      * intros [Hne Hall]. destruct arg; [congruence|].
        unfold is_plain_arg in Hp. congruence.
    + intros _. split; [reflexivity|]. rewrite Hlen. lia.
Qed.

(** X2.  [quoteArg] is injective: the rendering of an argument in the log
    line identifies the argument. *)
Theorem quoteArg_injective a b : quoteArg a = quoteArg b -> a = b.
Proof.
  rewrite !quoteArg_cases.
  destruct (is_plain_arg a) eqn:Ha, (is_plain_arg b) eqn:Hb; intros H.
  - exact H.
  - destruct (plain_arg_starts_plain a Ha) as (c & rest & -> & Hc).
    injection H as -> _. rewrite Ascii.eqb_refl in Hc. discriminate Hc.
  - destruct (plain_arg_starts_plain b Hb) as (c & rest & -> & Hc).
    injection H as <- _. rewrite Ascii.eqb_refl in Hc. discriminate Hc.
  - injection H as H. apply append_cancel_last in H.
    rewrite <- (unescape_escape a), <- (unescape_escape b), H. reflexivity.
Qed.

Lemma quoteArg_injective_witness :
  "Add agent output" = String "A" "dd agent output".
Proof.
  apply (quoteArg_injective "Add agent output" (String "A" "dd agent output")).
  reflexivity.
Defined.

Lemma echoed_stderr_app a b :
  echoed_stderr (a ++ b) = echoed_stderr a ++ echoed_stderr b.
Proof.
  induction a as [|e a IH]; simpl; [reflexivity|].
  destruct e as [| | | |[|] t| |]; rewrite ?IH, ?Str.append_assoc; reflexivity.
Qed.

Lemma fold_stderr command opts events st :
  let st' := fold_left (handle command opts) events st in
  error st' = error st ++ stderr_text events
  /\ echoed_stderr (effects st')
     = echoed_stderr (effects st)
       ++ (if isTrue (hideError opts) then "" else JS.replace_cr (stderr_text events)).
Proof.
  revert st. induction events as [|ev events IH]; intros st; cbn [fold_left].
  - cbn [stderr_text]. destruct (isTrue (hideError opts)); cbn;
      rewrite !Str.append_nil_r; auto.
  - destruct (IH (handle command opts st ev)) as [He Hecho].
    cbv zeta. rewrite He, Hecho. clear IH He Hecho.
    destruct ev as [d|d|err|code]; cbn [handle stderr_text].
    + unfold on_stdout; cbn [error effects]. rewrite echoed_stderr_app. cbn.
      rewrite Str.append_nil_r. auto.
    + unfold on_stderr; cbn [error effects].
      destruct (isTrue (hideError opts)).
      * rewrite Str.append_assoc. auto.
      * rewrite echoed_stderr_app, JS.replace_cr_append. cbn [echoed_stderr].
        rewrite Str.append_nil_r, !Str.append_assoc. auto.
    + unfold fail. destruct (settled st); cbn [error effects]; [auto|].
      rewrite echoed_stderr_app. cbn. rewrite Str.append_nil_r. auto.
    + unfold on_close, succeed, fail.
      destruct (code_is_zero code), (settled st); cbn [error effects]; auto;
        rewrite echoed_stderr_app; cbn; rewrite Str.append_nil_r; auto.
Qed.

(** X3.  The error-stream text is always accumulated, chunk after chunk
    as the child produced it; it is echoed, with its carriage returns
    replaced, unless [hideError] is true, and then no byte of it reaches
    the console. *)
Theorem stderr_accumulated_echo_suppressible command args opts events :
  let st := runCommand command args opts events in
  error st = stderr_text events
  /\ echoed_stderr (effects st)
     = if isTrue (hideError opts) then "" else JS.replace_cr (stderr_text events).
Proof.
  destruct (fold_stderr command opts events (start command args opts)) as [He Hecho].
  split; [exact He|].
  cbv zeta in Hecho. unfold runCommand. rewrite Hecho.
  unfold start; cbn [effects]. destruct (stdin opts) as [[|c s]|]; reflexivity.
Qed.

(** The two runs agree on everything but the error stream. *)
Definition same_but_stderr (st st' : Closure) : Prop :=
  output st = output st' /\ settled st = settled st'
  /\ forall s, promise st = Some (Resolved s) -> promise st' = Some (Resolved s).

Lemma handle_same_but_stderr command opts opts' st st' ev :
  guarded st -> guarded st' -> same_but_stderr st st' ->
  same_but_stderr (handle command opts st ev)
                  (if not_stderr ev then handle command opts' st' ev else st').
Proof.
  intros Hg Hg' (Ho & Hs & Hp).
  assert (Hnone : settled st = false -> promise st = None /\ promise st' = None).
  { intros Hf. destruct Hg as [(_ & H & _) | (H & _)]; [|congruence].
    destruct Hg' as [(_ & H' & _) | (H' & _)]; [auto | congruence]. }
  destruct ev as [d|d|err|code]; cbn [handle not_stderr].
  - repeat split; cbn; congruence || auto.
  - repeat split; cbn; auto.
  - unfold fail. rewrite <- Hs.
    destruct (settled st) eqn:E; [repeat split; auto; congruence|].
    destruct (Hnone eq_refl) as [-> ->]. repeat split; cbn; auto; discriminate.
  - unfold on_close, succeed, fail. rewrite <- Hs, <- Ho.
    destruct (code_is_zero code), (settled st) eqn:E;
      try (repeat split; auto; congruence);
      destruct (Hnone eq_refl) as [-> ->]; repeat split; cbn; auto; discriminate.
Qed.

Lemma fold_same_but_stderr command opts opts' events st st' :
  guarded st -> guarded st' -> same_but_stderr st st' ->
  same_but_stderr (fold_left (handle command opts) events st)
                  (fold_left (handle command opts') (filter not_stderr events) st').
Proof.
  revert st st'. induction events as [|ev events IH]; intros st st' Hg Hg' H; [exact H|].
  pose proof (handle_same_but_stderr command opts opts' st st' ev Hg Hg' H) as Hstep.
  cbn [fold_left filter]. destruct (not_stderr ev); cbn [fold_left].
  - apply IH; [apply handle_guarded, Hg | apply handle_guarded, Hg' | exact Hstep].
  - apply IH; [apply handle_guarded, Hg | exact Hg' | exact Hstep].
Qed.

(** X4.  A resolved value does not depend on the error stream: the same
    run without its error-stream chunks, under any options, resolves with
    the same text. *)
Theorem resolved_value_ignores_stderr command args opts opts' events s :
  promise (runCommand command args opts events) = Some (Resolved s) ->
  promise (runCommand command args opts' (filter not_stderr events))
  = Some (Resolved s).
Proof.
  intros H.
  destruct (fold_same_but_stderr command opts opts' events
              (start command args opts) (start command args opts')
              (start_guarded _ _ _) (start_guarded _ _ _)) as (_ & _ & Hp).
  - repeat split; auto.
  - apply Hp, H.
Qed.

Lemma resolved_value_ignores_stderr_witness :
  promise (runCommand "gemini" ["--version"] {| stdin := None; hideError := None |}
             [StdoutData "0.1.9"])
  = None
  /\ promise (runCommand "gemini" ["--version"] {| stdin := None; hideError := Some true |}
                (filter not_stderr
                   [StderrData "deprecated"; StdoutData "0.1.9"; StderrData "x";
                    Close (Some 0%Z)]))
     = Some (Resolved "0.1.9").
Proof.
  split; [reflexivity|].
  apply (resolved_value_ignores_stderr "gemini" ["--version"]
           {| stdin := None; hideError := None |}
           {| stdin := None; hideError := Some true |}
           [StderrData "deprecated"; StdoutData "0.1.9"; StderrData "x";
            Close (Some 0%Z)] "0.1.9").
  reflexivity.
Defined.

Lemma handle_effects command opts st ev :
  exists added, effects (handle command opts st ev) = (effects st ++ added)%list
                /\ forallb is_handler_effect added = true.
Proof.
  destruct ev as [d|d|err|code]; cbn [handle].
  - eexists; split; reflexivity.
  - unfold on_stderr; cbn [effects]. destruct (isTrue (hideError opts)).
    + exists []. rewrite app_nil_r. auto.
    + eexists; split; reflexivity.
  - unfold fail. destruct (settled st); cbn [effects].
    + exists []. rewrite app_nil_r. auto.
    + eexists; split; reflexivity.
  - unfold on_close, succeed, fail.
    destruct (code_is_zero code), (settled st); cbn [effects];
      try (exists []; rewrite app_nil_r; auto; fail);
      eexists; split; reflexivity.
Qed.

Lemma fold_effects command opts events st :
  exists added,
    effects (fold_left (handle command opts) events st) = (effects st ++ added)%list
    /\ forallb is_handler_effect added = true.
Proof.
  revert st. induction events as [|ev events IH]; intros st; cbn [fold_left].
  - exists []. rewrite app_nil_r. auto.
  - destruct (IH (handle command opts st ev)) as (rest & Hr & Hf).
    destruct (handle_effects command opts st ev) as (added & Ha & Hfa).
    exists (added ++ rest)%list. rewrite Hr, Ha, <- app_assoc. split; [reflexivity|].
    rewrite forallb_app, Hfa, Hf. reflexivity.
Qed.

Lemma handler_effects_no_spawn added :
  forallb is_handler_effect added = true -> filter is_spawn added = [].
Proof.
  induction added as [|e added IH]; [reflexivity|]. cbn [forallb filter].
  rewrite andb_true_iff. intros [He Hrest].
  destruct e; try discriminate He; cbn; apply IH, Hrest.
Qed.

(** X5.  One call spawns one child, right after the log line, with the
    command and the argument list exactly as given, whatever the
    arguments hold: quoting touches the log line only. *)
Theorem spawned_once_with_exact_arguments command args opts events :
  let effs := effects (runCommand command args opts events) in
  filter is_spawn effs = [Spawn command args]
  /\ exists rest,
       effs = ConsoleLog ("> " ++ Str.join " " (command :: List.map quoteArg args))
              :: Spawn command args :: rest.
Proof.
  cbv zeta. unfold runCommand.
  destruct (fold_effects command opts events (start command args opts))
    as (added & Ha & Hf).
  rewrite Ha. apply handler_effects_no_spawn in Hf.
  unfold start; cbn [effects]. destruct (stdin opts) as [[|c s]|];
    cbn [List.app filter is_spawn logCommand]; rewrite ?filter_app, ?Hf;
    (split; [reflexivity | eexists; reflexivity]).
Qed.

(** A resolved value is the trimmed form of some text. *)
Lemma resolved_trim_stable command args opts events s :
  promise (runCommand command args opts events) = Some (Resolved s) -> JS.trim s = s.
Proof.
  intros H.
  destruct (fold_echo_inv command opts events (start command args opts)
              (start_guarded command args opts) (start_echo_inv command args opts))
    as [_ Hp].
  destruct (Hp s H) as (p & q & _ & ->). apply JS.trim_idempotent.
Qed.

(** X6.  A resolved value has no white space left at either end, so
    trimming it again, as callers do, changes nothing. *)
Theorem resolved_value_is_trimmed command args opts events s :
  promise (runCommand command args opts events) = Some (Resolved s) ->
  JS.trim s = s /\ JS.trimStart s = s /\ JS.trimEnd s = s.
Proof.
  intros H.
  destruct (fold_echo_inv command opts events (start command args opts)
              (start_guarded command args opts) (start_echo_inv command args opts))
    as [_ Hp].
  destruct (Hp s H) as (p & q & _ & ->).
  split; [apply JS.trim_idempotent|]. split.
  - apply JS.trimStart_of_clean. unfold JS.trim.
    apply JS.trimEnd_clean, JS.trimStart_clean.
  - unfold JS.trim. apply JS.trimEnd_idempotent.
Qed.

Lemma resolved_value_is_trimmed_witness :
  JS.trim "0.1.9" = "0.1.9".
Proof.
  apply (resolved_value_is_trimmed "gemini" ["--version"]
           {| stdin := None; hideError := Some true |}
           [StdoutData (String JS.LF " 0.1.9 "); StdoutData (String JS.CR (String JS.LF ""));
            Close (Some 0%Z)] "0.1.9").
  reflexivity.
Defined.

(** The input stream is touched by the synchronous part only. *)
Lemma stdin_effects command args opts events :
  let effs := effects (runCommand command args opts events) in
  (In StdinEnd effs <-> JS.truthy (stdin opts) = true)
  /\ forall data, In (StdinWrite data) effs
                  <-> stdin opts = Some data /\ data <> EmptyString.
Proof.
  cbv zeta. unfold runCommand.
  destruct (fold_effects command opts events (start command args opts))
    as (added & Ha & Hf).
  rewrite Ha.
  assert (Hno : forall e, is_stdin_op e = true -> ~ In e added).
  { intros e He Hin. rewrite forallb_forall in Hf. apply Hf in Hin.
    destruct e; discriminate. }
  unfold start; cbn [effects]. split.
  - rewrite in_app_iff. split.
    + intros [H | H]; [|exfalso; exact (Hno StdinEnd eq_refl H)].
      destruct (stdin opts) as [[|c s]|]; cbn in H;
        repeat (destruct H as [H|H]; [try discriminate H|]); try contradiction;
        reflexivity.
    + intros H. left. destruct (stdin opts) as [[|c s]|]; try discriminate H.
      cbn. auto.
  - intros data. rewrite in_app_iff. split.
    + intros [H | H]; [|exfalso; exact (Hno (StdinWrite data) eq_refl H)].
      destruct (stdin opts) as [[|c s]|]; cbn in H;
        repeat (destruct H as [H|H]; [try discriminate H|]); try contradiction.
      injection H as <-. split; [reflexivity | discriminate].
    + intros [-> Hne]. left. destruct data as [|c s]; [congruence|]. cbn. auto.
Qed.

End Runner.

(** ** Hexadecimal text and UTF-8, as [Buffer] converts them *)

Module Hex.

Definition byte := Byte.byte.

Definition byte_of_N (n : N) : byte := byte_of_ascii (ascii_of_N n).

(** The digits of [buf.toString('hex')] are lower case. *)
Definition digit (n : N) : ascii :=
  if (n <? 10)%N then ascii_of_N (48 + n) else ascii_of_N (87 + n).

Definition encode_byte (b : byte) : string :=
  let n := Byte.to_N b in
  String (digit (n / 16)) (String (digit (n mod 16)) EmptyString).

(** [buf.toString('hex')] *)
Fixpoint encode (bs : list byte) : string :=
  match bs with
  | [] => EmptyString
  | b :: rest => encode_byte b ++ encode rest
  end.

Definition value_of (c : ascii) : option N :=
  let n := N_of_ascii c in
  if ((48 <=? n) && (n <=? 57))%N then Some (n - 48)%N
  else if ((97 <=? n) && (n <=? 102))%N then Some (n - 87)%N
  else if ((65 <=? n) && (n <=? 70))%N then Some (n - 55)%N
  else None.

(** [Buffer.from(s, 'hex')]: pairs of digits are decoded until the first
    pair that is not hexadecimal. *)
Fixpoint decode (s : string) : list byte :=
  match s with
  | String h (String l rest) =>
      match value_of h, value_of l with
      | Some a, Some b => byte_of_N (16 * a + b) :: decode rest
      | _, _ => []
      end
  | _ => []
  end.

(** [Canonicalize] of a case-insensitive pattern without the unicode flag,
    as far as an ASCII class can tell: a-z become A-Z, and no code unit
    from 128 up is ever mapped below 128. *)
Definition canonicalize (c : ascii) : ascii :=
  let n := nat_of_ascii c in
  if ((97 <=? n) && (n <=? 122))%nat then ascii_of_nat (n - 32) else c.

(** [[0-9a-f]] under the flag [i] *)
Definition is_hex_digit (c : ascii) : bool :=
  Str.any (fun m => Ascii.eqb (canonicalize m) (canonicalize c)) "0123456789abcdef".

(** [[0-9a-f]] *)
Definition is_lower_hex (c : ascii) : bool :=
  Str.any (Ascii.eqb c) "0123456789abcdef".

(** The code units that the class accepts, spelled out. *)
Definition hex_char (c : ascii) : Prop :=
  let n := nat_of_ascii c in
  48 <= n <= 57 \/ 65 <= n <= 70 \/ 97 <= n <= 102.

(** [Buffer.from(s, 'utf8')] on code units below 256. *)
Definition utf8_char (c : ascii) : list byte :=
  let n := N_of_ascii c in
  if (n <? 128)%N then [byte_of_N n]
  else [byte_of_N (192 + n / 64); byte_of_N (128 + n mod 64)].

Fixpoint utf8 (s : string) : list byte :=
  match s with
  | EmptyString => []
  | String c rest => utf8_char c ++ utf8 rest
  end.

Example encode_bytes : encode [Byte.x00; Byte.x0f; Byte.xa5; Byte.xff] = "000fa5ff".
Proof. vm_compute. reflexivity. Qed.

Example decode_mixed_case : decode "0aFf7" = [Byte.x0a; Byte.xff].
Proof. vm_compute. reflexivity. Qed.

Example utf8_latin1 : utf8 (String (ascii_of_nat 233) "a") = [Byte.xc3; Byte.xa9; Byte.x61].
Proof. vm_compute. reflexivity. Qed.

(** Case analysis on the 256 code units. *)
Ltac each_code_unit c := destruct c as [[|] [|] [|] [|] [|] [|] [|] [|]].

Lemma is_hex_digit_spec c : is_hex_digit c = true <-> hex_char c.
Proof.
  each_code_unit c; unfold hex_char;
    vm_compute nat_of_ascii; vm_compute is_hex_digit;
    (split; [intros H; try discriminate H; lia | intros H; try reflexivity; lia]).
Qed.

Lemma is_hex_digit_value c : is_hex_digit c = true -> value_of c <> None.
Proof.
  each_code_unit c; vm_compute; intros H;
    try discriminate H; intros H'; discriminate H'.
Qed.

Lemma is_lower_hex_digit c : is_lower_hex c = true -> is_hex_digit c = true.
Proof.
  each_code_unit c; vm_compute; intros H;
    try discriminate H; reflexivity.
Qed.

Lemma encode_byte_lower b : Str.all is_lower_hex (encode_byte b) = true.
Proof. destruct b; vm_compute; reflexivity. Qed.

Lemma value_of_high_digit b :
  value_of (digit (Byte.to_N b / 16)) = Some (Byte.to_N b / 16)%N.
Proof. destruct b; vm_compute; reflexivity. Qed.

Lemma value_of_low_digit b :
  value_of (digit (Byte.to_N b mod 16)) = Some (Byte.to_N b mod 16)%N.
Proof. destruct b; vm_compute; reflexivity. Qed.

Lemma byte_of_digits b :
  byte_of_N (16 * (Byte.to_N b / 16) + Byte.to_N b mod 16) = b.
Proof. destruct b; vm_compute; reflexivity. Qed.

Lemma decode_encode_byte b rest :
  decode (encode_byte b ++ rest) = b :: decode rest.
Proof.
  unfold encode_byte. cbn [String.append decode].
  rewrite value_of_high_digit, value_of_low_digit, byte_of_digits. reflexivity.
Qed.

Lemma encode_app a b : encode (a ++ b) = encode a ++ encode b.
Proof.
  induction a as [|x a IH]; [reflexivity|].
  cbn [encode List.app]. rewrite IH, Str.append_assoc. reflexivity.
Qed.

Lemma encode_length bs : String.length (encode bs) = 2 * List.length bs.
Proof.
  induction bs as [|b bs IH]; [reflexivity|].
  cbn [encode List.length]. rewrite Str.length_append, IH.
  unfold encode_byte. cbn [String.length]. lia.
Qed.

Lemma encode_lower bs : Str.all is_lower_hex (encode bs) = true.
Proof.
  induction bs as [|b bs IH]; [reflexivity|].
  change (encode (b :: bs)) with (encode_byte b ++ encode bs).
  rewrite Str.all_append, encode_byte_lower, IH. reflexivity.
Qed.

Lemma encode_hex bs : Str.all is_hex_digit (encode bs) = true.
Proof. apply (Str.all_weaken is_lower_hex); [apply is_lower_hex_digit | apply encode_lower]. Qed.

(** No hexadecimal digit is a colon. *)
Lemma encode_no_colon bs :
  Str.all (fun c => negb (Ascii.eqb c ":")) (encode bs) = true.
Proof.
  apply (Str.all_weaken is_lower_hex); [|apply encode_lower].
  intros c. each_code_unit c; vm_compute; intros H;
    try discriminate H; reflexivity.
Qed.

Lemma decode_encode bs : decode (encode bs) = bs.
Proof.
  induction bs as [|b bs IH]; [reflexivity|].
  change (encode (b :: bs)) with (encode_byte b ++ encode bs).
  rewrite decode_encode_byte, IH. reflexivity.
Qed.


(** An all-hexadecimal text of [2 * n] characters decodes to [n] bytes. *)
Lemma decode_length n : forall s,
  String.length s = 2 * n -> Str.all is_hex_digit s = true ->
  List.length (decode s) = n.
Proof.
  induction n as [|n IH]; intros s Hlen Hall.
  - destruct s; [reflexivity | discriminate].
  - destruct s as [|h [|l rest]]; simpl in Hlen; try lia.
    simpl in Hall. apply andb_true_iff in Hall. destruct Hall as [Hh Hall].
    apply andb_true_iff in Hall. destruct Hall as [Hl Hall].
    apply is_hex_digit_value in Hh, Hl.
    cbn [decode]. destruct (value_of h); [|congruence].
    destruct (value_of l); [|congruence].
    simpl. rewrite IH; [reflexivity | lia | exact Hall].
Qed.

(** *** The case of a hexadecimal digit *)

Lemma value_of_canonicalize c : value_of (canonicalize c) = value_of c.
Proof. each_code_unit c; vm_compute; reflexivity. Qed.

Lemma is_hex_digit_canonicalize c : is_hex_digit (canonicalize c) = is_hex_digit c.
Proof. each_code_unit c; vm_compute; reflexivity. Qed.

Lemma string_pairs_ind (P : string -> Prop) :
  P EmptyString ->
  (forall c, P (String c EmptyString)) ->
  (forall a b s, P s -> P (String a (String b s))) ->
  forall s, P s.
Proof.
  intros H0 H1 H2 s.
  assert (H : P s /\ forall c, P (String c s)).
  { induction s as [|x s [IHs IHc]]; [auto|]. split; [apply IHc|].
    intros c. apply H2, IHs. }
  apply H.
Qed.

Lemma decode_canonicalize s : decode (Str.map canonicalize s) = decode s.
Proof.
  induction s as [| c | a b s IH] using string_pairs_ind; [reflexivity | reflexivity |].
  cbn [Str.map decode]. rewrite !value_of_canonicalize, IH. reflexivity.
Qed.

Lemma all_hex_canonicalize s :
  Str.all is_hex_digit (Str.map canonicalize s) = Str.all is_hex_digit s.
Proof.
  induction s as [|c s IH]; [reflexivity|].
  cbn [Str.map Str.all]. rewrite is_hex_digit_canonicalize, IH. reflexivity.
Qed.

End Hex.

(** ** EncryptionService: [encrypt] of [encrypt.ts] *)

Module Encrypt.

Import Hex.

(** Calls into Node's [crypto] module, in program order. *)
Inductive CryptoCall :=
| RandomBytes (size : nat)
| CreateCipheriv (algorithm : string) (key iv : list byte)
| Update (data : list byte)
| Final
| GetAuthTag.

Definition InvalidKey : JsError :=
  mkError "Key must be 64 hexadecimal characters (0-f)".

(** [/^[0-9a-f]{64}$/i.test(keyHex)]; without the flag [m] the anchors are
    the two ends of the input. *)
Definition test_key (keyHex : string) : bool :=
  (String.length keyHex =? 64)%nat && Str.all is_hex_digit keyHex.

(** A key as the specification describes it. *)
Definition well_formed_key (keyHex : string) : Prop :=
  String.length keyHex = 64
  /\ Forall hex_char (list_ascii_of_string keyHex).

(** Segment [i] of a payload. *)
Definition segment (i : nat) (payload : string) : string :=
  nth i (Str.split ":" payload) "".

(** *** The key check *)

Lemma all_Forall (p : ascii -> bool) (P : ascii -> Prop) s :
  (forall c, p c = true <-> P c) ->
  Str.all p s = true <-> Forall P (list_ascii_of_string s).
Proof.
  intros Hp. induction s as [|c s IH]; simpl.
  - split; auto.
  - rewrite andb_true_iff, IH, Hp. split.
    + intros [Hc Hs]. constructor; assumption.
    + intros H. inversion H; subst. auto.
Qed.

Lemma test_key_spec keyHex : test_key keyHex = true <-> well_formed_key keyHex.
Proof.
  unfold test_key, well_formed_key.
  rewrite andb_true_iff, Nat.eqb_eq, (all_Forall is_hex_digit hex_char).
  - reflexivity.
  - apply is_hex_digit_spec.
Qed.

Lemma test_key_decode keyHex :
  test_key keyHex = true -> List.length (decode keyHex) = 32.
Proof.
  unfold test_key. rewrite andb_true_iff, Nat.eqb_eq. intros [Hlen Hall].
  apply decode_length; [rewrite Hlen; reflexivity | exact Hall].
Qed.

Section WithCrypto.

(** The entropy source behind [crypto.randomBytes]. *)
Variable rng : Type.
Variable randomBytes : nat -> rng -> list byte * rng.
Hypothesis randomBytes_length :
  forall n g, List.length (fst (randomBytes n g)) = n.

(** A [Cipher] object of [crypto.createCipheriv], which throws for a key
    whose length does not fit the algorithm. *)
Variable cipher : Type.
Variable createCipheriv : string -> list byte -> list byte -> JsError + cipher.
Hypothesis createCipheriv_aes256 :
  forall key iv, List.length key = 32 -> List.length iv = 12 ->
    exists c, createCipheriv "aes-256-gcm" key iv = inr c.
Variable cipher_update : cipher -> list byte -> list byte * cipher.
Variable cipher_final : cipher -> list byte * cipher.
Variable getAuthTag : cipher -> list byte.

(** The tag of GCM has 16 bytes unless [authTagLength] says otherwise. *)
Hypothesis getAuthTag_length : forall c, List.length (getAuthTag c) = 16.

(** The state of the [crypto] module: its entropy and the calls made. *)
Record Crypto := { entropy : rng; calls : list CryptoCall }.

Definition encrypt (value keyHex : string) (w : Crypto)
    : (JsError + string) * Crypto :=
  if negb (test_key keyHex) then (inl InvalidKey, w)
  else
    let key := decode keyHex in
    let (iv, g) := randomBytes 12 (entropy w) in
    match createCipheriv "aes-256-gcm" key iv with
    | inl err =>
        (inl err,
         {| entropy := g;
            calls := calls w ++ [RandomBytes 12; CreateCipheriv "aes-256-gcm" key iv] |})
    | inr c0 =>
        let (updated, c1) := cipher_update c0 (utf8 value) in
        let (final, c2) := cipher_final c1 in
        let encrypted := encode updated ++ encode final in
        let authTag := getAuthTag c2 in
        (inr (encode iv ++ ":" ++ encode authTag ++ ":" ++ encrypted),
         {| entropy := g;
            calls := calls w ++ [RandomBytes 12;
                                 CreateCipheriv "aes-256-gcm" key iv;
                                 Update (utf8 value); Final; GetAuthTag] |})
    end.

(** *** What a call with a well-formed key does *)

Lemma encrypt_valid value keyHex w :
  test_key keyHex = true ->
  exists c0 tag ct,
    let iv := fst (randomBytes 12 (entropy w)) in
    createCipheriv "aes-256-gcm" (decode keyHex) iv = inr c0
    /\ List.length tag = 16
    /\ encrypt value keyHex w
       = (inr (encode iv ++ ":" ++ encode tag ++ ":" ++ encode ct),
          {| entropy := snd (randomBytes 12 (entropy w));
             calls := calls w ++ [RandomBytes 12;
                                  CreateCipheriv "aes-256-gcm" (decode keyHex) iv;
                                  Update (utf8 value); Final; GetAuthTag] |}).
Proof.
  intros Hkey. unfold encrypt. rewrite Hkey. simpl negb. cbv iota.
  destruct (randomBytes 12 (entropy w)) as [iv g] eqn:Hiv. simpl fst; simpl snd.
  assert (Hlen : List.length iv = 12).
  { pose proof (randomBytes_length 12 (entropy w)) as H. rewrite Hiv in H. exact H. }
  destruct (createCipheriv_aes256 (decode keyHex) iv (test_key_decode _ Hkey) Hlen)
    as [c0 Hc0].
  rewrite Hc0.
  destruct (cipher_update c0 (utf8 value)) as [updated c1].
  destruct (cipher_final c1) as [final c2].
  exists c0, (getAuthTag c2), (updated ++ final)%list.
  repeat split; [apply getAuthTag_length|].
  rewrite encode_app. reflexivity.
Qed.

Lemma payload_segments iv tag ct :
  Str.split ":" (encode iv ++ ":" ++ encode tag ++ ":" ++ encode ct)
  = [encode iv; encode tag; encode ct].
Proof.
  change (":" ++ encode tag ++ ":" ++ encode ct)
    with (String ":" (encode tag ++ String ":" (encode ct))).
  rewrite Str.split_cons by apply encode_no_colon.
  rewrite Str.split_cons by apply encode_no_colon.
  rewrite Str.split_none by apply encode_no_colon.
  reflexivity.
Qed.

(** With a cipher that emits nothing for an empty input, the ciphertext
    segment of an empty plaintext is empty, whatever was drawn. *)
Lemma empty_plaintext_empty_segment keyHex w :
  (forall c, fst (cipher_update c []) = []) ->
  (forall c, fst (cipher_final c) = []) ->
  test_key keyHex = true ->
  exists payload,
    fst (encrypt EmptyString keyHex w) = inr payload /\ segment 2 payload = EmptyString.
Proof.
  intros Hupdate Hfinal Hkey. unfold encrypt. rewrite Hkey. cbn [negb].
  destruct (randomBytes 12 (entropy w)) as [iv g] eqn:Hiv.
  assert (Hlen : List.length iv = 12).
  { pose proof (randomBytes_length 12 (entropy w)) as H. rewrite Hiv in H. exact H. }
  destruct (createCipheriv_aes256 (decode keyHex) iv (test_key_decode _ Hkey) Hlen)
    as [c0 Hc0].
  rewrite Hc0. cbn [utf8].
  pose proof (Hupdate c0) as Hu. destruct (cipher_update c0 []) as [updated c1].
  pose proof (Hfinal c1) as Hf. destruct (cipher_final c1) as [final c2].
  cbn [fst] in *. subst updated final. eexists. split; [reflexivity|].
  change (encode [] ++ encode []) with (encode []).
  unfold segment. rewrite payload_segments. reflexivity.
Qed.

(** What a cipher gives out for [data]: the bytes of [update] followed by
    those of [final], and the tag that [getAuthTag] reads afterwards. *)
Definition ciphertext_and_tag (c0 : cipher) (data : list byte) : list byte * list byte :=
  let (updated, c1) := cipher_update c0 data in
  let (final, c2) := cipher_final c1 in
  ((updated ++ final)%list, getAuthTag c2).

(** The calls of one [encrypt] that gets as far as the tag. *)
Definition calls_of_encrypt (key iv data : list byte) : list CryptoCall :=
  [RandomBytes 12; CreateCipheriv "aes-256-gcm" key iv; Update data; Final; GetAuthTag].

Lemma encrypt_run value keyHex w :
  test_key keyHex = true ->
  let iv := fst (randomBytes 12 (entropy w)) in
  exists c0,
    createCipheriv "aes-256-gcm" (decode keyHex) iv = inr c0
    /\ encrypt value keyHex w
       = (inr (encode iv ++ ":"
               ++ encode (snd (ciphertext_and_tag c0 (utf8 value))) ++ ":"
               ++ encode (fst (ciphertext_and_tag c0 (utf8 value)))),
          {| entropy := snd (randomBytes 12 (entropy w));
             calls := calls w ++ calls_of_encrypt (decode keyHex) iv (utf8 value) |}).
Proof.
  intros Hkey iv.
  pose proof (randomBytes_length 12 (entropy w)) as Hiv. fold iv in Hiv.
  destruct (createCipheriv_aes256 (decode keyHex) iv (test_key_decode _ Hkey) Hiv)
    as [c0 Hc0].
  exists c0. split; [exact Hc0|].
  unfold encrypt, ciphertext_and_tag, calls_of_encrypt. rewrite Hkey. cbn [negb].
  destruct (randomBytes 12 (entropy w)) as [iv' g] eqn:Hr.
  cbn [fst snd] in *. subst iv. rewrite Hc0.
  destruct (cipher_update c0 (utf8 value)) as [updated c1].
  destruct (cipher_final c1) as [final c2]. cbn [fst snd].
  rewrite encode_app. reflexivity.
Qed.

(** *** Properties of the specification *)

(** C3.  For a key of 64 hexadecimal characters in either case and any
    plaintext, [encrypt] returns three colon-separated segments, in this
    order: the hexadecimal form of the 12 bytes drawn as initialization
    vector (24 characters), of the 16-byte tag that the cipher gives for
    this key, vector and plaintext (32 characters), and of the ciphertext:
    the bytes that the cipher's [update] and [final] gave out for the
    UTF-8 form of the plaintext.  Every segment is hexadecimal. *)
Theorem encrypt_payload_shape value keyHex w :
  well_formed_key keyHex ->
  exists payload c0,
    let iv := fst (randomBytes 12 (entropy w)) in
    let ct := fst (ciphertext_and_tag c0 (utf8 value)) in
    let tag := snd (ciphertext_and_tag c0 (utf8 value)) in
    fst (encrypt value keyHex w) = inr payload
    /\ createCipheriv "aes-256-gcm" (decode keyHex) iv = inr c0
    /\ payload = encode iv ++ ":" ++ encode tag ++ ":" ++ encode ct
    /\ Str.split ":" payload = [encode iv; encode tag; encode ct]
    /\ List.length iv = 12 /\ String.length (segment 0 payload) = 24
    /\ List.length tag = 16 /\ String.length (segment 1 payload) = 32
    /\ String.length (segment 2 payload) = 2 * List.length ct
    /\ Forall (fun seg => Str.all is_lower_hex seg = true) (Str.split ":" payload).
Proof.
  intros Hkey. apply test_key_spec in Hkey.
  destruct (encrypt_run value keyHex w Hkey) as (c0 & Hc0 & He).
  cbv zeta in Hc0, He. eexists. exists c0. cbv zeta.
  rewrite He. cbn [fst]. split; [reflexivity|]. split; [exact Hc0|].
  split; [reflexivity|].
  assert (Htag : List.length (snd (ciphertext_and_tag c0 (utf8 value))) = 16).
  { unfold ciphertext_and_tag.
    destruct (cipher_update c0 (utf8 value)) as [updated c1].
    destruct (cipher_final c1) as [final c2]. apply getAuthTag_length. }
  unfold segment. rewrite !payload_segments. cbn [nth].
  rewrite !encode_length, Htag, randomBytes_length.
  split; [reflexivity|]. split; [reflexivity|]. split; [reflexivity|].
  split; [reflexivity|]. split; [reflexivity|]. split; [reflexivity|].
  repeat constructor; apply encode_lower.
Qed.


(** C5.  A key that is not exactly 64 hexadecimal characters makes
    [encrypt] fail with the InvalidKey error before anything else
    happens: no byte is drawn and no call into [crypto] is made.  A key
    of 64 hexadecimal characters, in upper or lower case, passes the
    check and is encrypted. *)
Theorem malformed_key_rejected value keyHex w :
  (~ well_formed_key keyHex -> encrypt value keyHex w = (inl InvalidKey, w))
  /\ (well_formed_key keyHex ->
      test_key keyHex = true
      /\ exists payload, fst (encrypt value keyHex w) = inr payload).
Proof.
  split.
  - intros Hbad. unfold encrypt.
    destruct (test_key keyHex) eqn:Hk; [|reflexivity].
    apply test_key_spec in Hk. contradiction.
  - intros Hkey. apply test_key_spec in Hkey. split; [exact Hkey|].
    destruct (encrypt_valid value keyHex w Hkey) as (c0 & tag & ct & _ & _ & He).
    cbv zeta in He. rewrite He. eexists. reflexivity.
Qed.

(** *** Further properties of [encrypt] *)

Lemma test_key_canonicalize keyHex :
  test_key (Str.map canonicalize keyHex) = test_key keyHex.
Proof. unfold test_key. rewrite Str.length_map, all_hex_canonicalize. reflexivity. Qed.

(** X7.  With a well-formed key the cipher is created for AES-256-GCM
    with the 32 bytes that the key spells and the 12 bytes just drawn, it
    is fed the UTF-8 bytes of the plaintext once, and the three segments
    of the payload decode to exactly that initialization vector, the tag
    of the cipher and the bytes that [update] and [final] gave out. *)
Theorem payload_carries_cipher_output value keyHex w :
  well_formed_key keyHex ->
  let iv := fst (randomBytes 12 (entropy w)) in
  exists c0 payload,
    createCipheriv "aes-256-gcm" (decode keyHex) iv = inr c0
    /\ List.length (decode keyHex) = 32 /\ List.length iv = 12
    /\ fst (encrypt value keyHex w) = inr payload
    /\ calls (snd (encrypt value keyHex w))
       = (calls w ++ [RandomBytes 12; CreateCipheriv "aes-256-gcm" (decode keyHex) iv;
                      Update (utf8 value); Final; GetAuthTag])%list
    /\ let (updated, c1) := cipher_update c0 (utf8 value) in
       let (final, c2) := cipher_final c1 in
       decode (segment 0 payload) = iv
       /\ decode (segment 1 payload) = getAuthTag c2
       /\ decode (segment 2 payload) = (updated ++ final)%list.
Proof.
  intros Hkey iv. apply test_key_spec in Hkey.
  pose proof (test_key_decode _ Hkey) as Hk.
  pose proof (randomBytes_length 12 (entropy w)) as Hiv. fold iv in Hiv.
  destruct (createCipheriv_aes256 (decode keyHex) iv Hk Hiv) as [c0 Hc0].
  unfold encrypt. rewrite Hkey. cbn [negb].
  destruct (randomBytes 12 (entropy w)) as [iv' g] eqn:Hr.
  cbn [fst] in iv. subst iv. rewrite Hc0.
  destruct (cipher_update c0 (utf8 value)) as [updated c1] eqn:Hu.
  destruct (cipher_final c1) as [final c2] eqn:Hf.
  exists c0. eexists. split; [reflexivity|]. split; [exact Hk|]. split; [exact Hiv|].
  split; [reflexivity|]. split; [reflexivity|].
  rewrite Hu, Hf. rewrite <- encode_app.
  unfold segment. rewrite payload_segments. cbn [nth].
  rewrite !decode_encode. auto.
Qed.

(** X8.  The case of the key's digits does not matter: two keys that
    differ only in the case of their letters give the same result, error
    or payload, and leave the same state. *)
Theorem key_case_does_not_matter value k1 k2 w :
  Str.map canonicalize k1 = Str.map canonicalize k2 ->
  encrypt value k1 w = encrypt value k2 w.
Proof.
  intros H. unfold encrypt.
  rewrite <- (test_key_canonicalize k1), <- (test_key_canonicalize k2), H.
  rewrite <- (decode_canonicalize k1), <- (decode_canonicalize k2), H.
  reflexivity.
Qed.

End WithCrypto.

Arguments entropy {rng} _.
Arguments calls {rng} _.

(** *** A stand-in provider

    A counter as entropy source and a one-byte pad as cipher.  Like the
    counter mode under GCM it emits one ciphertext byte per plaintext
    byte, nothing at [final], and a 16-byte tag. *)
Module Standin.

Definition randomBytes (n : nat) (g : N) : list byte * N :=
  (repeat (byte_of_N g) n, N.succ g).

Definition createCipheriv (algorithm : string) (key iv : list byte) : JsError + N :=
  if (List.length key =? 32)%nat
  then inr (match iv with b :: _ => Byte.to_N b | [] => 0%N end)
  else inl (mkError "Invalid key length").

Definition update (pad : N) (data : list byte) : list byte * N :=
  (List.map (fun b => byte_of_N (N.lxor pad (Byte.to_N b))) data, pad).

Definition final (pad : N) : list byte * N := ([], pad).

Definition getAuthTag (pad : N) : list byte := repeat (byte_of_N pad) 16.

Lemma randomBytes_length n g : List.length (fst (randomBytes n g)) = n.
Proof. apply repeat_length. Qed.

Lemma createCipheriv_aes256 key iv :
  List.length key = 32 -> List.length iv = 12 ->
  exists c, createCipheriv "aes-256-gcm" key iv = inr c.
Proof. intros H _. unfold createCipheriv. rewrite H. eexists. reflexivity. Qed.

Lemma getAuthTag_length pad : List.length (getAuthTag pad) = 16.
Proof. apply repeat_length. Qed.

Definition encrypt : string -> string -> Crypto N -> (JsError + string) * Crypto N :=
  Encrypt.encrypt N randomBytes N createCipheriv update final getAuthTag.



End Standin.

Definition zero_key : string :=
  "0000000000000000000000000000000000000000000000000000000000000000".

Definition mixed_key : string :=
  "00112233445566778899aAbBcCdDeEfF00112233445566778899AABBCCDDEEFF".

Definition fresh : Crypto N := {| entropy := 7%N; calls := [] |}.

Example standin_hello :
  fst (Standin.encrypt "hello" zero_key fresh)
  = inr "070707070707070707070707:07070707070707070707070707070707:6f626b6b68".
Proof. vm_compute. reflexivity. Qed.

Example standin_short_key :
  Standin.encrypt "hello" "00ff" fresh = (inl InvalidKey, fresh).
Proof. vm_compute. reflexivity. Qed.

Lemma encrypt_payload_shape_witness :
  exists payload,
    fst (Standin.encrypt "hello" zero_key fresh) = inr payload
    /\ Str.split ":" payload
       = ["070707070707070707070707"; "07070707070707070707070707070707"; "6f626b6b68"]
    /\ String.length (segment 0 payload) = 24
    /\ String.length (segment 1 payload) = 32.
Proof.
  destruct (encrypt_payload_shape N Standin.randomBytes Standin.randomBytes_length
              N Standin.createCipheriv Standin.createCipheriv_aes256
              Standin.update Standin.final Standin.getAuthTag
              Standin.getAuthTag_length "hello" zero_key fresh)
    as (payload & c0 & He & Hc0 & _ & Hs & _ & H0 & _ & H1 & _).
  - apply test_key_spec. vm_compute. reflexivity.
  - vm_compute in Hc0. injection Hc0 as <-.
    exists payload. split; [exact He|]. split; [|split; [exact H0 | exact H1]].
    rewrite Hs. vm_compute. reflexivity.
Defined.



Lemma malformed_key_rejected_witness :
  Standin.encrypt "hello" "00ff" fresh = (inl InvalidKey, fresh)
  /\ Standin.encrypt "hello" (zero_key ++ "0") fresh = (inl InvalidKey, fresh)
  /\ Standin.encrypt "hello" ("g" ++ mixed_key) fresh = (inl InvalidKey, fresh)
  /\ test_key mixed_key = true.
Proof.
  assert (Hbad : forall k, test_key k = false -> ~ well_formed_key k).
  { intros k Hk Hw. apply test_key_spec in Hw. congruence. }
  pose proof (malformed_key_rejected N Standin.randomBytes Standin.randomBytes_length
                N Standin.createCipheriv Standin.createCipheriv_aes256
                Standin.update Standin.final Standin.getAuthTag
                Standin.getAuthTag_length "hello") as H.
  split; [apply (H "00ff" fresh), Hbad; vm_compute; reflexivity|].
  split; [apply (H (zero_key ++ "0") fresh), Hbad; vm_compute; reflexivity|].
  split; [apply (H ("g" ++ mixed_key) fresh), Hbad; vm_compute; reflexivity|].
  apply (H mixed_key fresh). apply test_key_spec. vm_compute. reflexivity.
Defined.

Lemma payload_carries_cipher_output_witness :
  exists payload,
    fst (Standin.encrypt "hello" zero_key fresh) = inr payload
    /\ decode (segment 0 payload) = repeat Byte.x07 12
    /\ decode (segment 2 payload) = [Byte.x6f; Byte.x62; Byte.x6b; Byte.x6b; Byte.x68].
Proof.
  destruct (payload_carries_cipher_output N Standin.randomBytes Standin.randomBytes_length
              N Standin.createCipheriv Standin.createCipheriv_aes256
              Standin.update Standin.final Standin.getAuthTag
              "hello" zero_key fresh)
    as (c0 & payload & Hc & _ & _ & He & _ & Hd).
  - apply test_key_spec. vm_compute. reflexivity.
  - vm_compute in Hc. injection Hc as <-.
    exists payload. split; [exact He|].
    cbv beta iota zeta delta [Standin.update Standin.final] in Hd.
    destruct Hd as (H0 & _ & H2). split; [exact H0 | exact H2].
Defined.

Lemma key_case_does_not_matter_witness :
  Standin.encrypt "hello"
    "00112233445566778899aabbccddeeff00112233445566778899aabbccddeeff" fresh
  = Standin.encrypt "hello" mixed_key fresh.
Proof.
  apply (key_case_does_not_matter N Standin.randomBytes
           N Standin.createCipheriv Standin.update Standin.final Standin.getAuthTag).
  vm_compute. reflexivity.
Defined.

End Encrypt.

(** ** JavaScript values and the platform of the token code *)

Module Node.

(** Values as [JSON.parse], object literals and [Response.json] produce
    them.  Numbers are the integral ones.  A property list keeps the order
    in which the properties were created.  A promise, whether it is going
    to fulfil ([VPromise]) or to reject ([VRejecting]), is opaque: its
    outcome is in an internal slot, not in a property. *)
#[warnings="-register-all"]
Inductive JsValue :=
| VUndefined
| VNull
| VBool (b : bool)
| VNum (n : Z)
| VNaN
| VStr (s : string)
| VArr (items : list JsValue)
| VObj (props : list (string * JsValue))
| VPromise (fulfils_with : JsValue)
| VRejecting (reason : JsError).

Definition is_undefined (v : JsValue) : bool :=
  match v with VUndefined => true | _ => false end.

Fixpoint lookup (key : string) (props : list (string * JsValue)) : option JsValue :=
  match props with
  | [] => None
  | (k, v) :: rest => if String.eqb k key then Some v else lookup key rest
  end.

(** Defining a property: an existing key keeps its place and takes the new
    value, a new key goes last. *)
Fixpoint set_prop (key : string) (v : JsValue) (props : list (string * JsValue))
    : list (string * JsValue) :=
  match props with
  | [] => [(key, v)]
  | (k, old) :: rest =>
      if String.eqb k key then (k, v) :: rest else (k, old) :: set_prop key v rest
  end.

(** An object literal: its entries are defined from left to right. *)
Definition object_literal (entries : list (string * JsValue)) : list (string * JsValue) :=
  fold_left (fun props kv => set_prop (fst kv) (snd kv) props) entries [].

Fixpoint indexed (i : nat) (items : list JsValue) : list (string * JsValue) :=
  match items with
  | [] => []
  | v :: rest => (JS.string_of_Z (Z.of_nat i), v) :: indexed (S i) rest
  end.

Fixpoint code_units (s : string) : list JsValue :=
  match s with
  | EmptyString => []
  | String c rest => VStr (String c EmptyString) :: code_units rest
  end.

(** What a spread [...v] copies: the own enumerable properties of [v].
    [undefined], [null], booleans, numbers and promises have none. *)
Definition own_enumerable (v : JsValue) : list (string * JsValue) :=
  match v with
  | VObj props => props
  | VArr items => indexed 0 items
  | VStr s => indexed 0 (code_units s)
  | _ => []
  end.

(** [v.key] for a key that no prototype defines. *)
Definition get_prop (v : JsValue) (key : string) : JsError + JsValue :=
  match v with
  | VUndefined => inl (mkError ("Cannot read properties of undefined (reading '" ++ key ++ "')"))
  | VNull => inl (mkError ("Cannot read properties of null (reading '" ++ key ++ "')"))
  | VObj props =>
      match lookup key props with
      | Some x => inr x
      | None => inr VUndefined
      end
  | _ => inr VUndefined
  end.

Record Request := {
  url : string;
  method : string;
  headers : list (string * string);
  body : string
}.

(** A [Response]: [res.ok], [res.status] and the text of the body. *)
Record Response := { ok : bool; status : Z; text : string }.

(** What the token code asks of Node and of the network. *)
Record Platform := {
  env : string -> option string;                   (* process.env *)
  network : Request -> JsError + Response;         (* what fetch settles to *)
  JSON_parse : string -> JsError + JsValue;
  JSON_stringify : JsValue -> string;              (* JSON.stringify(v, null, 2) *)
  ObjectToString : JsValue -> string;              (* ToString of arrays, objects *)
  ObjectToNumber : JsValue -> JsValue;             (* ToNumber of strings, arrays, objects *)
  now : Z;                                         (* Date.now() *)
  homedir : string;                                (* os.homedir() *)
  path_join : string -> string -> string;          (* path.join *)
  fs_fault : string -> option JsError              (* the error of an fs call on a path *)
}.

Inductive Effect :=
| Fetch (req : Request)
| ConsoleLog (args : list JsValue)
| Mkdir (path : string)
| WriteFile (path content : string)
| Info (msg : string).

(** Computations that may throw and that record their effects. *)
Definition M (A : Type) : Type := list Effect -> (JsError + A) * list Effect.

Definition ret {A} (a : A) : M A := fun tr => (inr a, tr).

Definition throw {A} (err : JsError) : M A := fun tr => (inl err, tr).

Definition bind {A B} (c : M A) (k : A -> M B) : M B :=
  fun tr =>
    match c tr with
    | (inr a, tr') => k a tr'
    | (inl err, tr') => (inl err, tr')
    end.

Definition lift {A} (r : JsError + A) : M A := fun tr => (r, tr).

Definition emit (e : Effect) : M unit := fun tr => (inr tt, (tr ++ [e])%list).

Declare Scope js_scope.
Delimit Scope js_scope with js.
Notation "x <- c ;; k" := (bind c (fun x => k))
  (at level 61, c at next level, right associativity) : js_scope.
Notation "c ;;; k" := (bind c (fun _ => k))
  (at level 61, right associativity) : js_scope.

Section WithPlatform.

Variable node : Platform.

(** [ToString] *)
Definition ToString (v : JsValue) : string :=
  match v with
  | VUndefined => "undefined"
  | VNull => "null"
  | VBool true => "true"
  | VBool false => "false"
  | VNum n => JS.string_of_Z n
  | VNaN => "NaN"
  | VStr s => s
  | _ => ObjectToString node v
  end.

(** [ToNumber] *)
Definition ToNumber (v : JsValue) : JsValue :=
  match v with
  | VUndefined | VNaN => VNaN
  | VNull => VNum 0
  | VBool b => VNum (if b then 1 else 0)
  | VNum n => VNum n
  | _ => ObjectToNumber node v
  end.

(** [a * b] *)
Definition js_mul (a b : JsValue) : JsValue :=
  match ToNumber a, ToNumber b with
  | VNum x, VNum y => VNum (x * y)
  | _, _ => VNaN
  end.

(** [a + b] for two numbers. *)
Definition js_add (a b : JsValue) : JsValue :=
  match a, b with
  | VNum x, VNum y => VNum (x + y)
  | _, _ => VNaN
  end.

Definition fetch (req : Request) : M Response :=
  fun tr => (network node req, (tr ++ [Fetch req])%list).

Definition mkdirSync (path : string) : M unit :=
  match fs_fault node path with
  | Some err => throw err
  | None => emit (Mkdir path)
  end.

Definition writeFileSync (path content : string) : M unit :=
  match fs_fault node path with
  | Some err => throw err
  | None => emit (WriteFile path content)
  end.

End WithPlatform.

End Node.

(** ** TokenRefreshClient: [oauth.ts] *)

Module OAuth.

Import Node.
Local Open Scope js_scope.

(** *** encodeURIComponent *)

Definition is_alnum (c : ascii) : bool :=
  JS.in_range 48 57 c || JS.in_range 65 90 c || JS.in_range 97 122 c.

(** The characters that [encodeURIComponent] leaves alone. *)
Definition is_unreserved (c : ascii) : bool :=
  is_alnum c || Str.any (Ascii.eqb c) "-_.!~*'()".

Definition upper_digit (n : N) : ascii :=
  if (n <? 10)%N then ascii_of_N (48 + n) else ascii_of_N (55 + n).

Definition percent (b : Hex.byte) : string :=
  let n := Byte.to_N b in
  String "%" (String (upper_digit (n / 16)) (String (upper_digit (n mod 16)) EmptyString)).

Definition escape_char (c : ascii) : string :=
  if is_unreserved c then String c EmptyString
  else fold_right String.append EmptyString (List.map percent (Hex.utf8_char c)).

Fixpoint encodeURIComponent (s : string) : string :=
  match s with
  | EmptyString => EmptyString
  | String c rest => escape_char c ++ encodeURIComponent rest
  end.

Example encode_plain : encodeURIComponent "refresh_token" = "refresh_token".
Proof. vm_compute. reflexivity. Qed.

Example encode_reserved : encodeURIComponent "1//0g a&b=c" = "1%2F%2F0g%20a%26b%3Dc".
Proof. vm_compute. reflexivity. Qed.

(** *** The request *)

Section WithPlatform.

Variable node : Platform.

(** [objectToUrlEncoded]: the keys in creation order, each value through
    [ToString]. *)
Definition objectToUrlEncoded (data : list (string * JsValue)) : string :=
  Str.join "&"
    (List.map (fun kv => encodeURIComponent (fst kv) ++ "="
                         ++ encodeURIComponent (ToString node (snd kv)))
              data).

(** [...(clientSecret ? { client_secret: clientSecret } : {})] *)
Definition secret_part (clientSecret : option string) : JsValue :=
  match clientSecret with
  | Some (String c s) => VObj (object_literal [("client_secret", VStr (String c s))])
  | _ => VObj (object_literal [])
  end.

(** The object [body].  The refresh token is whatever value the caller
    read out of the stored credential. *)
Definition request_body (clientId : string) (clientSecret : option string)
    (refreshToken : JsValue) : list (string * JsValue) :=
  object_literal
    ([("grant_type", VStr "refresh_token");
      ("refresh_token", refreshToken);
      ("client_id", VStr clientId)]
     ++ own_enumerable (secret_part clientSecret)).

Definition refresh_request (tokenEndpoint clientId : string)
    (clientSecret : option string) (refreshToken : JsValue) : Request :=
  {| url := tokenEndpoint;
     method := "POST";
     headers := [("Content-Type", "application/x-www-form-urlencoded");
                 ("Accept", "application/json")];
     body := objectToUrlEncoded (request_body clientId clientSecret refreshToken) |}.

(** [res.json()]: a promise, which nothing awaits.  As a value it has no
    property of its own, whatever it settles to; a rejection of it is
    handled nowhere, and [Refresh.unhandled_rejections] collects those of
    a run. *)
Definition json (res : Response) : JsValue :=
  match JSON_parse node (text res) with
  | inr v => VPromise v
  | inl err => VRejecting err
  end.

Definition refreshOAuthToken (tokenEndpoint clientId : string)
    (clientSecret : option string) (refreshToken : JsValue) : M JsValue :=
  res <- fetch node (refresh_request tokenEndpoint clientId clientSecret refreshToken) ;;
  if negb (ok res) then
    throw (mkError ("Token refresh failed: " ++ JS.string_of_Z (status res)
                    ++ " " ++ text res))
  else
    ret (VObj (object_literal
                 ([("refresh_token", refreshToken)] ++ own_enumerable (json res)))).

Definition GEMINI_OAUTH_CLIENT_ID : string :=
  "681255809395-oo8ft2oprdrnp9e3aqf6av3hmdib135j.apps.googleusercontent.com".

Definition GEMINI_OAUTH_CLIENT_SECRET : string := "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".

Definition refreshGeminiToken (refreshToken : JsValue) : M string :=
  updateToken <- refreshOAuthToken "https://oauth2.googleapis.com/token"
                   GEMINI_OAUTH_CLIENT_ID (Some GEMINI_OAUTH_CLIENT_SECRET)
                   refreshToken ;;
  ret (JSON_stringify node updateToken).

Definition QWEN_OAUTH_CLIENT_ID : string := "f0304373b74a44d2b584a3fb70ca9e56".

Definition refreshQwenToken (refreshToken : JsValue) : M string :=
  emit (ConsoleLog [VStr "refreshQwenToken:"; refreshToken]) ;;;
  updateToken <- refreshOAuthToken "https://chat.qwen.ai/api/v1/oauth2/token"
                   QWEN_OAUTH_CLIENT_ID None refreshToken ;;
  emit (ConsoleLog [updateToken]) ;;;
  expires_in <- lift (get_prop updateToken "expires_in") ;;
  let tokenToSave :=
    VObj (object_literal
            (own_enumerable updateToken
             ++ [("expires_at", js_add (VNum (now node))
                                  (js_mul node expires_in (VNum 1000)))])) in
  ret (JSON_stringify node tokenToSave).

Definition refreshToken (agent : string) (refreshToken : JsValue) : M string :=
  if String.eqb agent "gemini" then refreshGeminiToken refreshToken
  else if String.eqb agent "qwen" then refreshQwenToken refreshToken
  else throw (mkError ("Unsupported agent: " ++ agent)).

(** *** Reading a form-encoded body *)

(** A server splits the body at every ampersand and each field at its
    first equals sign. *)
Fixpoint cut (sep : ascii) (s : string) : string * string :=
  match s with
  | EmptyString => (EmptyString, EmptyString)
  | String c rest =>
      if Ascii.eqb c sep then (EmptyString, rest)
      else let (name, value) := cut sep rest in (String c name, value)
  end.

Definition form_fields (body : string) : list (string * string) :=
  List.map (cut "=") (Str.split "&" body).

Definition not_amp (c : ascii) : bool := negb (Ascii.eqb c "&").
Definition not_eq (c : ascii) : bool := negb (Ascii.eqb c "=").

Lemma cut_at sep a b :
  Str.all (fun c => negb (Ascii.eqb c sep)) a = true ->
  cut sep (a ++ String sep b) = (a, b).
Proof.
  induction a as [|c a IH]; simpl.
  - intros _. rewrite Ascii.eqb_refl. reflexivity.
  - rewrite andb_true_iff. intros [Hc Ha].
    apply negb_true_iff in Hc. rewrite Hc, (IH Ha). reflexivity.
Qed.

Lemma escape_char_safe c :
  Str.all (fun x => not_amp x && not_eq x) (escape_char c) = true.
Proof. Hex.each_code_unit c; vm_compute; reflexivity. Qed.

Lemma escape_char_nonempty c : escape_char c <> EmptyString.
Proof. Hex.each_code_unit c; vm_compute; discriminate. Qed.

Lemma encodeURIComponent_safe s :
  Str.all (fun x => not_amp x && not_eq x) (encodeURIComponent s) = true.
Proof.
  induction s as [|c s IH]; [reflexivity|].
  cbn [encodeURIComponent]. rewrite Str.all_append, escape_char_safe, IH. reflexivity.
Qed.

Lemma encodeURIComponent_no_amp s : Str.all not_amp (encodeURIComponent s) = true.
Proof.
  apply (Str.all_weaken (fun x => not_amp x && not_eq x)); [|apply encodeURIComponent_safe].
  intros c H. apply andb_true_iff in H. tauto.
Qed.

Lemma encodeURIComponent_no_eq s : Str.all not_eq (encodeURIComponent s) = true.
Proof.
  apply (Str.all_weaken (fun x => not_amp x && not_eq x)); [|apply encodeURIComponent_safe].
  intros c H. apply andb_true_iff in H. tauto.
Qed.

Lemma encodeURIComponent_nonempty c s : encodeURIComponent (String c s) <> EmptyString.
Proof.
  cbn [encodeURIComponent]. pose proof (escape_char_nonempty c) as H.
  destruct (escape_char c); [congruence | discriminate].
Qed.

(** Splitting undoes joining when no part holds the separator. *)
Lemma split_join (parts : list string) :
  parts <> [] ->
  Forall (fun p => Str.all not_amp p = true) parts ->
  Str.split "&" (Str.join "&" parts) = parts.
Proof.
  induction parts as [|p rest IH]; [congruence|].
  intros _ Hall. inversion Hall as [|? ? Hp Hrest]; subst.
  destruct rest as [|q rest].
  - simpl. apply Str.split_none, Hp.
  - change (Str.join "&" (p :: q :: rest))
      with (p ++ String "&" (Str.join "&" (q :: rest))).
    rewrite Str.split_cons by exact Hp.
    rewrite IH; [reflexivity | discriminate | exact Hrest].
Qed.

Lemma form_fields_encoded (data : list (string * JsValue)) :
  data <> [] ->
  form_fields (objectToUrlEncoded data)
  = List.map (fun kv => (encodeURIComponent (fst kv),
                         encodeURIComponent (ToString node (snd kv)))) data.
Proof.
  intros Hne. unfold form_fields, objectToUrlEncoded.
  rewrite split_join.
  - rewrite List.map_map. apply List.map_ext. intros [k v]. cbn [fst snd].
    change ("=" ++ encodeURIComponent (ToString node v))
      with (String "=" (encodeURIComponent (ToString node v))).
    apply cut_at, encodeURIComponent_no_eq.
  - destruct data; [congruence | discriminate].
  - apply Forall_map, Forall_forall. intros [k v] _. cbn [fst snd].
    rewrite !Str.all_append, !encodeURIComponent_no_amp. reflexivity.
Qed.

(** *** A successful exchange *)

(** The credential that merging the parsed body would give. *)
Definition merged_credential (refreshToken parsed : JsValue) : JsValue :=
  VObj (object_literal ([("refresh_token", refreshToken)] ++ own_enumerable parsed)).

(** What [refreshOAuthToken] returns on a success status: the spread of the
    pending promise contributes nothing. *)
Lemma refreshOAuthToken_success tokenEndpoint clientId clientSecret refreshToken res tr :
  network node (refresh_request tokenEndpoint clientId clientSecret refreshToken) = inr res ->
  ok res = true ->
  fst (refreshOAuthToken tokenEndpoint clientId clientSecret refreshToken tr)
  = inr (VObj [("refresh_token", refreshToken)]).
Proof.
  intros Hres Hok. unfold refreshOAuthToken, bind, fetch. rewrite Hres, Hok.
  cbn [negb]. unfold json. destruct (JSON_parse node (text res)); reflexivity.
Qed.

(** *** Properties of the specification *)

(** C7.  Every refresh request is a POST whose form-encoded body holds, in
    this order, [grant_type=refresh_token], the given refresh token and
    the client identifier; the field [client_secret] is there exactly when
    a client secret is supplied, that is when [clientSecret] is a
    non-empty string, and then with that secret as its value: the field
    is never sent with an empty value. *)
Theorem refresh_body_fields tokenEndpoint clientId clientSecret refreshToken tr :
  let req := refresh_request tokenEndpoint clientId clientSecret refreshToken in
  let fields := form_fields (body req) in
  snd (refreshOAuthToken tokenEndpoint clientId clientSecret refreshToken tr)
  = (tr ++ [Fetch req])%list
  /\ method req = "POST"
  /\ url req = tokenEndpoint
  /\ fields
     = ([("grant_type", "refresh_token");
         ("refresh_token", encodeURIComponent (ToString node refreshToken));
         ("client_id", encodeURIComponent clientId)]
        ++ match clientSecret with
           | Some (String c s) => [("client_secret", encodeURIComponent (String c s))]
           | _ => []
           end)%list
  /\ (In "client_secret" (List.map fst fields)
      <-> exists secret, clientSecret = Some secret /\ secret <> EmptyString)
  /\ ~ In ("client_secret", EmptyString) fields.
Proof.
  intros req fields.
  assert (Hfields : fields
     = ([("grant_type", "refresh_token");
         ("refresh_token", encodeURIComponent (ToString node refreshToken));
         ("client_id", encodeURIComponent clientId)]
        ++ match clientSecret with
           | Some (String c s) => [("client_secret", encodeURIComponent (String c s))]
           | _ => []
           end)%list).
  { unfold fields, req, refresh_request. cbn [body].
    rewrite form_fields_encoded by (destruct clientSecret as [[|c s]|]; discriminate).
    destruct clientSecret as [[|c s]|]; vm_compute request_body; reflexivity. }
  split.
  { unfold refreshOAuthToken, bind, fetch. fold req.
    destruct (network node req) as [err|res]; [reflexivity|].
    destruct (negb (ok res)); reflexivity. }
  split; [reflexivity|]. split; [reflexivity|]. split; [exact Hfields|].
  rewrite Hfields. split; [split|].
  - destruct clientSecret as [[|c s]|]; cbn [List.map List.app fst In];
      intros H; repeat (destruct H as [H|H]; [try discriminate H|]); try contradiction.
    exists (String c s). split; [reflexivity | discriminate].
  - intros (secret & -> & Hne). destruct secret as [|c s]; [congruence|].
    cbn [List.map List.app fst In]. auto.
  - destruct clientSecret as [[|c s]|]; cbn [List.app In];
      intros H; repeat (destruct H as [H|H]; [try discriminate H|]); try contradiction.
    injection H as H. exact (encodeURIComponent_nonempty c s H).
Qed.


(** *** Further properties of the token exchange *)

(** Undoing the percent-encoding, and reading UTF-8 back into code units
    below 256: what the receiver of a form-encoded body does. *)
Fixpoint percent_decode (s : string) : list Hex.byte :=
  match s with
  | EmptyString => []
  | String c tl =>
      if Ascii.eqb c "%" then
        match tl with
        | String h (String l rest) =>
            match Hex.value_of h, Hex.value_of l with
            | Some a, Some b => Hex.byte_of_N (16 * a + b) :: percent_decode rest
            | _, _ => byte_of_ascii c :: percent_decode tl
            end
        | _ => byte_of_ascii c :: percent_decode tl
        end
      else byte_of_ascii c :: percent_decode tl
  end.

Fixpoint utf8_decode (bs : list Hex.byte) : string :=
  match bs with
  | [] => EmptyString
  | b :: tl =>
      if (Byte.to_N b <? 128)%N then String (ascii_of_byte b) (utf8_decode tl)
      else match tl with
           | b2 :: rest =>
               String (ascii_of_N ((Byte.to_N b - 192) * 64 + (Byte.to_N b2 - 128)))
                      (utf8_decode rest)
           | [] => String (ascii_of_byte b) EmptyString
           end
  end.

Definition decodeURIComponent (s : string) : string := utf8_decode (percent_decode s).

Definition is_console (e : Effect) : bool :=
  match e with ConsoleLog _ => true | _ => false end.

Definition is_fetch (e : Effect) : bool :=
  match e with Fetch _ => true | _ => false end.

(** The request that [refreshToken] sends for a supported agent. *)
Definition agent_request (agent : string) (refreshToken : JsValue) : Request :=
  if String.eqb agent "gemini"
  then refresh_request "https://oauth2.googleapis.com/token" GEMINI_OAUTH_CLIENT_ID
         (Some GEMINI_OAUTH_CLIENT_SECRET) refreshToken
  else refresh_request "https://chat.qwen.ai/api/v1/oauth2/token" QWEN_OAUTH_CLIENT_ID
         None refreshToken.

Lemma upper_digit_high b :
  Hex.value_of (upper_digit (Byte.to_N b / 16)) = Some (Byte.to_N b / 16)%N.
Proof. destruct b; vm_compute; reflexivity. Qed.

Lemma upper_digit_low b :
  Hex.value_of (upper_digit (Byte.to_N b mod 16)) = Some (Byte.to_N b mod 16)%N.
Proof. destruct b; vm_compute; reflexivity. Qed.

Lemma percent_decode_percent b rest :
  percent_decode (percent b ++ rest) = b :: percent_decode rest.
Proof.
  unfold percent. cbn [String.append percent_decode].
  rewrite Ascii.eqb_refl, upper_digit_high, upper_digit_low, Hex.byte_of_digits.
  reflexivity.
Qed.

Lemma percent_decode_bytes bs rest :
  percent_decode (fold_right String.append EmptyString (List.map percent bs) ++ rest)
  = (bs ++ percent_decode rest)%list.
Proof.
  induction bs as [|b bs IH]; [reflexivity|].
  cbn [List.map fold_right List.app].
  rewrite Str.append_assoc, percent_decode_percent, IH. reflexivity.
Qed.

Lemma unreserved_utf8 c : is_unreserved c = true -> Hex.utf8_char c = [byte_of_ascii c].
Proof. Hex.each_code_unit c; vm_compute; intros H; try discriminate H; reflexivity. Qed.

Lemma unreserved_not_percent c : is_unreserved c = true -> Ascii.eqb c "%" = false.
Proof. Hex.each_code_unit c; vm_compute; intros H; try discriminate H; reflexivity. Qed.

Lemma percent_decode_escape_char c rest :
  percent_decode (escape_char c ++ rest) = (Hex.utf8_char c ++ percent_decode rest)%list.
Proof.
  unfold escape_char. destruct (is_unreserved c) eqn:E.
  - cbn [String.append percent_decode].
    rewrite (unreserved_not_percent c E), (unreserved_utf8 c E). reflexivity.
  - apply percent_decode_bytes.
Qed.

Lemma percent_decode_encoded s : percent_decode (encodeURIComponent s) = Hex.utf8 s.
Proof.
  induction s as [|c s IH]; [reflexivity|].
  cbn [encodeURIComponent Hex.utf8]. rewrite percent_decode_escape_char, IH. reflexivity.
Qed.

Lemma utf8_char_shape c :
  match Hex.utf8_char c with
  | [b] => (Byte.to_N b <? 128)%N = true /\ ascii_of_byte b = c
  | [b1; b2] =>
      (Byte.to_N b1 <? 128)%N = false
      /\ ascii_of_N ((Byte.to_N b1 - 192) * 64 + (Byte.to_N b2 - 128)) = c
  | _ => False
  end.
Proof. Hex.each_code_unit c; vm_compute; split; reflexivity. Qed.

Lemma utf8_decode_char c rest :
  utf8_decode (Hex.utf8_char c ++ rest) = String c (utf8_decode rest).
Proof.
  pose proof (utf8_char_shape c) as H.
  destruct (Hex.utf8_char c) as [|b1 [|b2 [|b3 tl]]]; try contradiction;
    destruct H as [Hb Hc]; cbn [List.app utf8_decode]; rewrite Hb, Hc; reflexivity.
Qed.

Lemma utf8_decode_utf8 s : utf8_decode (Hex.utf8 s) = s.
Proof.
  induction s as [|c s IH]; [reflexivity|].
  cbn [Hex.utf8]. rewrite utf8_decode_char, IH. reflexivity.
Qed.

Lemma decode_encodeURIComponent s : decodeURIComponent (encodeURIComponent s) = s.
Proof. unfold decodeURIComponent. rewrite percent_decode_encoded. apply utf8_decode_utf8. Qed.

Example decode_reserved : decodeURIComponent "1%2F%2F0g%20a%26b%3Dc" = "1//0g a&b=c".
Proof. vm_compute. reflexivity. Qed.

(** X9.  A form-encoded body gives back what went in: splitting the text
    of [objectToUrlEncoded] at ampersands and equals signs and undoing
    the percent-encoding yields the keys in their order, each with the
    text of its value, whatever characters the values hold. *)
Theorem form_body_round_trip (data : list (string * JsValue)) :
  data <> [] ->
  List.map (fun field => (decodeURIComponent (fst field), decodeURIComponent (snd field)))
           (form_fields (objectToUrlEncoded data))
  = List.map (fun kv => (fst kv, ToString node (snd kv))) data.
Proof.
  intros Hne. rewrite form_fields_encoded by exact Hne.
  rewrite List.map_map. apply List.map_ext. intros [k v]. cbn [fst snd].
  rewrite !decode_encodeURIComponent. reflexivity.
Qed.

(** X10.  [refreshToken] sends nothing for an agent it does not know and
    fails with the name of the agent; for 'gemini' and 'qwen' it sends
    exactly one request, to the endpoint of that agent, and the body for
    'qwen' has no [client_secret] field while the one for 'gemini' has. *)
Theorem refreshToken_dispatch agent refreshToken_ tr :
  let run := refreshToken agent refreshToken_ tr in
  (agent <> "gemini" -> agent <> "qwen" ->
     run = (inl (mkError ("Unsupported agent: " ++ agent)), tr))
  /\ ((agent = "gemini" \/ agent = "qwen") ->
      filter is_fetch (snd run)
      = (filter is_fetch tr ++ [Fetch (agent_request agent refreshToken_)])%list)
  /\ url (agent_request "gemini" refreshToken_) = "https://oauth2.googleapis.com/token"
  /\ url (agent_request "qwen" refreshToken_) = "https://chat.qwen.ai/api/v1/oauth2/token"
  /\ List.map fst (form_fields (body (agent_request "gemini" refreshToken_)))
     = ["grant_type"; "refresh_token"; "client_id"; "client_secret"]
  /\ List.map fst (form_fields (body (agent_request "qwen" refreshToken_)))
     = ["grant_type"; "refresh_token"; "client_id"].
Proof.
  cbv zeta. split; [|split; [|split; [reflexivity|split; [reflexivity|split]]]].
  - intros Hg Hq. apply String.eqb_neq in Hg, Hq.
    unfold refreshToken. rewrite Hg, Hq. reflexivity.
  - intros [-> | ->]; unfold refreshToken, agent_request;
      cbn [String.eqb Ascii.eqb Bool.eqb].
    + unfold refreshGeminiToken, refreshOAuthToken, bind, fetch, throw, ret.
      destruct (network node _) as [err|res]; cbn [snd];
        [|destruct (negb (ok res)); cbn [snd]];
        rewrite filter_app; reflexivity.
    + unfold refreshQwenToken, refreshOAuthToken, bind, fetch, throw, ret, emit, lift.
      destruct (network node _) as [err|res]; cbn [snd];
        [|destruct (negb (ok res)); cbn [snd];
          [|destruct (get_prop _ _); cbn [snd]]];
        rewrite !filter_app; cbn [filter is_fetch]; rewrite ?app_nil_r; reflexivity.
  - unfold agent_request, refresh_request. cbn [String.eqb Ascii.eqb Bool.eqb body].
    rewrite form_fields_encoded by discriminate. vm_compute. reflexivity.
  - unfold agent_request, refresh_request. cbn [String.eqb Ascii.eqb Bool.eqb body].
    rewrite form_fields_encoded by discriminate. vm_compute. reflexivity.
Qed.

(** X11.  When the endpoint of a supported agent answers with a status
    that is not a success, [refreshToken] fails with a message that holds
    the status and the whole body of the answer, and nothing is
    stringified or returned. *)
Theorem refreshToken_reports_status_and_body agent refreshToken_ tr res :
  agent = "gemini" \/ agent = "qwen" ->
  network node (agent_request agent refreshToken_) = inr res ->
  ok res = false ->
  fst (refreshToken agent refreshToken_ tr)
  = inl (mkError ("Token refresh failed: " ++ JS.string_of_Z (status res)
                  ++ " " ++ text res)).
Proof.
  intros [-> | ->] Hres Hok; unfold agent_request in Hres;
    cbn [String.eqb Ascii.eqb Bool.eqb] in Hres; unfold refreshToken;
    cbn [String.eqb Ascii.eqb Bool.eqb].
  - unfold refreshGeminiToken, refreshOAuthToken, bind, fetch, throw.
    rewrite Hres, Hok. reflexivity.
  - unfold refreshQwenToken, refreshOAuthToken, bind, fetch, throw, emit.
    rewrite Hres, Hok. reflexivity.
Qed.

(** X12.  On a success status the text that [refreshToken] returns is
    that of an object built from the input refresh token alone: for
    'gemini' the object holds the input refresh token and nothing else,
    for 'qwen' the input refresh token and an [expires_at] that is NaN,
    since [expires_in] is read from an object that does not have it. *)
Theorem refreshToken_returns_input_token_only agent refreshToken_ tr res :
  agent = "gemini" \/ agent = "qwen" ->
  network node (agent_request agent refreshToken_) = inr res ->
  ok res = true ->
  fst (refreshToken agent refreshToken_ tr)
  = inr (JSON_stringify node
           (VObj (("refresh_token", refreshToken_)
                  :: (if String.eqb agent "gemini" then []
                      else [("expires_at", VNaN)])))).
Proof.
  intros [-> | ->] Hres Hok; unfold agent_request in Hres;
    cbn [String.eqb Ascii.eqb Bool.eqb] in Hres; unfold refreshToken;
    cbn [String.eqb Ascii.eqb Bool.eqb].
  - unfold refreshGeminiToken, bind, ret.
    pose proof (refreshOAuthToken_success _ _ _ _ res tr Hres Hok) as H.
    destruct (refreshOAuthToken _ _ _ _ tr) as [r tr']. cbn [fst] in H. subst r.
    reflexivity.
  - unfold refreshQwenToken, bind, ret, emit, lift.
    pose proof (refreshOAuthToken_success _ _ _ _ res
                  (tr ++ [ConsoleLog [VStr "refreshQwenToken:"; refreshToken_]])%list
                  Hres Hok) as H.
    destruct (refreshOAuthToken _ _ _ _ _) as [r tr']. cbn [fst] in H. subst r.
    reflexivity.
Qed.

(** X13.  [refreshQwenToken] writes the refresh token to the console
    before it sends the request, whatever the answer will be;
    [refreshGeminiToken] writes nothing to the console. *)
Theorem qwen_logs_refresh_token refreshToken_ tr :
  (exists rest,
     snd (refreshQwenToken refreshToken_ tr)
     = (tr ++ ConsoleLog [VStr "refreshQwenToken:"; refreshToken_]
           :: Fetch (agent_request "qwen" refreshToken_) :: rest)%list)
  /\ filter is_console (snd (refreshGeminiToken refreshToken_ tr)) = filter is_console tr.
Proof.
  split.
  - unfold refreshQwenToken, refreshOAuthToken, bind, fetch, throw, ret, emit, lift.
    fold (agent_request "qwen" refreshToken_).
    change (refresh_request "https://chat.qwen.ai/api/v1/oauth2/token"
              QWEN_OAUTH_CLIENT_ID None refreshToken_)
      with (agent_request "qwen" refreshToken_).
    destruct (network node _) as [err|res]; cbn [snd];
      [|destruct (negb (ok res)); cbn [snd];
        [|destruct (get_prop _ _); cbn [snd]]];
      rewrite <- ?app_assoc; cbn [List.app]; eexists; reflexivity.
  - unfold refreshGeminiToken, refreshOAuthToken, bind, fetch, throw, ret.
    destruct (network node _) as [err|res]; cbn [snd];
      [|destruct (negb (ok res)); cbn [snd]];
      rewrite filter_app; cbn; apply app_nil_r.
Qed.

End WithPlatform.

(** *** A sample platform

    A token endpoint that answers every request with 200 and a rotated
    refresh token, an environment that holds a stored credential for each
    agent, and stand-ins for [JSON] that know these texts. *)
Module Sample.

Definition q (s : string) : string :=
  String JS.DQUOTE (s ++ String JS.DQUOTE EmptyString).

Definition response_text : string :=
  "{" ++ q "access_token" ++ ":" ++ q "ya29.fresh" ++ ","
      ++ q "expires_in" ++ ":3599,"
      ++ q "refresh_token" ++ ":" ++ q "1//rotated" ++ ","
      ++ q "token_type" ++ ":" ++ q "Bearer" ++ "}".

Definition response_value : JsValue :=
  VObj [("access_token", VStr "ya29.fresh"); ("expires_in", VNum 3599);
        ("refresh_token", VStr "1//rotated"); ("token_type", VStr "Bearer")].

Definition stored_text : string :=
  "{" ++ q "access_token" ++ ":" ++ q "ya29.stale" ++ ","
      ++ q "refresh_token" ++ ":" ++ q "1//stored" ++ "}".

Definition stored_value : JsValue :=
  VObj [("access_token", VStr "ya29.stale"); ("refresh_token", VStr "1//stored")].

Definition parse (s : string) : JsError + JsValue :=
  if String.eqb s response_text then inr response_value
  else if String.eqb s stored_text then inr stored_value
  else inl (mkError "Unexpected token in JSON").

Definition stringify_scalar (v : JsValue) : string :=
  match v with
  | VStr s => q s
  | VNum n => JS.string_of_Z n
  | VBool true => "true"
  | VBool false => "false"
  | _ => "null"
  end.

(** The text of a value, without the indentation. *)
Fixpoint stringify (v : JsValue) : string :=
  match v with
  | VObj props =>
      "{" ++ Str.join ","
               ((fix members (ps : list (string * JsValue)) : list string :=
                   match ps with
                   | [] => []
                   | (k, x) :: rest => (q k ++ ":" ++ stringify x) :: members rest
                   end) props) ++ "}"
  | VArr items =>
      "[" ++ Str.join ","
               ((fix elements (xs : list JsValue) : list string :=
                   match xs with
                   | [] => []
                   | x :: rest => stringify x :: elements rest
                   end) items) ++ "]"
  | _ => stringify_scalar v
  end.

Definition node : Platform :=
  {| env := fun name =>
              if String.eqb name "PROMPTOPS_GEMINI_TOKEN" then Some stored_text
              else if String.eqb name "PROMPTOPS_QWEN_TOKEN" then Some stored_text
              else None;
     network := fun _ => inr {| ok := true; status := 200; text := response_text |};
     JSON_parse := parse;
     JSON_stringify := stringify;
     ObjectToString := fun _ => "[object Object]";
     ObjectToNumber := fun _ => VNaN;
     now := 1700000000000;
     homedir := "/home/runner";
     path_join := fun dir name => dir ++ "/" ++ name;
     fs_fault := fun _ => None |}.

End Sample.

Example sample_request_body :
  body (refresh_request Sample.node "https://chat.qwen.ai/api/v1/oauth2/token"
          QWEN_OAUTH_CLIENT_ID None (VStr "1//stored"))
  = "grant_type=refresh_token&refresh_token=1%2F%2Fstored&client_id=f0304373b74a44d2b584a3fb70ca9e56".
Proof. vm_compute. reflexivity. Qed.

(** C1 fails on the code.  The token endpoint answers 200 with a body that
    holds a new access token and a rotated refresh token; [res.json()] is
    spread without [await], so the credential that [refreshOAuthToken]
    returns holds the input refresh token and nothing else: the rotated
    token does not win and there is no access token. *)
Theorem refresh_ignores_response_body :
  let result := fst (refreshOAuthToken Sample.node "https://oauth2.googleapis.com/token"
                       GEMINI_OAUTH_CLIENT_ID (Some GEMINI_OAUTH_CLIENT_SECRET)
                       (VStr "1//stored") []) in
  JSON_parse Sample.node Sample.response_text = inr Sample.response_value
  /\ get_prop Sample.response_value "refresh_token" = inr (VStr "1//rotated")
  /\ result = inr (VObj [("refresh_token", VStr "1//stored")])
  /\ result <> inr (merged_credential (VStr "1//stored") Sample.response_value)
  /\ (forall credential, result = inr credential ->
        get_prop credential "refresh_token" = inr (VStr "1//stored")
        /\ get_prop credential "access_token" = inr VUndefined).
Proof.
  assert (Hresult : fst (refreshOAuthToken Sample.node "https://oauth2.googleapis.com/token"
                           GEMINI_OAUTH_CLIENT_ID (Some GEMINI_OAUTH_CLIENT_SECRET)
                           (VStr "1//stored") [])
                    = inr (VObj [("refresh_token", VStr "1//stored")]))
    by (vm_compute; reflexivity).
  cbv zeta. rewrite Hresult.
  split; [vm_compute; reflexivity|]. split; [vm_compute; reflexivity|].
  split; [reflexivity|]. split; [vm_compute; discriminate|].
  intros credential [= <-]. split; vm_compute; reflexivity.
Qed.

(** A platform whose token endpoint refuses every request. *)
Definition denying : Platform :=
  {| env := env Sample.node;
     network := fun _ => inr {| ok := false; status := 401; text := "invalid_grant" |};
     JSON_parse := JSON_parse Sample.node;
     JSON_stringify := JSON_stringify Sample.node;
     ObjectToString := ObjectToString Sample.node;
     ObjectToNumber := ObjectToNumber Sample.node;
     now := now Sample.node;
     homedir := homedir Sample.node;
     path_join := path_join Sample.node;
     fs_fault := fs_fault Sample.node |}.

Lemma form_body_round_trip_witness :
  List.map (fun field => (decodeURIComponent (fst field), decodeURIComponent (snd field)))
    (form_fields
       (body (refresh_request Sample.node "https://chat.qwen.ai/api/v1/oauth2/token"
                "id" None (VStr "1//x&y=z %"))))
  = [("grant_type", "refresh_token"); ("refresh_token", "1//x&y=z %"); ("client_id", "id")].
Proof.
  apply (form_body_round_trip Sample.node (request_body "id" None (VStr "1//x&y=z %"))).
  discriminate.
Defined.

Lemma refreshToken_reports_status_and_body_witness :
  fst (refreshToken denying "qwen" (VStr "1//stored") [])
  = inl (mkError "Token refresh failed: 401 invalid_grant").
Proof.
  apply (refreshToken_reports_status_and_body denying "qwen" (VStr "1//stored") []
           {| ok := false; status := 401; text := "invalid_grant" |});
    [right; reflexivity | reflexivity | reflexivity].
Defined.

Lemma refreshToken_returns_input_token_only_witness :
  fst (refreshToken Sample.node "qwen" (VStr "1//stored") [])
  = inr (JSON_stringify Sample.node
           (VObj [("refresh_token", VStr "1//stored"); ("expires_at", VNaN)])).
Proof.
  apply (refreshToken_returns_input_token_only Sample.node "qwen" (VStr "1//stored") []
           {| ok := true; status := 200; text := Sample.response_text |});
    [right; reflexivity | reflexivity | reflexivity].
Defined.

End OAuth.

(** ** Credential setup: [getAgentConfig] and [setupConfig] of [index.ts] *)

Module Setup.

Import Node.
Local Open Scope js_scope.

Record AgentConfig := {
  configDir : string;
  settings : JsValue;
  tokenEnv : string;
  packageName : string;
  runCmd : string * list string
}.

Section WithPlatform.

Variable node : Platform.

Definition getAgentConfig (agent : string) : JsError + AgentConfig :=
  let home := homedir node in
  if String.eqb agent "gemini" then
    inr {| configDir := path_join node home ".gemini";
           settings :=
             VObj [("security",
                    VObj [("auth", VObj [("selectedType", VStr "oauth-personal")])])];
           tokenEnv := "PROMPTOPS_GEMINI_TOKEN";
           packageName := "@google/gemini-cli";
           runCmd := ("gemini", ["-y"]) |}
  else if String.eqb agent "qwen" then
    inr {| configDir := path_join node home ".qwen";
           settings :=
             VObj [("security",
                    VObj [("auth", VObj [("selectedType", VStr "qwen-oauth")])]);
                   ("$version", VNum 2)];
           tokenEnv := "PROMPTOPS_QWEN_TOKEN";
           packageName := "@qwen-code/qwen-code";
           runCmd := ("qwen", ["-y"]) |}
  else inl (mkError ("Unsupported agent: " ++ agent)).

Definition setupConfig (agent : string) (config : AgentConfig) : M unit :=
  match env node (tokenEnv config) with
  | Some (String c t) =>
      let token := String c t in
      tokenData <- lift (JSON_parse node token) ;;
      refresh_token <- lift (get_prop tokenData "refresh_token") ;;
      if is_undefined refresh_token then throw (mkError "Missing refresh token")
      else
        updatedToken <- (if String.eqb agent "gemini"
                         then OAuth.refreshToken node agent refresh_token
                         else ret token) ;;
        mkdirSync node (configDir config) ;;;
        writeFileSync node (path_join node (configDir config) "settings.json")
                      (JSON_stringify node (settings config)) ;;;
        writeFileSync node (path_join node (configDir config) "oauth_creds.json")
                      updatedToken ;;;
        emit (Info ("Config initialized in " ++ configDir config))
  | _ => throw (mkError ("Missing required secret: " ++ tokenEnv config))
  end.

(** *** Observations *)

Definition is_fetch (e : Effect) : bool :=
  match e with Fetch _ => true | _ => false end.

(** The effects of a setup that writes [credential] to the credential
    file. *)
Definition setup_writes (config : AgentConfig) (credential : string) : list Effect :=
  [Mkdir (configDir config);
   WriteFile (path_join node (configDir config) "settings.json")
             (JSON_stringify node (settings config));
   WriteFile (path_join node (configDir config) "oauth_creds.json") credential;
   Info ("Config initialized in " ++ configDir config)].

(** The stored credential is there, parses, and has a refresh token. *)
Definition stored (config : AgentConfig) (token : string) (refresh_token : JsValue) : Prop :=
  env node (tokenEnv config) = Some token
  /\ token <> EmptyString
  /\ exists tokenData,
       JSON_parse node token = inr tokenData
       /\ get_prop tokenData "refresh_token" = inr refresh_token
       /\ is_undefined refresh_token = false.

(** The file-system part of [setupConfig], from an empty trace: it does a
    prefix of [setup_writes], all of it when no call fails. *)
Definition write_files (config : AgentConfig) (updatedToken : string) : M unit :=
  mkdirSync node (configDir config) ;;;
  writeFileSync node (path_join node (configDir config) "settings.json")
                (JSON_stringify node (settings config)) ;;;
  writeFileSync node (path_join node (configDir config) "oauth_creds.json")
                updatedToken ;;;
  emit (Info ("Config initialized in " ++ configDir config)).

Lemma write_files_prefix config updatedToken :
  exists k, snd (write_files config updatedToken [])
            = firstn k (setup_writes config updatedToken).
Proof.
  unfold write_files, bind, mkdirSync, writeFileSync, emit, throw.
  destruct (fs_fault node (configDir config)); [exists 0; reflexivity|].
  cbn [List.app].
  destruct (fs_fault node (path_join node (configDir config) "settings.json"));
    [exists 1; reflexivity|].
  cbn [List.app].
  destruct (fs_fault node (path_join node (configDir config) "oauth_creds.json"));
    [exists 2; reflexivity|].
  exists 4. reflexivity.
Qed.

Lemma write_files_all config updatedToken :
  (forall path, fs_fault node path = None) ->
  write_files config updatedToken [] = (inr tt, setup_writes config updatedToken).
Proof.
  intros Hfs. unfold write_files, bind, mkdirSync, writeFileSync, emit.
  rewrite !Hfs. reflexivity.
Qed.

Lemma write_files_extends config updatedToken tr :
  exists rest, snd (write_files config updatedToken tr) = (tr ++ rest)%list.
Proof.
  unfold write_files, bind, mkdirSync, writeFileSync, emit, throw.
  destruct (fs_fault node (configDir config));
    [exists []; rewrite app_nil_r; reflexivity|].
  destruct (fs_fault node (path_join node (configDir config) "settings.json"));
    [eexists; reflexivity|].
  destruct (fs_fault node (path_join node (configDir config) "oauth_creds.json")).
  - eexists. cbn [snd]. rewrite <- app_assoc. reflexivity.
  - eexists. cbn [snd]. rewrite <- !app_assoc. reflexivity.
Qed.

Lemma setup_writes_no_fetch config credential k :
  filter is_fetch (firstn k (setup_writes config credential)) = [].
Proof. do 5 (destruct k as [|k]; [reflexivity|]). reflexivity. Qed.

Lemma setupConfig_unfold agent config :
  setupConfig agent config
  = match env node (tokenEnv config) with
    | Some (String c t) =>
        tokenData <- lift (JSON_parse node (String c t)) ;;
        refresh_token <- lift (get_prop tokenData "refresh_token") ;;
        if is_undefined refresh_token then throw (mkError "Missing refresh token")
        else
          updatedToken <- (if String.eqb agent "gemini"
                           then OAuth.refreshToken node agent refresh_token
                           else ret (String c t)) ;;
          write_files config updatedToken
    | _ => throw (mkError ("Missing required secret: " ++ tokenEnv config))
    end.
Proof. reflexivity. Qed.

(** The credential string that the environment holds for the agent. *)
Definition original (config : AgentConfig) : string :=
  match env node (tokenEnv config) with
  | Some token => token
  | None => EmptyString
  end.

Definition gemini_request (refresh_token : JsValue) : Request :=
  OAuth.refresh_request node "https://oauth2.googleapis.com/token"
    OAuth.GEMINI_OAUTH_CLIENT_ID (Some OAuth.GEMINI_OAUTH_CLIENT_SECRET) refresh_token.

(** The file-system part goes on from any trace as it does from the empty
    one. *)
Lemma write_files_appends config updatedToken tr :
  write_files config updatedToken tr
  = (fst (write_files config updatedToken []),
     (tr ++ snd (write_files config updatedToken []))%list).
Proof.
  unfold write_files, bind, mkdirSync, writeFileSync, emit, throw.
  destruct (fs_fault node (configDir config));
    [cbn [fst snd]; rewrite app_nil_r; reflexivity|].
  destruct (fs_fault node (path_join node (configDir config) "settings.json"));
    [reflexivity|].
  destruct (fs_fault node (path_join node (configDir config) "oauth_creds.json"));
    cbn [fst snd List.app]; rewrite <- !app_assoc; reflexivity.
Qed.

(** With a stored credential, the setup for 'gemini' is the refresh
    followed by the file-system part. *)
Lemma gemini_setup_unfold config token refresh_token tr :
  stored config token refresh_token ->
  setupConfig "gemini" config tr
  = match OAuth.refreshToken node "gemini" refresh_token tr with
    | (inr updatedToken, tr') => write_files config updatedToken tr'
    | (inl err, tr') => (inl err, tr')
    end.
Proof.
  intros (Henv & Hne & tokenData & Hparse & Hget & Hdef).
  destruct token as [|c t]; [congruence|].
  rewrite setupConfig_unfold, Henv. unfold bind, lift.
  rewrite Hparse, Hget, Hdef. reflexivity.
Qed.

(** The refresh for 'gemini' is one request; it gives a text exactly when
    the answer has a success status. *)
Lemma gemini_refresh_cases refresh_token :
  let request := gemini_request refresh_token in
  let refreshed := OAuth.refreshToken node "gemini" refresh_token [] in
  snd refreshed = [Fetch request]
  /\ (forall err, network node request = inl err -> fst refreshed = inl err)
  /\ (forall res, network node request = inr res -> ok res = false ->
        fst refreshed
        = inl (mkError ("Token refresh failed: " ++ JS.string_of_Z (status res)
                        ++ " " ++ text res)))
  /\ (forall res, network node request = inr res -> ok res = true ->
        exists updatedToken, fst refreshed = inr updatedToken).
Proof.
  cbv zeta. unfold OAuth.refreshToken. cbn [String.eqb Ascii.eqb Bool.eqb].
  unfold OAuth.refreshGeminiToken, OAuth.refreshOAuthToken, bind, fetch, throw, ret.
  fold (gemini_request refresh_token). cbn [List.app].
  destruct (network node (gemini_request refresh_token)) as [err|res].
  - split; [reflexivity|]. split; [intros e [= <-]; reflexivity|].
    split; intros res H; discriminate H.
  - destruct (ok res) eqn:Hok; cbn [negb fst snd].
    + split; [reflexivity|]. split; [intros e H; discriminate H|].
      split; [intros r [= <-] H; congruence|].
      intros r _ _. eexists. reflexivity.
    + split; [reflexivity|]. split; [intros e H; discriminate H|].
      split; [intros r [= <-] _; reflexivity|].
      intros r [= <-] H. congruence.
Qed.

(** *** Properties of the specification *)

(** C9, as amended.  For an agent other than 'gemini', [setupConfig] sends
    no request to any token endpoint, and what it does is a prefix of:
    make the directory, write the settings, write the ORIGINAL credential
    string to the credential file, log; all of it when the stored
    credential has a refresh token and the file system does not fail.
    For 'gemini' with such a credential the exchange is made: the refresh
    request for the stored refresh token is sent, once and before
    anything else.  When the exchange fails, by a network error or by a
    status that is not a success, the setup fails with its error and
    writes nothing.  When it succeeds, the text that the refresh returned
    is what goes to the credential file, after the directory and the
    settings, all of it when the file system does not fail.  What that
    text holds is a matter of the refresh code, not of the setup. *)
Theorem setup_exchanges_only_gemini agent config :
  let tr := snd (setupConfig agent config []) in
  (agent <> "gemini" ->
     filter is_fetch tr = []
     /\ exists k, tr = firstn k (setup_writes config (original config)))
  /\ (forall token refresh_token,
        stored config token refresh_token ->
        (agent <> "gemini" ->
           (forall path, fs_fault node path = None) ->
           setupConfig agent config [] = (inr tt, setup_writes config token))
        /\ (agent = "gemini" ->
            let request := gemini_request refresh_token in
            let refreshed := OAuth.refreshToken node "gemini" refresh_token [] in
            snd refreshed = [Fetch request]
            /\ (forall err, network node request = inl err -> fst refreshed = inl err)
            /\ (forall res, network node request = inr res -> ok res = false ->
                  fst refreshed
                  = inl (mkError ("Token refresh failed: " ++ JS.string_of_Z (status res)
                                  ++ " " ++ text res)))
            /\ (forall res, network node request = inr res -> ok res = true ->
                  exists updatedToken, fst refreshed = inr updatedToken)
            /\ match fst refreshed with
               | inl err => setupConfig agent config [] = (inl err, [Fetch request])
               | inr updatedToken =>
                   (exists k, tr = Fetch request
                                   :: firstn k (setup_writes config updatedToken))
                   /\ ((forall path, fs_fault node path = None) ->
                       setupConfig agent config []
                       = (inr tt, Fetch request :: setup_writes config updatedToken))
               end)).
Proof.
  intros tr. split.
  - intros Hagent. apply String.eqb_neq in Hagent.
    assert (Hk : exists k, tr = firstn k (setup_writes config (original config))).
    { unfold tr, original. rewrite setupConfig_unfold.
      destruct (env node (tokenEnv config)) as [[|c t]|];
        try (exists 0; reflexivity).
      unfold bind, lift, throw.
      destruct (JSON_parse node (String c t)) as [err|tokenData];
        [exists 0; reflexivity|].
      destruct (get_prop tokenData "refresh_token") as [err|refresh_token];
        [exists 0; reflexivity|].
      destruct (is_undefined refresh_token); [exists 0; reflexivity|].
      rewrite Hagent. unfold ret. apply write_files_prefix. }
    destruct Hk as [k Hk]. split; [|exists k; exact Hk].
    rewrite Hk. apply setup_writes_no_fetch.
  - intros token refresh_token Hstored. split.
    + destruct Hstored as (Henv & Hne & tokenData & Hparse & Hget & Hdef).
      destruct token as [|c t]; [congruence|].
      intros Hagent Hfs. apply String.eqb_neq in Hagent.
      rewrite setupConfig_unfold, Henv. unfold bind, lift.
      rewrite Hparse, Hget, Hdef, Hagent. unfold ret.
      apply write_files_all, Hfs.
    + intros Hagent request refreshed. unfold tr. subst agent.
      destruct (gemini_refresh_cases refresh_token) as (Htrace & Herr & Hdenied & Hok).
      fold request refreshed in Htrace, Herr, Hdenied, Hok.
      split; [exact Htrace|]. split; [exact Herr|]. split; [exact Hdenied|].
      split; [exact Hok|].
      rewrite (gemini_setup_unfold config token refresh_token [] Hstored).
      fold refreshed. destruct refreshed as [[err|updatedToken] tr']; cbn [fst snd] in *.
      * subst tr'. reflexivity.
      * subst tr'. rewrite write_files_appends. cbn [snd List.app]. split.
        -- destruct (write_files_prefix config updatedToken) as [k Hk].
           exists k. rewrite Hk. reflexivity.
        -- intros Hfs. rewrite (write_files_all config updatedToken Hfs). reflexivity.
Qed.


(** *** Further properties of [setupConfig] *)

Lemma write_files_from config updatedToken tr :
  (forall path, fs_fault node path = None) ->
  write_files config updatedToken tr
  = (inr tt, (tr ++ setup_writes config updatedToken)%list).
Proof.
  intros Hfs. unfold write_files, bind, mkdirSync, writeFileSync, emit.
  rewrite !Hfs. unfold setup_writes. rewrite <- !app_assoc. reflexivity.
Qed.

(** X14.  Without a usable stored credential [setupConfig] fails before it
    does anything: no request, no directory, no file.  A missing or empty
    environment variable is reported by its name, a credential object
    without [refresh_token] as a missing refresh token. *)
Theorem setup_without_credential_does_nothing agent config tr :
  ((forall token refresh_token, ~ stored config token refresh_token) ->
     exists err, setupConfig agent config tr = (inl err, tr))
  /\ (JS.truthy (env node (tokenEnv config)) = false ->
      setupConfig agent config tr
      = (inl (mkError ("Missing required secret: " ++ tokenEnv config)), tr))
  /\ (forall token props,
        env node (tokenEnv config) = Some token -> token <> EmptyString ->
        JSON_parse node token = inr (VObj props) ->
        lookup "refresh_token" props = None ->
        setupConfig agent config tr = (inl (mkError "Missing refresh token"), tr)).
Proof.
  rewrite setupConfig_unfold. split; [|split].
  - intros Hno. destruct (env node (tokenEnv config)) as [[|c t]|] eqn:Henv;
      try (eexists; reflexivity).
    unfold bind, lift, throw.
    destruct (JSON_parse node (String c t)) as [err|tokenData] eqn:Hparse;
      [eexists; reflexivity|].
    destruct (get_prop tokenData "refresh_token") as [err|refresh_token] eqn:Hget;
      [eexists; reflexivity|].
    destruct (is_undefined refresh_token) eqn:Hdef; [eexists; reflexivity|].
    exfalso. apply (Hno (String c t) refresh_token).
    split; [exact Henv|]. split; [discriminate|]. exists tokenData. auto.
  - destruct (env node (tokenEnv config)) as [[|c t]|]; simpl;
      intros H; try discriminate H; reflexivity.
  - intros token props Henv Hne Hparse Hlook. rewrite Henv.
    destruct token as [|c t]; [congruence|].
    unfold bind, lift, throw. rewrite Hparse. cbn [get_prop]. rewrite Hlook.
    reflexivity.
Qed.

(** X15.  When the refresh for 'gemini' fails, by a network error or by a
    status that is not a success, [setupConfig] fails after that one
    request and leaves the file system alone: the stored credential file
    is not overwritten. *)
Theorem failed_refresh_writes_nothing config token refresh_token tr :
  stored config token refresh_token ->
  (forall res, network node (gemini_request refresh_token) = inr res -> ok res = false) ->
  exists err,
    setupConfig "gemini" config tr
    = (inl err, (tr ++ [Fetch (gemini_request refresh_token)])%list).
Proof.
  intros (Henv & Hne & tokenData & Hparse & Hget & Hdef) Hfail.
  destruct token as [|c t]; [congruence|].
  rewrite setupConfig_unfold, Henv. unfold bind, lift.
  rewrite Hparse, Hget, Hdef. cbn [String.eqb Ascii.eqb Bool.eqb].
  unfold OAuth.refreshToken. cbn [String.eqb Ascii.eqb Bool.eqb].
  unfold OAuth.refreshGeminiToken, OAuth.refreshOAuthToken, bind, fetch, throw, ret.
  fold (gemini_request refresh_token).
  destruct (network node (gemini_request refresh_token)) as [err|res] eqn:Hnet;
    [eexists; reflexivity|].
  rewrite (Hfail res eq_refl). cbn [negb]. eexists. reflexivity.
Qed.

(** X16.  When the refresh for 'gemini' succeeds and the file system does
    not fail, [setupConfig] sends the one request and then writes the
    settings and the credential file; the credential written is the text
    of an object that holds the stored refresh token and nothing of the
    answer. *)
Theorem gemini_setup_writes_refresh_token_only config token refresh_token res tr :
  stored config token refresh_token ->
  network node (gemini_request refresh_token) = inr res ->
  ok res = true ->
  (forall path, fs_fault node path = None) ->
  setupConfig "gemini" config tr
  = (inr tt,
     (tr ++ Fetch (gemini_request refresh_token)
         :: setup_writes config
              (JSON_stringify node (VObj [("refresh_token", refresh_token)])))%list).
Proof.
  intros (Henv & Hne & tokenData & Hparse & Hget & Hdef) Hnet Hok Hfs.
  destruct token as [|c t]; [congruence|].
  rewrite setupConfig_unfold, Henv. unfold bind, lift.
  rewrite Hparse, Hget, Hdef. cbn [String.eqb Ascii.eqb Bool.eqb].
  unfold OAuth.refreshToken. cbn [String.eqb Ascii.eqb Bool.eqb].
  unfold OAuth.refreshGeminiToken, OAuth.refreshOAuthToken, bind, fetch, throw, ret.
  fold (gemini_request refresh_token). rewrite Hnet, Hok. cbn [negb].
  unfold OAuth.json. destruct (JSON_parse node (text res));
    cbn [own_enumerable List.app]; rewrite write_files_from by exact Hfs;
    rewrite <- app_assoc; reflexivity.
Qed.

End WithPlatform.

Definition qwen_config : AgentConfig :=
  {| configDir := "/home/runner/.qwen";
     settings :=
       VObj [("security", VObj [("auth", VObj [("selectedType", VStr "qwen-oauth")])]);
             ("$version", VNum 2)];
     tokenEnv := "PROMPTOPS_QWEN_TOKEN";
     packageName := "@qwen-code/qwen-code";
     runCmd := ("qwen", ["-y"]) |}.

Example sample_qwen_config : getAgentConfig OAuth.Sample.node "qwen" = inr qwen_config.
Proof. reflexivity. Qed.

Example sample_gemini_setup :
  exists config rest,
    getAgentConfig OAuth.Sample.node "gemini" = inr config
    /\ setupConfig OAuth.Sample.node "gemini" config []
       = (inr tt,
          Fetch (gemini_request OAuth.Sample.node (VStr "1//stored"))
          :: Mkdir "/home/runner/.gemini" :: rest).
Proof. do 2 eexists. split; vm_compute; reflexivity. Qed.

Lemma stored_sample (config : AgentConfig) :
  tokenEnv config = "PROMPTOPS_GEMINI_TOKEN" ->
  stored OAuth.Sample.node config OAuth.Sample.stored_text (VStr "1//stored").
Proof.
  intros H. unfold stored. rewrite H. split; [reflexivity|].
  split; [vm_compute; discriminate|].
  exists OAuth.Sample.stored_value. repeat split; vm_compute; reflexivity.
Qed.

Definition gemini_config : AgentConfig :=
  {| configDir := "/home/runner/.gemini";
     settings :=
       VObj [("security", VObj [("auth", VObj [("selectedType", VStr "oauth-personal")])])];
     tokenEnv := "PROMPTOPS_GEMINI_TOKEN";
     packageName := "@google/gemini-cli";
     runCmd := ("gemini", ["-y"]) |}.

Lemma setup_exchanges_only_gemini_witness :
  setupConfig OAuth.Sample.node "qwen" qwen_config []
  = (inr tt,
     [Mkdir "/home/runner/.qwen";
      WriteFile "/home/runner/.qwen/settings.json"
                (JSON_stringify OAuth.Sample.node (settings qwen_config));
      WriteFile "/home/runner/.qwen/oauth_creds.json" OAuth.Sample.stored_text;
      Info "Config initialized in /home/runner/.qwen"])
  /\ filter is_fetch (snd (setupConfig OAuth.Sample.node "gemini" gemini_config []))
     = [Fetch (gemini_request OAuth.Sample.node (VStr "1//stored"))]
  /\ snd (setupConfig OAuth.denying "gemini" gemini_config [])
     = [Fetch (gemini_request OAuth.denying (VStr "1//stored"))].
Proof.
  split; [|split].
  - destruct (setup_exchanges_only_gemini OAuth.Sample.node "qwen" qwen_config) as [_ H].
    destruct (H OAuth.Sample.stored_text (VStr "1//stored")) as [Hq _].
    + split; [reflexivity|]. split; [vm_compute; discriminate|].
      exists OAuth.Sample.stored_value. repeat split; vm_compute; reflexivity.
    + apply Hq; [discriminate | reflexivity].
  - destruct (setup_exchanges_only_gemini OAuth.Sample.node "gemini" gemini_config)
      as [_ H].
    destruct (H OAuth.Sample.stored_text (VStr "1//stored")
                (stored_sample gemini_config eq_refl)) as [_ Hg].
    destruct (Hg eq_refl) as (_ & _ & _ & _ & Hrun).
    cbv zeta in Hrun.
    destruct (fst (OAuth.refreshToken OAuth.Sample.node "gemini" (VStr "1//stored") []))
      as [err|updatedToken] eqn:E; [vm_compute in E; discriminate E|].
    destruct Hrun as [_ Hrun]. rewrite (Hrun (fun _ => eq_refl)). reflexivity.
  - destruct (setup_exchanges_only_gemini OAuth.denying "gemini" gemini_config)
      as [_ H].
    destruct (H OAuth.Sample.stored_text (VStr "1//stored")
                (stored_sample gemini_config eq_refl)) as [_ Hg].
    destruct (Hg eq_refl) as (_ & _ & _ & _ & Hrun).
    cbv zeta in Hrun.
    destruct (fst (OAuth.refreshToken OAuth.denying "gemini" (VStr "1//stored") []))
      as [err|updatedToken] eqn:E; [|vm_compute in E; discriminate E].
    rewrite Hrun. reflexivity.
Defined.

(** C9, as stated, fails for 'gemini': the exchange is made, but no new
    credential comes of it.  The token endpoint answers with a new access
    token and a rotated refresh token, and the credential file gets the
    text of an object that holds the stored refresh token and nothing
    else. *)
Lemma gemini_credential_is_not_renewed :
  let written :=
    JSON_stringify OAuth.Sample.node (VObj [("refresh_token", VStr "1//stored")]) in
  network OAuth.Sample.node (gemini_request OAuth.Sample.node (VStr "1//stored"))
  = inr {| ok := true; status := 200; text := OAuth.Sample.response_text |}
  /\ JSON_parse OAuth.Sample.node OAuth.Sample.response_text
     = inr OAuth.Sample.response_value
  /\ get_prop OAuth.Sample.response_value "access_token" = inr (VStr "ya29.fresh")
  /\ setupConfig OAuth.Sample.node "gemini" gemini_config []
     = (inr tt,
        Fetch (gemini_request OAuth.Sample.node (VStr "1//stored"))
        :: setup_writes OAuth.Sample.node gemini_config written)
  /\ written
     <> JSON_stringify OAuth.Sample.node
          (OAuth.merged_credential (VStr "1//stored") OAuth.Sample.response_value)
  /\ written <> JSON_stringify OAuth.Sample.node OAuth.Sample.response_value.
Proof.
  cbv zeta. split; [reflexivity|]. split; [vm_compute; reflexivity|].
  split; [vm_compute; reflexivity|]. split; [vm_compute; reflexivity|].
  split; vm_compute; discriminate.
Qed.

Lemma setup_without_credential_does_nothing_witness :
  setupConfig OAuth.Sample.node "qwen"
    {| configDir := "/tmp/x"; settings := VNull; tokenEnv := "PROMPTOPS_OTHER_TOKEN";
       packageName := "x"; runCmd := ("x", []) |} []
  = (inl (mkError "Missing required secret: PROMPTOPS_OTHER_TOKEN"), []).
Proof.
  destruct (setup_without_credential_does_nothing OAuth.Sample.node "qwen"
              {| configDir := "/tmp/x"; settings := VNull;
                 tokenEnv := "PROMPTOPS_OTHER_TOKEN";
                 packageName := "x"; runCmd := ("x", []) |} []) as (_ & H & _).
  apply H. reflexivity.
Defined.

Lemma failed_refresh_writes_nothing_witness :
  exists err,
    setupConfig OAuth.denying "gemini" gemini_config []
    = (inl err, [Fetch (gemini_request OAuth.denying (VStr "1//stored"))]).
Proof.
  apply (failed_refresh_writes_nothing OAuth.denying gemini_config
           OAuth.Sample.stored_text (VStr "1//stored") []).
  - exact (stored_sample gemini_config eq_refl).
  - intros res [= <-]. reflexivity.
Defined.

Lemma gemini_setup_writes_refresh_token_only_witness :
  setupConfig OAuth.Sample.node "gemini" gemini_config []
  = (inr tt,
     Fetch (gemini_request OAuth.Sample.node (VStr "1//stored"))
     :: setup_writes OAuth.Sample.node gemini_config
          (JSON_stringify OAuth.Sample.node (VObj [("refresh_token", VStr "1//stored")]))).
Proof.
  apply (gemini_setup_writes_refresh_token_only OAuth.Sample.node gemini_config
           OAuth.Sample.stored_text (VStr "1//stored")
           {| ok := true; status := 200; text := OAuth.Sample.response_text |} []).
  - exact (stored_sample gemini_config eq_refl).
  - reflexivity.
  - reflexivity.
  - reflexivity.
Defined.

End Setup.

(** ** The steps that drive external commands: [installAgent], [runAgent],
    [setupGit], [prepareBranch], [commitChanges], [push] and
    [createPullRequest] of [index.ts] *)

Module Steps.

(** One call of [runCommand]. *)
Record Invocation := {
  command : string;
  args : list string;
  options : Runner.Options
}.

(** What a step leaves behind, in program order: a finished
    [runCommand] call with the effects of its run, or a log line. *)
Inductive Step :=
| Ran (inv : Invocation) (effects : list Runner.Effect)
| CoreInfo (msg : string)
| CoreWarning (msg : string)
| ConsoleLog (line : string).

(** An awaited computation returns, throws, or waits for ever on a
    promise that never settles. *)
Inductive Result (A : Type) :=
| Returned (a : A)
| Threw (err : JsError)
| Pending.

Arguments Returned {A} a.
Arguments Threw {A} err.
Arguments Pending {A}.

Definition M (A : Type) : Type := list Step -> Result A * list Step.

Definition ret {A} (a : A) : M A := fun tr => (Returned a, tr).

Definition throw {A} (err : JsError) : M A := fun tr => (Threw err, tr).

Definition bind {A B} (c : M A) (k : A -> M B) : M B :=
  fun tr =>
    match c tr with
    | (Returned a, tr') => k a tr'
    | (Threw err, tr') => (Threw err, tr')
    | (Pending, tr') => (Pending, tr')
    end.

(** [try { c } catch (err) { handler }] *)
Definition try_catch {A} (c : M A) (handler : JsError -> M A) : M A :=
  fun tr =>
    match c tr with
    | (Threw err, tr') => handler err tr'
    | other => other
    end.

Definition emit (step : Step) : M unit := fun tr => (Returned tt, (tr ++ [step])%list).

Declare Scope steps_scope.
Delimit Scope steps_scope with steps.
Notation "x <- c ;; k" := (bind c (fun x => k))
  (at level 61, c at next level, right associativity) : steps_scope.
Notation "c ;;; k" := (bind c (fun _ => k))
  (at level 61, right associativity) : steps_scope.
Local Open Scope steps_scope.

Fixpoint invocations (tr : list Step) : list Invocation :=
  match tr with
  | [] => []
  | Ran inv _ :: rest => inv :: invocations rest
  | _ :: rest => invocations rest
  end.

(** *** The pull-request URL

    [/https:\/\/github\.com\/[^\/]+\/[^\/]+\/pull\/\d+/]: a run of
    characters other than the slash cannot be cut short and still be
    followed by a slash, so the greedy match of each [+] is the only
    one. *)

(** The longest prefix whose characters satisfy [p], and what follows. *)
Fixpoint span (p : ascii -> bool) (s : string) : string * string :=
  match s with
  | EmptyString => (EmptyString, EmptyString)
  | String c rest =>
      if p c then let (taken, left) := span p rest in (String c taken, left)
      else (EmptyString, s)
  end.

Fixpoint strip_prefix (pre s : string) : option string :=
  match pre, s with
  | EmptyString, _ => Some s
  | String a pre', String b s' => if Ascii.eqb a b then strip_prefix pre' s' else None
  | String _ _, EmptyString => None
  end.

Definition not_slash (c : ascii) : bool := negb (Ascii.eqb c "/").
Definition is_digit (c : ascii) : bool := JS.in_range 48 57 c.

Definition is_empty (s : string) : bool :=
  match s with EmptyString => true | _ => false end.

(** A match that starts at the first character. *)
Definition match_here (s : string) : option string :=
  match strip_prefix "https://github.com/" s with
  | None => None
  | Some s1 =>
      let (owner, s2) := span not_slash s1 in
      if is_empty owner then None
      else match strip_prefix "/" s2 with
           | None => None
           | Some s3 =>
               let (repo, s4) := span not_slash s3 in
               if is_empty repo then None
               else match strip_prefix "/pull/" s4 with
                    | None => None
                    | Some s5 =>
                        let (number, _) := span is_digit s5 in
                        if is_empty number then None
                        else Some ("https://github.com/" ++ owner ++ "/" ++ repo
                                   ++ "/pull/" ++ number)
                    end
           end
  end.

(** [output.match(...)]: the leftmost match, [match[0]]. *)
Fixpoint match_pr_url (output : string) : option string :=
  match match_here output with
  | Some url => Some url
  | None =>
      match output with
      | EmptyString => None
      | String _ rest => match_pr_url rest
      end
  end.

Section WithChildren.

(** What the child of an invocation delivers, given the invocations
    before it. *)
Variable child : list Invocation -> Invocation -> list Runner.ChildEvent.

(** [await runCommand(command, args, options)] *)
Definition runCommand (command : string) (args : list string)
    (options : Runner.Options) : M string :=
  fun tr =>
    let inv := {| command := command; args := args; options := options |} in
    let st := Runner.runCommand command args options (child (invocations tr) inv) in
    (match Runner.promise st with
     | Some (Runner.Resolved result) => Returned result
     | Some (Runner.Rejected err) => Threw err
     | None => Pending
     end,
     (tr ++ [Ran inv (Runner.effects st)])%list).

Definition no_options : Runner.Options :=
  {| Runner.stdin := None; Runner.hideError := None |}.

Definition installAgent (agent : string) (config : Setup.AgentConfig) : M unit :=
  let packageName := Setup.packageName config in
  emit (CoreInfo ("Checking if " ++ agent ++ " CLI is installed...")) ;;;
  installedVersion <-
    try_catch
      (version <- runCommand agent ["--version"]
                    {| Runner.stdin := None; Runner.hideError := Some true |} ;;
       emit (CoreInfo (agent ++ " installed version: " ++ JS.trim version)) ;;;
       ret (JS.trim version))
      (fun _ => emit (CoreInfo (agent ++ " CLI not found locally")) ;;; ret "") ;;
  latestVersion <-
    try_catch
      (version <- runCommand "npm" ["view"; packageName; "version"] no_options ;;
       emit (CoreInfo (agent ++ " latest npm version: " ++ JS.trim version)) ;;;
       ret (JS.trim version))
      (fun err =>
         emit (CoreWarning ("Failed to get latest npm version for " ++ agent ++ ": "
                            ++ message err)) ;;;
         ret "") ;;
  if is_empty installedVersion then
    emit (CoreInfo (agent ++ " CLI not installed. Installing...")) ;;;
    runCommand "npm" ["install"; "-g"; packageName] no_options ;;;
    ret tt
  else if negb (is_empty latestVersion) && negb (String.eqb installedVersion latestVersion) then
    emit (CoreInfo (agent ++ " CLI is outdated (installed: " ++ installedVersion
                    ++ ", latest: " ++ latestVersion ++ "). Updating...")) ;;;
    runCommand "npm" ["install"; "-g"; packageName ++ "@" ++ latestVersion] no_options ;;;
    ret tt
  else
    emit (CoreInfo (agent ++ " CLI is up-to-date")).

Definition runAgent (config : Setup.AgentConfig) (prompt model : string) : M string :=
  let cmd := fst (Setup.runCmd config) in
  let args := snd (Setup.runCmd config) in
  let modelArgs :=
    if String.eqb model "" || String.eqb model "-" then [] else ["-m"; model] in
  runCommand cmd (args ++ modelArgs)
    {| Runner.stdin := Some prompt; Runner.hideError := None |}.

Definition setupGit : M unit :=
  runCommand "git" ["config"; "user.name"; "github-actions"] no_options ;;;
  runCommand "git" ["config"; "user.email"; "github-actions@github.com"] no_options ;;;
  ret tt.

Definition prepareBranch (branch : string) : M unit :=
  runCommand "git" ["checkout"; "-B"; branch] no_options ;;; ret tt.

Definition commitChanges (message : string) : M bool :=
  runCommand "git" ["add"; "."] no_options ;;;
  status <- runCommand "git" ["status"; "--porcelain"] no_options ;;
  if is_empty (JS.trim status) then
    emit (ConsoleLog "No changes detected, skipping commit") ;;; ret false
  else
    runCommand "git" ["commit"; "-m"; message] no_options ;;; ret true.

Definition push (branch : string) : M unit :=
  runCommand "git" ["push"; "-u"; "origin"; branch] no_options ;;; ret tt.

Definition createPullRequest (branch : string) : M string :=
  output <- runCommand "gh"
              ["pr"; "create"; "--title"; "PromptOps agent output";
               "--body"; "Automated PR generated by PromptOps";
               "--head"; branch; "--base"; "main"] no_options ;;
  match match_pr_url output with
  | None =>
      throw (mkError ("PR was created but URL could not be parsed from output:"
                      ++ String JS.LF output))
  | Some url => ret url
  end.


(** *** What the steps do *)

(** The settlement of an invocation after a given history. *)
Definition outcome (history : list Invocation) (inv : Invocation)
    : option Runner.Settlement :=
  Runner.promise (Runner.runCommand (command inv) (args inv) (options inv)
                    (child history inv)).

Definition run_effects (history : list Invocation) (inv : Invocation)
    : list Runner.Effect :=
  Runner.effects (Runner.runCommand (command inv) (args inv) (options inv)
                    (child history inv)).

Definition awaited (o : option Runner.Settlement) : Result string :=
  match o with
  | Some (Runner.Resolved result) => Returned result
  | Some (Runner.Rejected err) => Threw err
  | None => Pending
  end.

Definition resolved_text (o : option Runner.Settlement) : string :=
  match o with
  | Some (Runner.Resolved result) => result
  | _ => EmptyString
  end.

(** The result of a step that awaits the invocation and returns [a]. *)
Definition then_returns {A} (o : option Runner.Settlement) (a : A) : Result A :=
  match o with
  | Some (Runner.Resolved _) => Returned a
  | Some (Runner.Rejected err) => Threw err
  | None => Pending
  end.

Definition version_query (agent : string) : Invocation :=
  {| command := agent; args := ["--version"];
     options := {| Runner.stdin := None; Runner.hideError := Some true |} |}.

Definition latest_query (packageName : string) : Invocation :=
  {| command := "npm"; args := ["view"; packageName; "version"]; options := no_options |}.

Definition npm_install (target : string) : Invocation :=
  {| command := "npm"; args := ["install"; "-g"; target]; options := no_options |}.

Definition git (arguments : list string) : Invocation :=
  {| command := "git"; args := arguments; options := no_options |}.

Lemma runCommand_eq command_ args_ options_ tr :
  let inv := {| command := command_; args := args_; options := options_ |} in
  runCommand command_ args_ options_ tr
  = (awaited (outcome (invocations tr) inv),
     (tr ++ [Ran inv (run_effects (invocations tr) inv)])%list).
Proof. reflexivity. Qed.

Lemma invocations_app a b : invocations (a ++ b) = (invocations a ++ invocations b)%list.
Proof.
  induction a as [|step a IH]; [reflexivity|].
  destruct step; cbn [List.app invocations]; rewrite IH; reflexivity.
Qed.

Lemma outcome_trimmed history inv result :
  outcome history inv = Some (Runner.Resolved result) -> JS.trim result = result.
Proof. apply Runner.resolved_trim_stable. Qed.

(** The two queries of [installAgent]. *)
Definition query_installed (agent : string) : M string :=
  try_catch
    (version <- runCommand agent ["--version"]
                  {| Runner.stdin := None; Runner.hideError := Some true |} ;;
     emit (CoreInfo (agent ++ " installed version: " ++ JS.trim version)) ;;;
     ret (JS.trim version))
    (fun _ => emit (CoreInfo (agent ++ " CLI not found locally")) ;;; ret "").

Definition query_latest (agent packageName : string) : M string :=
  try_catch
    (version <- runCommand "npm" ["view"; packageName; "version"] no_options ;;
     emit (CoreInfo (agent ++ " latest npm version: " ++ JS.trim version)) ;;;
     ret (JS.trim version))
    (fun err =>
       emit (CoreWarning ("Failed to get latest npm version for " ++ agent ++ ": "
                          ++ message err)) ;;;
       ret "").

Lemma installAgent_unfold agent config :
  installAgent agent config
  = (emit (CoreInfo ("Checking if " ++ agent ++ " CLI is installed...")) ;;;
     installedVersion <- query_installed agent ;;
     latestVersion <- query_latest agent (Setup.packageName config) ;;
     if is_empty installedVersion then
       emit (CoreInfo (agent ++ " CLI not installed. Installing...")) ;;;
       runCommand "npm" ["install"; "-g"; Setup.packageName config] no_options ;;;
       ret tt
     else if negb (is_empty latestVersion)
             && negb (String.eqb installedVersion latestVersion) then
       emit (CoreInfo (agent ++ " CLI is outdated (installed: " ++ installedVersion
                       ++ ", latest: " ++ latestVersion ++ "). Updating...")) ;;;
       runCommand "npm" ["install"; "-g"; Setup.packageName config ++ "@" ++ latestVersion]
         no_options ;;;
       ret tt
     else
       emit (CoreInfo (agent ++ " CLI is up-to-date"))).
Proof. reflexivity. Qed.

Lemma query_installed_settled agent tr :
  outcome (invocations tr) (version_query agent) <> None ->
  exists tr',
    query_installed agent tr
    = (Returned (resolved_text (outcome (invocations tr) (version_query agent))), tr')
    /\ invocations tr' = (invocations tr ++ [version_query agent])%list.
Proof.
  intros Hset. unfold query_installed, try_catch, bind. rewrite runCommand_eq.
  fold (version_query agent).
  destruct (outcome (invocations tr) (version_query agent)) as [[v|err]|] eqn:Ho;
    [| |congruence]; cbn [awaited resolved_text].
  - rewrite (outcome_trimmed _ _ _ Ho). unfold emit, ret. eexists. split; [reflexivity|].
    rewrite !invocations_app. cbn. rewrite app_nil_r. reflexivity.
  - unfold emit, ret. eexists. split; [reflexivity|].
    rewrite !invocations_app. cbn. rewrite app_nil_r. reflexivity.
Qed.

Lemma query_latest_settled agent packageName tr :
  outcome (invocations tr) (latest_query packageName) <> None ->
  exists tr',
    query_latest agent packageName tr
    = (Returned (resolved_text (outcome (invocations tr) (latest_query packageName))), tr')
    /\ invocations tr' = (invocations tr ++ [latest_query packageName])%list.
Proof.
  intros Hset. unfold query_latest, try_catch, bind. rewrite runCommand_eq.
  fold (latest_query packageName).
  destruct (outcome (invocations tr) (latest_query packageName)) as [[v|err]|] eqn:Ho;
    [| |congruence]; cbn [awaited resolved_text].
  - rewrite (outcome_trimmed _ _ _ Ho). unfold emit, ret. eexists. split; [reflexivity|].
    rewrite !invocations_app. cbn. rewrite app_nil_r. reflexivity.
  - unfold emit, ret. eexists. split; [reflexivity|].
    rewrite !invocations_app. cbn. rewrite app_nil_r. reflexivity.
Qed.

Lemma install_step (target : string) tr :
  let run := (runCommand "npm" ["install"; "-g"; target] no_options ;;; ret tt) tr in
  invocations (snd run) = (invocations tr ++ [npm_install target])%list
  /\ fst run = then_returns (outcome (invocations tr) (npm_install target)) tt.
Proof.
  cbv zeta. unfold bind. rewrite runCommand_eq. fold (npm_install target).
  destruct (outcome (invocations tr) (npm_install target)) as [[v|err]|];
    cbn [awaited then_returns fst snd ret]; rewrite invocations_app; cbn;
    split; reflexivity.
Qed.

(** X17.  [installAgent] asks the agent for its version and npm for the
    latest one, in this order, and then, once both queries have settled:
    installs the package without a version when the first query failed
    or printed nothing; installs the package at the latest version when
    both printed a version and the two differ; runs nothing more when
    the versions agree or the latest one is unknown, and then returns
    normally.  The outcome of an install is the outcome of the call. *)
Theorem install_only_when_missing_or_outdated agent config tr :
  let h := invocations tr in
  let q1 := version_query agent in
  let q2 := latest_query (Setup.packageName config) in
  outcome h q1 <> None ->
  outcome (h ++ [q1])%list q2 <> None ->
  let installed := resolved_text (outcome h q1) in
  let latest := resolved_text (outcome (h ++ [q1])%list q2) in
  let run := installAgent agent config tr in
  (installed = EmptyString ->
     invocations (snd run)
     = (h ++ [q1; q2; npm_install (Setup.packageName config)])%list
     /\ fst run = then_returns (outcome (h ++ [q1; q2])%list
                                  (npm_install (Setup.packageName config))) tt)
  /\ (installed <> EmptyString -> latest <> EmptyString -> latest <> installed ->
      invocations (snd run)
      = (h ++ [q1; q2; npm_install (Setup.packageName config ++ "@" ++ latest)%string])%list
      /\ fst run = then_returns (outcome (h ++ [q1; q2])%list
                                   (npm_install (Setup.packageName config ++ "@" ++ latest)))
                                tt)
  /\ (installed <> EmptyString -> latest = EmptyString \/ latest = installed ->
      invocations (snd run) = (h ++ [q1; q2])%list /\ fst run = Returned tt).
Proof.
  intros h q1 q2 H1 H2 installed latest run.
  set (tr0 := (tr ++ [CoreInfo ("Checking if " ++ agent ++ " CLI is installed...")])%list).
  assert (Hh0 : invocations tr0 = h).
  { unfold tr0. rewrite invocations_app. cbn. apply app_nil_r. }
  destruct (query_installed_settled agent tr0) as (tr1 & Hq1 & Hi1);
    [rewrite Hh0; exact H1|].
  rewrite Hh0 in Hq1, Hi1. fold q1 in Hq1, Hi1. fold installed in Hq1.
  destruct (query_latest_settled agent (Setup.packageName config) tr1) as (tr2 & Hq2 & Hi2);
    [rewrite Hi1; exact H2|].
  rewrite Hi1 in Hq2, Hi2. fold q2 in Hq2, Hi2. fold latest in Hq2.
  assert (Hi2' : invocations tr2 = (h ++ [q1; q2])%list)
    by (rewrite Hi2, <- app_assoc; reflexivity).
  assert (Hrun : run
    = (if is_empty installed then
         emit (CoreInfo (agent ++ " CLI not installed. Installing...")) ;;;
         runCommand "npm" ["install"; "-g"; Setup.packageName config] no_options ;;;
         ret tt
       else if negb (is_empty latest) && negb (String.eqb installed latest) then
         emit (CoreInfo (agent ++ " CLI is outdated (installed: " ++ installed
                         ++ ", latest: " ++ latest ++ "). Updating...")) ;;;
         runCommand "npm" ["install"; "-g"; Setup.packageName config ++ "@" ++ latest]
           no_options ;;;
         ret tt
       else emit (CoreInfo (agent ++ " CLI is up-to-date"))) tr2).
  { unfold run. rewrite installAgent_unfold. unfold bind at 1. unfold emit at 1.
    fold tr0. unfold bind at 1. rewrite Hq1. unfold bind at 1. rewrite Hq2.
    reflexivity. }
  assert (Hinstall : forall target msg,
    let r := (emit (CoreInfo msg) ;;;
              runCommand "npm" ["install"; "-g"; target] no_options ;;; ret tt) tr2 in
    invocations (snd r) = (h ++ [q1; q2; npm_install target])%list
    /\ fst r = then_returns (outcome (h ++ [q1; q2])%list (npm_install target)) tt).
  { intros target msg. cbv zeta. unfold bind at 1. unfold emit at 1.
    destruct (install_step target (tr2 ++ [CoreInfo msg])%list) as [Hi Hr].
    rewrite invocations_app in Hi, Hr. cbn [invocations] in Hi, Hr.
    rewrite app_nil_r, Hi2' in Hi, Hr. rewrite <- app_assoc in Hi.
    split; [exact Hi | exact Hr]. }
  rewrite Hrun. split; [|split].
  - intros He. rewrite He. cbn [is_empty]. apply Hinstall.
  - intros Hne Hl Hdiff.
    destruct installed as [|c i] eqn:Ei; [congruence|]. cbn [is_empty].
    destruct latest as [|d l] eqn:El; [congruence|]. cbn [is_empty negb andb].
    assert (Hneq : String.eqb (String c i) (String d l) = false)
      by (apply String.eqb_neq; congruence).
    rewrite Hneq. cbn [negb]. apply Hinstall.
  - intros Hne Hsame.
    destruct installed as [|c i] eqn:Ei; [congruence|]. cbn [is_empty].
    assert (Hcond : negb (is_empty latest) && negb (String.eqb (String c i) latest) = false).
    { destruct Hsame as [-> | ->]; [reflexivity|].
      rewrite String.eqb_refl. apply andb_false_r. }
    rewrite Hcond. unfold emit. cbn [fst snd]. rewrite invocations_app. cbn.
    rewrite app_nil_r. auto.
Qed.


(** X18.  [commitChanges] stages everything and asks for the status; when
    the status is empty it returns false and never runs [git commit];
    otherwise it runs [git commit -m] with the message and returns true
    if that succeeds.  When [git add] fails nothing else is run and the
    error is passed on. *)
Theorem commit_only_when_tree_changed message tr :
  let h := invocations tr in
  let add := git ["add"; "."] in
  let status := git ["status"; "--porcelain"] in
  let commit := git ["commit"; "-m"; message] in
  let run := commitChanges message tr in
  (forall err, outcome h add = Some (Runner.Rejected err) ->
     fst run = Threw err /\ invocations (snd run) = (h ++ [add])%list)
  /\ (forall staged text,
        outcome h add = Some (Runner.Resolved staged) ->
        outcome (h ++ [add])%list status = Some (Runner.Resolved text) ->
        (text = EmptyString ->
           fst run = Returned false /\ invocations (snd run) = (h ++ [add; status])%list)
        /\ (text <> EmptyString ->
            fst run = then_returns (outcome (h ++ [add; status])%list commit) true
            /\ invocations (snd run) = (h ++ [add; status; commit])%list)).
Proof.
  intros h add status commit run.
  assert (Hi1 : invocations (tr ++ [Ran add (run_effects h add)])
                = (h ++ [add])%list)
    by (rewrite invocations_app; reflexivity).
  assert (Hi2 : invocations ((tr ++ [Ran add (run_effects h add)])
                             ++ [Ran status (run_effects (h ++ [add]) status)])
                = (h ++ [add; status])%list)
    by (rewrite invocations_app, Hi1, <- app_assoc; reflexivity).
  split.
  - intros err He.
    assert (Hrun : run = (Threw err, (tr ++ [Ran add (run_effects h add)])%list)).
    { unfold run, commitChanges, bind. rewrite runCommand_eq. cbv zeta.
      fold (git ["add"; "."]). fold add. fold h. rewrite He. reflexivity. }
    rewrite Hrun. cbn [fst snd]. auto.
  - intros staged text Ha Hs. split.
    + intros ->.
      assert (Hrun : run
        = (Returned false,
           (((tr ++ [Ran add (run_effects h add)])
             ++ [Ran status (run_effects (h ++ [add]) status)])
            ++ [ConsoleLog "No changes detected, skipping commit"])%list)).
      { unfold run, commitChanges, bind. rewrite runCommand_eq. cbv zeta.
        fold (git ["add"; "."]). fold add. fold h. rewrite Ha. cbn [awaited].
        rewrite runCommand_eq. cbv zeta. fold (git ["status"; "--porcelain"]).
        fold status. rewrite Hi1, Hs. reflexivity. }
      rewrite Hrun. cbn [fst snd]. rewrite invocations_app, Hi2. cbn.
      rewrite app_nil_r. auto.
    + intros Hne.
      assert (Hrun : run
        = (then_returns (outcome (h ++ [add; status]) commit) true,
           (((tr ++ [Ran add (run_effects h add)])
             ++ [Ran status (run_effects (h ++ [add]) status)])
            ++ [Ran commit (run_effects (h ++ [add; status]) commit)])%list)).
      { unfold run, commitChanges, bind. rewrite runCommand_eq. cbv zeta.
        fold (git ["add"; "."]). fold add. fold h. rewrite Ha. cbn [awaited].
        rewrite runCommand_eq. cbv zeta. fold (git ["status"; "--porcelain"]).
        fold status. rewrite Hi1, Hs. cbn [awaited].
        rewrite (outcome_trimmed _ _ _ Hs).
        destruct text as [|c t]; [congruence|]. cbn [is_empty].
        rewrite runCommand_eq. cbv zeta. fold (git ["commit"; "-m"; message]).
        fold commit. rewrite Hi2.
        destruct (outcome (h ++ [add; status]) commit) as [[v|err]|]; reflexivity. }
      rewrite Hrun. cbn [fst snd]. rewrite invocations_app, Hi2. cbn.
      rewrite <- app_assoc. auto.
Qed.

(** *** The URL matcher *)

Definition starts_without (p : ascii -> bool) (s : string) : Prop :=
  match s with
  | EmptyString => True
  | String c _ => p c = false
  end.

(** The shape that the pattern describes. *)
Definition pr_url (url owner repo number : string) : Prop :=
  url = "https://github.com/" ++ owner ++ "/" ++ repo ++ "/pull/" ++ number
  /\ owner <> EmptyString /\ Str.all not_slash owner = true
  /\ repo <> EmptyString /\ Str.all not_slash repo = true
  /\ number <> EmptyString /\ Str.all is_digit number = true.

Lemma span_spec p s :
  s = fst (span p s) ++ snd (span p s)
  /\ Str.all p (fst (span p s)) = true
  /\ starts_without p (snd (span p s)).
Proof.
  induction s as [|c s (IH1 & IH2 & IH3)]; cbn [span]; [cbn; auto|].
  destruct (p c) eqn:E.
  - destruct (span p s) as [taken left]. cbn [fst snd] in *.
    cbn [String.append Str.all]. rewrite E, IH2. repeat split; [congruence | exact IH3].
  - cbn. auto.
Qed.

Lemma span_all_app p a b :
  Str.all p a = true ->
  span p (a ++ b) = (a ++ fst (span p b), snd (span p b)).
Proof.
  induction a as [|c a IH]; cbn [String.append Str.all].
  - intros _. destruct (span p b); reflexivity.
  - rewrite andb_true_iff. intros [Hc Ha]. cbn [span]. rewrite Hc, (IH Ha). reflexivity.
Qed.

Lemma span_stops p a c b :
  Str.all p a = true -> p c = false -> span p (a ++ String c b) = (a, String c b).
Proof.
  intros Ha Hc. rewrite (span_all_app p a _ Ha). cbn [span]. rewrite Hc. cbn [fst snd].
  rewrite Str.append_nil_r. reflexivity.
Qed.

Lemma strip_prefix_spec pre s r : strip_prefix pre s = Some r -> s = pre ++ r.
Proof.
  revert s. induction pre as [|a pre IH]; intros s; cbn [strip_prefix].
  - intros [= ->]. reflexivity.
  - destruct s as [|b s]; [discriminate|].
    destruct (Ascii.eqb_spec a b) as [->|]; [|discriminate].
    intros H. rewrite (IH s H). reflexivity.
Qed.

Lemma strip_prefix_app pre r : strip_prefix pre (pre ++ r) = Some r.
Proof.
  induction pre as [|a pre IH]; cbn [String.append strip_prefix]; [reflexivity|].
  rewrite Ascii.eqb_refl. exact IH.
Qed.

Lemma is_empty_false s : is_empty s = false -> s <> EmptyString.
Proof. destruct s; [discriminate | discriminate]. Qed.

Lemma not_empty s : s <> EmptyString -> is_empty s = false.
Proof. destruct s; [congruence | reflexivity]. Qed.

Lemma match_here_sound s url :
  match_here s = Some url ->
  exists owner repo number rest,
    s = url ++ rest /\ pr_url url owner repo number /\ starts_without is_digit rest.
Proof.
  unfold match_here.
  destruct (strip_prefix "https://github.com/" s) as [s1|] eqn:H1; [|discriminate].
  pose proof (span_spec not_slash s1) as (Ho1 & Ho2 & _).
  destruct (span not_slash s1) as [owner s2]. cbn [fst snd] in *.
  destruct (is_empty owner) eqn:Eo; [discriminate|].
  destruct (strip_prefix "/" s2) as [s3|] eqn:H2; [|discriminate].
  pose proof (span_spec not_slash s3) as (Hr1 & Hr2 & _).
  destruct (span not_slash s3) as [repo s4]. cbn [fst snd] in *.
  destruct (is_empty repo) eqn:Er; [discriminate|].
  destruct (strip_prefix "/pull/" s4) as [s5|] eqn:H3; [|discriminate].
  pose proof (span_spec is_digit s5) as (Hn1 & Hn2 & Hn3).
  destruct (span is_digit s5) as [number rest]. cbn [fst snd] in *.
  destruct (is_empty number) eqn:En; [discriminate|].
  intros Hurl.
  assert (Hu : url = "https://github.com/" ++ owner ++ "/" ++ repo ++ "/pull/" ++ number)
    by congruence.
  clear Hurl. exists owner, repo, number, rest.
  apply strip_prefix_spec in H1, H2, H3.
  split; [|split; [|exact Hn3]].
  - rewrite Hu, H1, Ho1, H2, Hr1, H3, Hn1. rewrite !Str.append_assoc. reflexivity.
  - repeat split; auto using is_empty_false.
Qed.

Lemma match_here_complete url owner repo number rest :
  pr_url url owner repo number ->
  exists more, match_here (url ++ rest) = Some (url ++ more)
               /\ Str.all is_digit more = true.
Proof.
  intros (-> & Ho & Hos & Hr & Hrs & Hn & Hns).
  exists (fst (span is_digit rest)). unfold match_here.
  rewrite !Str.append_assoc, strip_prefix_app.
  change ("/" ++ repo ++ "/pull/" ++ number ++ rest)
    with (String "/" (repo ++ "/pull/" ++ number ++ rest)).
  rewrite (span_stops not_slash owner "/" _ Hos eq_refl), (not_empty owner Ho).
  change (String "/" (repo ++ "/pull/" ++ number ++ rest))
    with ("/" ++ repo ++ "/pull/" ++ number ++ rest).
  rewrite strip_prefix_app.
  change ("/pull/" ++ number ++ rest) with (String "/" ("pull/" ++ number ++ rest)).
  rewrite (span_stops not_slash repo "/" _ Hrs eq_refl), (not_empty repo Hr).
  change (String "/" ("pull/" ++ number ++ rest)) with ("/pull/" ++ number ++ rest).
  rewrite strip_prefix_app, (span_all_app is_digit number rest Hns).
  assert (Hne : is_empty (number ++ fst (span is_digit rest)) = false)
    by (destruct number; [congruence | reflexivity]).
  rewrite Hne. split; [reflexivity | apply span_spec].
Qed.

Lemma match_pr_url_sound output url :
  match_pr_url output = Some url ->
  exists before owner repo number rest,
    output = before ++ url ++ rest
    /\ pr_url url owner repo number /\ starts_without is_digit rest.
Proof.
  induction output as [|c output IH]; cbn [match_pr_url].
  - destruct (match_here EmptyString) eqn:E; [|discriminate].
    intros [= ->]. destruct (match_here_sound _ _ E) as (o & r & n & rest & H & Hs).
    exists EmptyString, o, r, n, rest. auto.
  - destruct (match_here (String c output)) eqn:E.
    + intros [= ->]. destruct (match_here_sound _ _ E) as (o & r & n & rest & H & Hs).
      exists EmptyString, o, r, n, rest. auto.
    + intros H. destruct (IH H) as (before & o & r & n & rest & -> & Hs).
      exists (String c before), o, r, n, rest. auto.
Qed.

Lemma match_pr_url_here s url : match_here s = Some url -> match_pr_url s = Some url.
Proof. intros H. destruct s; cbn [match_pr_url]; rewrite H; reflexivity. Qed.

Lemma match_pr_url_complete before s :
  match_here s <> None -> match_pr_url (before ++ s) <> None.
Proof.
  intros Hs. destruct (match_here s) as [url|] eqn:E; [|congruence].
  induction before as [|c before IH]; cbn [String.append].
  - rewrite (match_pr_url_here s url E). discriminate.
  - cbn [match_pr_url]. destruct (match_here (String c (before ++ s)));
      [discriminate | exact IH].
Qed.

Definition gh_pr_create (branch : string) : Invocation :=
  {| command := "gh";
     args := ["pr"; "create"; "--title"; "PromptOps agent output";
              "--body"; "Automated PR generated by PromptOps";
              "--head"; branch; "--base"; "main"];
     options := no_options |}.

(** X19.  A URL that [createPullRequest] returns occurs in what [gh]
    printed and has the shape
    [https://github.com/<owner>/<repo>/pull/<number>], with an owner and
    a repository free of slashes and a number made of digits that is not
    cut short: what follows it in the output does not start with a
    digit. *)
Theorem pull_request_url_is_well_formed branch tr url :
  fst (createPullRequest branch tr) = Returned url ->
  exists output before owner repo number rest,
    outcome (invocations tr) (gh_pr_create branch) = Some (Runner.Resolved output)
    /\ output = before ++ url ++ rest
    /\ pr_url url owner repo number
    /\ starts_without is_digit rest.
Proof.
  unfold createPullRequest, bind. rewrite runCommand_eq. fold (gh_pr_create branch).
  destruct (outcome (invocations tr) (gh_pr_create branch)) as [[output|err]|];
    cbn [awaited]; try discriminate.
  destruct (match_pr_url output) as [found|] eqn:E; [|discriminate].
  intros [= <-]. destruct (match_pr_url_sound _ _ E) as (b & o & r & n & rest & H).
  exists output, b, o, r, n, rest. split; [reflexivity | exact H].
Qed.

(** X20.  [createPullRequest] runs [gh pr create] once, with the branch
    as head and [main] as base, and it returns a URL whenever [gh]
    succeeds and its output holds a pull-request URL anywhere; it throws
    only when [gh] fails or prints no such URL. *)
Theorem pull_request_url_is_found branch tr output before url owner repo number rest :
  outcome (invocations tr) (gh_pr_create branch) = Some (Runner.Resolved output) ->
  output = before ++ url ++ rest ->
  pr_url url owner repo number ->
  invocations (snd (createPullRequest branch tr))
  = (invocations tr ++ [gh_pr_create branch])%list
  /\ exists found, fst (createPullRequest branch tr) = Returned found.
Proof.
  intros Ho -> Hshape.
  unfold createPullRequest, bind. rewrite runCommand_eq. fold (gh_pr_create branch).
  rewrite Ho. cbn [awaited].
  destruct (match_here_complete url owner repo number rest Hshape) as (more & Hm & _).
  assert (Hfound : match_pr_url (before ++ url ++ rest) <> None)
    by (apply match_pr_url_complete; rewrite Hm; discriminate).
  destruct (match_pr_url (before ++ url ++ rest)) as [found|]; [|congruence].
  cbn [ret fst snd]. rewrite invocations_app. cbn. split; [reflexivity|].
  exists found. reflexivity.
Qed.

(** X21.  [runAgent] runs the command of the agent with its own arguments
    followed by [-m <model>], unless the model is empty or [-], and gives
    it the prompt as input: a non-empty prompt is written and the input
    stream is ended; for an empty prompt nothing is written and the
    stream is never ended. *)
Theorem runAgent_passes_model_and_prompt config prompt model tr :
  let inv := {| command := fst (Setup.runCmd config);
                args := (snd (Setup.runCmd config)
                         ++ (if String.eqb model "" || String.eqb model "-"
                             then [] else ["-m"; model]))%list;
                options := {| Runner.stdin := Some prompt; Runner.hideError := None |} |} in
  exists effects,
    runAgent config prompt model tr
    = (awaited (outcome (invocations tr) inv), (tr ++ [Ran inv effects])%list)
    /\ (In Runner.StdinEnd effects <-> prompt <> EmptyString)
    /\ (In (Runner.StdinWrite prompt) effects <-> prompt <> EmptyString).
Proof.
  intros inv. exists (run_effects (invocations tr) inv).
  split; [reflexivity|].
  destruct (Runner.stdin_effects (command inv) (args inv) (options inv)
              (child (invocations tr) inv)) as [Hend Hwrite].
  split.
  - unfold run_effects. rewrite Hend. cbn [options Runner.stdin].
    destruct prompt; cbn; split; congruence.
  - unfold run_effects. rewrite Hwrite. cbn [options Runner.stdin].
    split; [intros [_ H]; exact H | intros H; auto].
Qed.

End WithChildren.


(** *** A sample run of the commands

    The agent reports version 0.1.9, npm knows 0.2.0, the work tree has a
    change and [gh] prints the URL of the pull request on its second
    line. *)
Definition sample_child (history : list Invocation) (inv : Invocation)
    : list Runner.ChildEvent :=
  let first := hd EmptyString (args inv) in
  if String.eqb (command inv) "gemini" then
    [Runner.StdoutData ("0.1.9" ++ String JS.LF ""); Runner.Close (Some 0%Z)]
  else if String.eqb first "view" then
    [Runner.StdoutData ("0.2.0" ++ String JS.LF ""); Runner.Close (Some 0%Z)]
  else if String.eqb first "status" then
    [Runner.StdoutData (" M a.txt" ++ String JS.LF ""); Runner.Close (Some 0%Z)]
  else if String.eqb (command inv) "gh" then
    [Runner.StdoutData ("Creating pull request for promptops/7 into main"
                        ++ String JS.LF "https://github.com/o/r/pull/12"
                        ++ String JS.LF "");
     Runner.Close (Some 0%Z)]
  else [Runner.Close (Some 0%Z)].

Lemma install_only_when_missing_or_outdated_witness :
  invocations (snd (installAgent sample_child "gemini" Setup.gemini_config []))
  = [version_query "gemini"; latest_query "@google/gemini-cli";
     npm_install "@google/gemini-cli@0.2.0"]
  /\ fst (installAgent sample_child "gemini" Setup.gemini_config []) = Returned tt.
Proof.
  pose proof (install_only_when_missing_or_outdated sample_child "gemini"
                Setup.gemini_config []) as H.
  cbv zeta in H.
  destruct H as (_ & H & _);
    [vm_compute; discriminate | vm_compute; discriminate |].
  destruct H as [Hi Hr]; [vm_compute; discriminate ..|].
  split; [exact Hi | exact Hr].
Defined.

Lemma commit_only_when_tree_changed_witness :
  fst (commitChanges sample_child "Add agent output" []) = Returned true
  /\ invocations (snd (commitChanges sample_child "Add agent output" []))
     = [git ["add"; "."]; git ["status"; "--porcelain"];
        git ["commit"; "-m"; "Add agent output"]].
Proof.
  pose proof (commit_only_when_tree_changed sample_child "Add agent output" []) as H.
  cbv zeta in H. destruct H as [_ H].
  destruct (H "" "M a.txt") as [_ Hc]; [reflexivity | reflexivity |].
  destruct Hc as [Hr Hi]; [discriminate|].
  split; [exact Hr | exact Hi].
Defined.

Lemma pull_request_url_is_well_formed_witness :
  exists before rest,
    "Creating pull request for promptops/7 into main"
    ++ String JS.LF "https://github.com/o/r/pull/12"
    = before ++ "https://github.com/o/r/pull/12" ++ rest.
Proof.
  destruct (pull_request_url_is_well_formed sample_child "promptops/7" []
              "https://github.com/o/r/pull/12" eq_refl)
    as (output & before & owner & repo & number & rest & Ho & Hsplit & _).
  injection Ho as <-. exists before, rest. exact Hsplit.
Defined.

Lemma pull_request_url_is_found_witness :
  exists found, fst (createPullRequest sample_child "promptops/7" []) = Returned found.
Proof.
  apply (pull_request_url_is_found sample_child "promptops/7" []
           ("Creating pull request for promptops/7 into main"
            ++ String JS.LF "https://github.com/o/r/pull/12")
           ("Creating pull request for promptops/7 into main" ++ String JS.LF "")
           "https://github.com/o/r/pull/12" "o" "r" "12" EmptyString).
  - reflexivity.
  - reflexivity.
  - repeat split; discriminate.
Defined.

End Steps.

(** ** The scheduled refresh: [readTextFile], [createArtifact] and
    [runRefresh] of [index.ts] *)

Module Refresh.

Import Node.

(** What a refresh run does, in program order: the effects of the setup
    code and of [fs.promises.writeFile], the lines of [console.error],
    and the upload of the artifact. *)
Inductive Event :=
| Did (e : Node.Effect)
| ConsoleError (msg : string) (err : JsError)
| Upload (name : string) (files : list string) (rootDirectory : string).

Section WithServices.

Variable node : Platform.

(** [JSON.stringify(v)], without indentation. *)
Variable stringify_compact : JsValue -> string.

(** The files that are there before the run, by absolute path, and the
    functions of [path]. *)
Variable disk : string -> option string.
Variable path_resolve : string -> string.
Variable path_dirname : string -> string.

(** The error of [uploadArtifact], if it rejects. *)
Variable upload_fault : string -> list string -> string -> option JsError.

(** Node's [crypto], as [encrypt] uses it. *)
Variable rng : Type.
Variable randomBytes : nat -> rng -> list Hex.byte * rng.
Variable cipher : Type.
Variable createCipheriv : string -> list Hex.byte -> list Hex.byte -> JsError + cipher.
Variable cipher_update : cipher -> list Hex.byte -> list Hex.byte * cipher.
Variable cipher_final : cipher -> list Hex.byte * cipher.
Variable getAuthTag : cipher -> list Hex.byte.

Record World := { trace : list Event; crypto : Encrypt.Crypto rng }.

Definition M (A : Type) : Type := World -> (JsError + A) * World.

Definition ret {A} (a : A) : M A := fun w => (inr a, w).

Definition throw {A} (err : JsError) : M A := fun w => (inl err, w).

Definition bind {A B} (c : M A) (k : A -> M B) : M B :=
  fun w =>
    match c w with
    | (inr a, w') => k a w'
    | (inl err, w') => (inl err, w')
    end.

Definition try_catch {A} (c : M A) (handler : JsError -> M A) : M A :=
  fun w =>
    match c w with
    | (inl err, w') => handler err w'
    | other => other
    end.

Definition lift {A} (r : JsError + A) : M A := fun w => (r, w).

Definition emit (ev : Event) : M unit :=
  fun w => (inr tt, {| trace := trace w ++ [ev]; crypto := crypto w |}).

(** The setup code only adds effects; they are taken over in order. *)
Definition lift_node {A} (c : Node.M A) : M A :=
  fun w =>
    let (r, effects) := c [] in
    (r, {| trace := trace w ++ List.map Did effects; crypto := crypto w |}).

Declare Scope refresh_scope.
Delimit Scope refresh_scope with refresh.
Notation "x <- c ;; k" := (bind c (fun x => k))
  (at level 61, c at next level, right associativity) : refresh_scope.
Notation "c ;;; k" := (bind c (fun _ => k))
  (at level 61, right associativity) : refresh_scope.
Local Open Scope refresh_scope.

(** *** The file system, as far as the run reads it *)

(** The content that the last write to the file left, if the run wrote
    the file at all. *)
Fixpoint last_write (file : string) (tr : list Event) : option string :=
  match tr with
  | [] => None
  | ev :: rest =>
      match last_write file rest with
      | Some content => Some content
      | None =>
          match ev with
          | Did (WriteFile path content) =>
              if String.eqb (path_resolve path) file then Some content else None
          | _ => None
          end
      end
  end.

Definition file_content (tr : list Event) (path : string) : option string :=
  match last_write (path_resolve path) tr with
  | Some content => Some content
  | None => disk (path_resolve path)
  end.

(** [fs.existsSync] *)
Definition existsSync (tr : list Event) (path : string) : bool :=
  match file_content tr path with Some _ => true | None => false end.

Definition readTextFile (filePath : string) : M string :=
  fun w =>
    match file_content (trace w) filePath with
    | Some content => (inr content, w)
    | None =>
        (inl (mkError ("ENOENT: no such file or directory, open '" ++ filePath ++ "'")), w)
    end.

(** [fs.promises.writeFile] *)
Definition writeFile (path content : string) : M unit :=
  match fs_fault node path with
  | Some err => throw err
  | None => emit (Did (WriteFile path content))
  end.

(** *** createArtifact *)

(** The callback of [files.map]: the absolute path, or the error for a
    file that is not there. *)
Fixpoint absolute_files (files : list string) : M (list string) :=
  match files with
  | [] => ret []
  | file :: rest =>
      let absPath := path_resolve file in
      fun w =>
        if existsSync (trace w) absPath
        then (absoluteFiles <- absolute_files rest ;; ret (absPath :: absoluteFiles)) w
        else (inl (mkError ("Artifact file does not exist: " ++ absPath)), w)
  end.

Definition uploadArtifact (name : string) (files : list string) (rootDirectory : string)
    : M unit :=
  match upload_fault name files rootDirectory with
  | Some err => throw err
  | None => emit (Upload name files rootDirectory)
  end.

Definition createArtifact (name : string) (files : list string) : M unit :=
  match files with
  | [] => throw (mkError "No files provided for artifact upload")
  | _ :: _ =>
      absoluteFiles <- absolute_files files ;;
      let rootDirectory := path_dirname (hd EmptyString absoluteFiles) in
      uploadArtifact name absoluteFiles rootDirectory
  end.

(** *** runRefresh *)

Definition AGENTS : list string := ["gemini"; "qwen"].

Definition encrypt (value keyHex : string) : M string :=
  fun w =>
    let (r, c) := Encrypt.encrypt rng randomBytes cipher createCipheriv
                    cipher_update cipher_final getAuthTag value keyHex (crypto w) in
    (r, {| trace := trace w; crypto := c |}).

(** The body of the [try]: the secret of one agent. *)
Definition refresh_agent (agent : string) : M JsValue :=
  config <- lift (Setup.getAgentConfig node agent) ;;
  lift_node (Setup.setupConfig node agent config) ;;;
  value <- readTextFile (path_join node (Setup.configDir config) "oauth_creds.json") ;;
  ret (VObj [("name", VStr (Setup.tokenEnv config)); ("value", VStr value)]).

(** The loop over the agents, with the array [result] so far. *)
Fixpoint refresh_agents (agents : list string) (result : list JsValue)
    : M (list JsValue) :=
  match agents with
  | [] => ret result
  | agent :: rest =>
      result' <- try_catch
                   (secret <- refresh_agent agent ;; ret (result ++ [secret])%list)
                   (fun err =>
                      emit (ConsoleError ("Failed to refresh " ++ agent ++ " token") err) ;;;
                      ret result) ;;
      refresh_agents rest result'
  end.

Definition runRefresh : M unit :=
  match env node "PROMPTOPS_API_KEY" with
  | Some (String c k) =>
      let apiKey := String c k in
      result <- refresh_agents AGENTS [] ;;
      match result with
      | [] => ret tt
      | _ :: _ =>
          let outputPath := "result.json" in
          let data := stringify_compact (VArr result) in
          payload <- encrypt data apiKey ;;
          writeFile outputPath payload ;;;
          createArtifact "promptops-result" [outputPath]
      end
  | _ => throw (mkError "PROMPTOPS_API_KEY is not set")
  end.

(** *** Promises that nothing awaits

    [refreshOAuthToken] calls [res.json()] on every answer with a success
    status and awaits it nowhere.  When the body is not JSON, that
    promise rejects with nothing to handle it, and Node ends a process
    in which a promise rejects unhandled.  These are the rejections that
    the requests of a trace leave behind: a run goes to its end only
    when there are none. *)
Definition rejection (ev : Event) : option JsError :=
  match ev with
  | Did (Fetch req) =>
      match network node req with
      | inr res =>
          if ok res then
            match OAuth.json node res with
            | VRejecting err => Some err
            | _ => None
            end
          else None
      | inl _ => None
      end
  | _ => None
  end.

Fixpoint unhandled_rejections (tr : list Event) : list JsError :=
  match tr with
  | [] => []
  | ev :: rest =>
      match rejection ev with
      | Some err => err :: unhandled_rejections rest
      | None => unhandled_rejections rest
      end
  end.

(** *** The setup code only appends *)

Definition appends {A} (c : Node.M A) : Prop :=
  forall tr, c tr = (fst (c []), (tr ++ snd (c []))%list).

Lemma appends_ret {A} (a : A) : appends (Node.ret a).
Proof. intros tr. cbn. rewrite app_nil_r. reflexivity. Qed.

Lemma appends_throw {A} err : appends (@Node.throw A err).
Proof. intros tr. cbn. rewrite app_nil_r. reflexivity. Qed.

Lemma appends_lift {A} (r : JsError + A) : appends (Node.lift r).
Proof. intros tr. cbn. rewrite app_nil_r. reflexivity. Qed.

Lemma appends_emit e : appends (Node.emit e).
Proof. intros tr. reflexivity. Qed.

Lemma appends_bind {A B} (c : Node.M A) (k : A -> Node.M B) :
  appends c -> (forall a, appends (k a)) -> appends (Node.bind c k).
Proof.
  intros Hc Hk tr. unfold Node.bind. rewrite (Hc tr).
  destruct (c []) as [[err|a] s]; cbn [fst snd].
  - reflexivity.
  - rewrite (Hk a (tr ++ s)%list), (Hk a s). cbn [fst snd].
    rewrite app_assoc. reflexivity.
Qed.

Lemma appends_fetch req : appends (Node.fetch node req).
Proof. intros tr. reflexivity. Qed.

Lemma appends_mkdirSync path : appends (Node.mkdirSync node path).
Proof.
  unfold Node.mkdirSync. destruct (fs_fault node path);
    [apply appends_throw | apply appends_emit].
Qed.

Lemma appends_writeFileSync path content : appends (Node.writeFileSync node path content).
Proof.
  unfold Node.writeFileSync. destruct (fs_fault node path);
    [apply appends_throw | apply appends_emit].
Qed.

Lemma appends_refreshOAuthToken tokenEndpoint clientId clientSecret refreshToken :
  appends (OAuth.refreshOAuthToken node tokenEndpoint clientId clientSecret refreshToken).
Proof.
  unfold OAuth.refreshOAuthToken. apply appends_bind; [apply appends_fetch|].
  intros res. destruct (negb (ok res)); [apply appends_throw | apply appends_ret].
Qed.

Lemma appends_refreshToken agent refreshToken : appends (OAuth.refreshToken node agent refreshToken).
Proof.
  unfold OAuth.refreshToken. destruct (String.eqb agent "gemini").
  - unfold OAuth.refreshGeminiToken. apply appends_bind;
      [apply appends_refreshOAuthToken | intros; apply appends_ret].
  - destruct (String.eqb agent "qwen"); [|apply appends_throw].
    unfold OAuth.refreshQwenToken.
    apply appends_bind; [apply appends_emit | intros _].
    apply appends_bind; [apply appends_refreshOAuthToken | intros updateToken].
    apply appends_bind; [apply appends_emit | intros _].
    apply appends_bind; [apply appends_lift | intros; apply appends_ret].
Qed.

Lemma appends_setupConfig agent config : appends (Setup.setupConfig node agent config).
Proof.
  unfold Setup.setupConfig.
  destruct (env node (Setup.tokenEnv config)) as [[|c t]|]; try apply appends_throw.
  apply appends_bind; [apply appends_lift | intros tokenData].
  apply appends_bind; [apply appends_lift | intros refresh_token].
  destruct (is_undefined refresh_token); [apply appends_throw|].
  apply appends_bind.
  - destruct (String.eqb agent "gemini"); [apply appends_refreshToken | apply appends_ret].
  - intros updatedToken.
    apply appends_bind; [apply appends_mkdirSync | intros _].
    apply appends_bind; [apply appends_writeFileSync | intros _].
    apply appends_bind; [apply appends_writeFileSync | intros _].
    apply appends_emit.
Qed.

(** *** Reading what the run wrote *)

Definition is_upload (ev : Event) : bool :=
  match ev with Upload _ _ _ => true | _ => false end.

Definition is_console_error (ev : Event) : bool :=
  match ev with ConsoleError _ _ => true | _ => false end.

Lemma last_write_app file a b :
  last_write file (a ++ b)
  = match last_write file b with
    | Some content => Some content
    | None => last_write file a
    end.
Proof.
  induction a as [|ev a IH]; cbn [List.app last_write].
  - destruct (last_write file b); reflexivity.
  - rewrite IH. destruct (last_write file b); reflexivity.
Qed.

Lemma absolute_files_found files w :
  forallb (fun file => existsSync (trace w) (path_resolve file)) files = true ->
  absolute_files files w = (inr (List.map path_resolve files), w).
Proof.
  induction files as [|file rest IH]; cbn [forallb absolute_files List.map]; [reflexivity|].
  rewrite andb_true_iff. intros [Hf Hrest]. rewrite Hf.
  unfold bind. rewrite (IH Hrest). reflexivity.
Qed.

Lemma absolute_files_missing files w :
  forallb (fun file => existsSync (trace w) (path_resolve file)) files = false ->
  exists missing,
    In missing files
    /\ absolute_files files w
       = (inl (mkError ("Artifact file does not exist: " ++ path_resolve missing)), w).
Proof.
  induction files as [|file rest IH]; cbn [forallb absolute_files]; [discriminate|].
  destruct (existsSync (trace w) (path_resolve file)) eqn:Hf; cbn [andb].
  - intros Hrest. destruct (IH Hrest) as (missing & Hin & Hm).
    exists missing. split; [right; exact Hin|]. unfold bind. rewrite Hm. reflexivity.
  - intros _. exists file. split; [left; reflexivity | reflexivity].
Qed.

(** X22.  [createArtifact] uploads only when the list is not empty and
    every file is there: then it uploads once, the absolute paths in the
    order given, with the directory of the first one as root.  For an
    empty list or a missing file it fails and uploads nothing. *)
Theorem artifact_uploaded_only_when_files_exist name files w :
  let found := forallb (fun file => existsSync (trace w) (path_resolve file)) files in
  let absoluteFiles := List.map path_resolve files in
  let rootDirectory := path_dirname (hd EmptyString absoluteFiles) in
  (files = [] ->
     createArtifact name files w
     = (inl (mkError "No files provided for artifact upload"), w))
  /\ (found = false -> exists err, createArtifact name files w = (inl err, w))
  /\ (files <> [] -> found = true ->
      createArtifact name files w
      = match upload_fault name absoluteFiles rootDirectory with
        | Some err => (inl err, w)
        | None => (inr tt, {| trace := trace w ++ [Upload name absoluteFiles rootDirectory];
                              crypto := crypto w |})
        end).
Proof.
  cbv zeta. split; [|split].
  - intros ->. reflexivity.
  - intros Hmiss. destruct (absolute_files_missing files w Hmiss) as (missing & _ & Hm).
    destruct files as [|f rest]; [discriminate Hmiss|].
    unfold createArtifact, bind. rewrite Hm. eexists. reflexivity.
  - intros Hne Hfound. destruct files as [|f rest]; [congruence|].
    unfold createArtifact, bind. rewrite (absolute_files_found _ _ Hfound).
    unfold uploadArtifact. destruct (upload_fault _ _ _); reflexivity.
Qed.

(** *** The loop over the agents *)

Lemma refresh_agent_frame agent w :
  exists effects,
    snd (refresh_agent agent w)
    = {| trace := trace w ++ List.map Did effects; crypto := crypto w |}.
Proof.
  unfold refresh_agent, bind, lift, lift_node, readTextFile, ret.
  destruct (Setup.getAgentConfig node agent) as [err|config].
  - exists []. cbn. rewrite app_nil_r. destruct w; reflexivity.
  - destruct (Setup.setupConfig node agent config []) as [[err|u] effects];
      exists effects; [reflexivity|].
    cbn [trace]. destruct (file_content _ _); reflexivity.
Qed.

Definition console_errors (w : World) : nat :=
  List.length (filter is_console_error (trace w)).

Definition uploads (w : World) : nat := List.length (filter is_upload (trace w)).

Lemma filter_map_Did (p : Event -> bool) effects :
  (forall e, p (Did e) = false) -> filter p (List.map Did effects) = [].
Proof.
  intros Hp. induction effects as [|e effects IH]; [reflexivity|].
  cbn [List.map filter]. rewrite Hp. exact IH.
Qed.

Lemma refresh_agents_cons agent rest result w :
  refresh_agents (agent :: rest) result w
  = match refresh_agent agent w with
    | (inr secret, w1) => refresh_agents rest (result ++ [secret])%list w1
    | (inl err, w1) =>
        refresh_agents rest result
          {| trace := trace w1
                      ++ [ConsoleError ("Failed to refresh " ++ agent ++ " token") err];
             crypto := crypto w1 |}
    end.
Proof.
  cbn [refresh_agents]. unfold bind, try_catch, emit, ret.
  destruct (refresh_agent agent w) as [[err|secret] w1]; reflexivity.
Qed.

Lemma refresh_agents_spec agents : forall result w,
  exists secrets,
    fst (refresh_agents agents result w) = inr (result ++ secrets)%list
    /\ List.length secrets + console_errors (snd (refresh_agents agents result w))
       = List.length agents + console_errors w
    /\ crypto (snd (refresh_agents agents result w)) = crypto w
    /\ uploads (snd (refresh_agents agents result w)) = uploads w.
Proof.
  induction agents as [|agent rest IH]; intros result w.
  - exists []. cbn [refresh_agents]. rewrite app_nil_r. cbn. auto.
  - rewrite refresh_agents_cons.
    destruct (refresh_agent_frame agent w) as (effects & Hframe).
    destruct (refresh_agent agent w) as [[err|secret] w1]; cbn [snd] in Hframe.
    + set (w2 := {| trace := trace w1
                             ++ [ConsoleError ("Failed to refresh " ++ agent ++ " token") err];
                    crypto := crypto w1 |}).
      destruct (IH result w2) as (secrets & Hr & Hn & Hc & Hu).
      exists secrets. split; [exact Hr|].
      assert (He : console_errors w2 = S (console_errors w)).
      { unfold console_errors, w2. cbn [trace]. rewrite Hframe. cbn [trace].
        rewrite !filter_app, filter_map_Did by reflexivity. cbn.
        rewrite !length_app. cbn. lia. }
      assert (Hu2 : uploads w2 = uploads w).
      { unfold uploads, w2. cbn [trace]. rewrite Hframe. cbn [trace].
        rewrite !filter_app, filter_map_Did by reflexivity. cbn.
        rewrite !app_nil_r. reflexivity. }
      split; [cbn [List.length]; lia|]. split; [|congruence].
      rewrite Hc. unfold w2. cbn [crypto]. rewrite Hframe. reflexivity.
    + destruct (IH (result ++ [secret])%list w1) as (secrets & Hr & Hn & Hc & Hu).
      exists (secret :: secrets). rewrite Hr, <- app_assoc.
      split; [reflexivity|].
      assert (He : console_errors w1 = console_errors w).
      { unfold console_errors. rewrite Hframe. cbn [trace].
        rewrite filter_app, filter_map_Did by reflexivity. rewrite app_nil_r.
        reflexivity. }
      assert (Hu1 : uploads w1 = uploads w).
      { unfold uploads. rewrite Hframe. cbn [trace].
        rewrite filter_app, filter_map_Did by reflexivity. rewrite app_nil_r.
        reflexivity. }
      split; [cbn [List.length]; lia|]. split; [|congruence].
      rewrite Hc, Hframe. reflexivity.
Qed.

Lemma unhandled_rejections_app a b :
  unhandled_rejections (a ++ b) = (unhandled_rejections a ++ unhandled_rejections b)%list.
Proof.
  induction a as [|ev a IH]; cbn [List.app unhandled_rejections]; [reflexivity|].
  destruct (rejection ev); rewrite IH; reflexivity.
Qed.

(** X23.  In a run in which no promise rejects unhandled, the loop never
    throws: each agent either adds one secret to the result or one line
    to [console.error], and the loop goes on to the next agent in both
    cases.  The loop draws no random bytes and uploads nothing. *)
Theorem agent_failures_are_isolated agents result w :
  unhandled_rejections (trace (snd (refresh_agents agents result w))) = [] ->
  exists secrets,
    fst (refresh_agents agents result w) = inr (result ++ secrets)%list
    /\ List.length secrets + console_errors (snd (refresh_agents agents result w))
       = List.length agents + console_errors w
    /\ crypto (snd (refresh_agents agents result w)) = crypto w
    /\ uploads (snd (refresh_agents agents result w)) = uploads w.
Proof. intros _. apply refresh_agents_spec. Qed.


(** *** The run as a whole *)

Lemma runRefresh_with_key c k w :
  env node "PROMPTOPS_API_KEY" = Some (String c k) ->
  runRefresh w
  = match refresh_agents AGENTS [] w with
    | (inl err, w1) => (inl err, w1)
    | (inr [], w1) => (inr tt, w1)
    | (inr (secret :: more), w1) =>
        (payload <- encrypt (stringify_compact (VArr (secret :: more))) (String c k) ;;
         writeFile "result.json" payload ;;;
         createArtifact "promptops-result" ["result.json"]) w1
    end.
Proof.
  intros Henv. unfold runRefresh. rewrite Henv. unfold bind at 1.
  destruct (refresh_agents AGENTS [] w) as [[err|[|secret more]] w1]; reflexivity.
Qed.


(** X25.  When no agent could be refreshed the run still returns
    normally: every failure has been written to [console.error], no
    random byte has been drawn, and nothing has been uploaded. *)
Theorem nothing_delivered_when_every_agent_fails w apiKey :
  env node "PROMPTOPS_API_KEY" = Some apiKey -> apiKey <> EmptyString ->
  fst (refresh_agents AGENTS [] w) = inr [] ->
  runRefresh w = (inr tt, snd (refresh_agents AGENTS [] w))
  /\ console_errors (snd (runRefresh w)) = 2 + console_errors w
  /\ crypto (snd (runRefresh w)) = crypto w
  /\ uploads (snd (runRefresh w)) = uploads w.
Proof.
  intros Henv Hne Hres. destruct apiKey as [|c k]; [congruence|].
  assert (Hrun : runRefresh w = (inr tt, snd (refresh_agents AGENTS [] w))).
  { rewrite (runRefresh_with_key c k w Henv).
    destruct (refresh_agents AGENTS [] w) as [[err|[|s m]] w1]; cbn [fst snd] in *;
      try discriminate Hres. reflexivity. }
  split; [exact Hrun|]. rewrite Hrun. cbn [snd].
  destruct (refresh_agents_spec AGENTS [] w) as (secrets & Hr & Hn & Hc & Hu).
  rewrite Hres in Hr. injection Hr as Hr. cbn [List.app] in Hr. subst secrets.
  cbn [List.length AGENTS] in Hn. auto.
Qed.

Hypothesis randomBytes_length :
  forall n g, List.length (fst (randomBytes n g)) = n.
Hypothesis createCipheriv_aes256 :
  forall key iv, List.length key = 32 -> List.length iv = 12 ->
    exists c, createCipheriv "aes-256-gcm" key iv = inr c.
Hypothesis getAuthTag_length : forall c, List.length (getAuthTag c) = 16.

(** [path.resolve] of an absolute path is that path. *)
Hypothesis path_resolve_idempotent :
  forall path, path_resolve (path_resolve path) = path_resolve path.

(** X26.  With a well-formed key and at least one secret, in a run in
    which no promise rejects unhandled, the run encrypts the text of the
    array of secrets, writes the payload to [result.json] and uploads
    that file, as artifact [promptops-result], under its absolute path
    and with its directory as root: the file that is uploaded holds the
    payload just written.  No request is sent after the loop. *)
Theorem secrets_are_encrypted_written_and_uploaded w apiKey secret more :
  env node "PROMPTOPS_API_KEY" = Some apiKey ->
  Encrypt.well_formed_key apiKey ->
  fst (refresh_agents AGENTS [] w) = inr (secret :: more) ->
  unhandled_rejections (trace (snd (refresh_agents AGENTS [] w))) = [] ->
  fs_fault node "result.json" = None ->
  upload_fault "promptops-result" [path_resolve "result.json"]
    (path_dirname (path_resolve "result.json")) = None ->
  let w1 := snd (refresh_agents AGENTS [] w) in
  exists payload c,
    Encrypt.encrypt rng randomBytes cipher createCipheriv cipher_update cipher_final
      getAuthTag (stringify_compact (VArr (secret :: more))) apiKey (crypto w1)
    = (inr payload, c)
    /\ runRefresh w
       = (inr tt,
          {| trace := trace w1
                      ++ [Did (WriteFile "result.json" payload);
                          Upload "promptops-result" [path_resolve "result.json"]
                            (path_dirname (path_resolve "result.json"))];
             crypto := c |})
    /\ file_content (trace (snd (runRefresh w))) (path_resolve "result.json")
       = Some payload
    /\ unhandled_rejections (trace (snd (runRefresh w))) = [].
Proof.
  intros Henv Hkey Hres Hquiet Hfs Hup w1.
  assert (Hk := Hkey). apply Encrypt.test_key_spec in Hk.
  destruct (Encrypt.encrypt_valid rng randomBytes randomBytes_length cipher
              createCipheriv createCipheriv_aes256 cipher_update cipher_final
              getAuthTag getAuthTag_length
              (stringify_compact (VArr (secret :: more))) apiKey (crypto w1) Hk)
    as (c0 & tag & ct & _ & _ & He).
  cbv zeta in He.
  destruct apiKey as [|a k]; [destruct Hkey as [Hlen _]; discriminate Hlen|].
  match type of He with
  | _ = (inr ?p, ?c) => set (payload := p) in *; set (c1 := c) in *
  end.
  exists payload, c1. split; [exact He|].
  assert (Hwritten : forall tr,
            file_content (tr ++ [Did (WriteFile "result.json" payload)])
              (path_resolve "result.json") = Some payload).
  { intros tr. unfold file_content.
    rewrite path_resolve_idempotent, last_write_app. cbn [last_write].
    rewrite String.eqb_refl. reflexivity. }
  assert (Hrun : runRefresh w
       = (inr tt,
          {| trace := trace w1
                      ++ [Did (WriteFile "result.json" payload);
                          Upload "promptops-result" [path_resolve "result.json"]
                            (path_dirname (path_resolve "result.json"))];
             crypto := c1 |})).
  { rewrite (runRefresh_with_key a k w Henv). unfold w1 in *.
    destruct (refresh_agents AGENTS [] w) as [[err|[|s m]] w2]; cbn [fst snd] in *;
      try discriminate Hres.
    injection Hres as -> ->.
    unfold bind at 1. unfold encrypt. rewrite He.
    unfold bind at 1. unfold writeFile. rewrite Hfs. unfold emit. cbn [trace crypto].
    unfold createArtifact, bind. cbn [absolute_files trace].
    unfold existsSync. rewrite Hwritten. unfold bind, ret. cbn [hd].
    unfold uploadArtifact. rewrite Hup. unfold emit. cbn [trace crypto].
    rewrite <- app_assoc. reflexivity. }
  split; [exact Hrun|]. rewrite Hrun. cbn [snd trace]. split.
  - unfold file_content. rewrite path_resolve_idempotent, last_write_app.
    cbn [last_write]. rewrite String.eqb_refl. reflexivity.
  - rewrite unhandled_rejections_app. fold w1 in Hquiet. rewrite Hquiet. reflexivity.
Qed.

Lemma setup_verbatim agent config token refresh_token :
  agent <> "gemini" ->
  Setup.stored node config token refresh_token ->
  (forall path, fs_fault node path = None) ->
  Setup.setupConfig node agent config [] = (inr tt, Setup.setup_writes node config token).
Proof.
  intros Hagent (Henv & Hne & tokenData & Hparse & Hget & Hdef) Hfs.
  apply String.eqb_neq in Hagent. destruct token as [|c t]; [congruence|].
  rewrite Setup.setupConfig_unfold, Henv. unfold Node.bind, Node.lift.
  rewrite Hparse, Hget, Hdef, Hagent. unfold Node.ret.
  apply Setup.write_files_all, Hfs.
Qed.

(** X27.  For an agent other than 'gemini' whose credential is stored,
    the secret of the scheduled refresh is named after the environment
    variable of the agent and its value is the stored credential string,
    unchanged: what [setupConfig] wrote to the credential file is what
    [readTextFile] reads back. *)
Theorem unrefreshed_secret_is_stored_credential agent config token refresh_token w :
  agent <> "gemini" ->
  Setup.getAgentConfig node agent = inr config ->
  Setup.stored node config token refresh_token ->
  (forall path, fs_fault node path = None) ->
  refresh_agent agent w
  = (inr (VObj [("name", VStr (Setup.tokenEnv config)); ("value", VStr token)]),
     {| trace := trace w ++ List.map Did (Setup.setup_writes node config token);
        crypto := crypto w |}).
Proof.
  intros Hagent Hconfig Hstored Hfs.
  unfold refresh_agent, bind, lift, lift_node. rewrite Hconfig.
  rewrite (setup_verbatim agent config token refresh_token Hagent Hstored Hfs).
  unfold readTextFile, file_content. cbn [trace].
  rewrite last_write_app. unfold Setup.setup_writes. cbn [List.map last_write].
  rewrite String.eqb_refl. reflexivity.
Qed.

End WithServices.


Arguments trace {rng} _.
Arguments crypto {rng} _.

(** *** A sample run

    The sample platform with an API key in the environment, with the
    stored credentials of both agents or with none of them; a work
    directory [/work]; the stand-in provider for [crypto]. *)
Definition keyed (with_tokens : bool) : Platform :=
  {| env := fun name =>
              if String.eqb name "PROMPTOPS_API_KEY" then Some Encrypt.zero_key
              else if with_tokens then env OAuth.Sample.node name else None;
     network := network OAuth.Sample.node;
     JSON_parse := JSON_parse OAuth.Sample.node;
     JSON_stringify := JSON_stringify OAuth.Sample.node;
     ObjectToString := ObjectToString OAuth.Sample.node;
     ObjectToNumber := ObjectToNumber OAuth.Sample.node;
     now := now OAuth.Sample.node;
     homedir := homedir OAuth.Sample.node;
     path_join := path_join OAuth.Sample.node;
     fs_fault := fs_fault OAuth.Sample.node |}.

Definition resolve (path : string) : string :=
  match path with
  | String "/" _ => path
  | _ => "/work/" ++ path
  end.

Definition dirname (path : string) : string :=
  Str.join "/" (removelast (Str.split "/" path)).

Lemma resolve_idempotent path : resolve (resolve path) = resolve path.
Proof.
  destruct path as [|c rest]; [reflexivity|].
  destruct (Ascii.eqb_spec c "/") as [->|Hc]; [reflexivity|].
  destruct c as [[|] [|] [|] [|] [|] [|] [|] [|]]; try reflexivity.
Qed.

Definition sample_run (with_tokens : bool) : M N unit :=
  runRefresh (keyed with_tokens) OAuth.Sample.stringify (fun _ => None)
    resolve dirname (fun _ _ _ => None)
    N Encrypt.Standin.randomBytes N Encrypt.Standin.createCipheriv
    Encrypt.Standin.update Encrypt.Standin.final Encrypt.Standin.getAuthTag.

Definition idle : World N := {| trace := []; crypto := Encrypt.fresh |}.

Example sample_artifact :
  filter is_upload (trace (snd (sample_run true idle)))
  = [Upload "promptops-result" ["/work/result.json"] "/work"].
Proof. vm_compute. reflexivity. Qed.

Lemma nothing_delivered_when_every_agent_fails_witness :
  fst (sample_run false idle) = inr tt
  /\ console_errors N (snd (sample_run false idle)) = 2
  /\ uploads N (snd (sample_run false idle)) = 0.
Proof.
  destruct (nothing_delivered_when_every_agent_fails (keyed false)
              OAuth.Sample.stringify (fun _ => None) resolve dirname (fun _ _ _ => None)
              N Encrypt.Standin.randomBytes N Encrypt.Standin.createCipheriv
              Encrypt.Standin.update Encrypt.Standin.final Encrypt.Standin.getAuthTag
              idle Encrypt.zero_key)
    as (Hrun & He & _ & Hu);
    [reflexivity | discriminate | vm_compute; reflexivity |].
  unfold sample_run. rewrite Hrun at 1. split; [reflexivity|].
  split; [exact He | exact Hu].
Defined.

(** The sample platform with a token endpoint that answers 200 with a
    page of HTML. *)
Definition garbled : Platform :=
  {| env := env (keyed true);
     network := fun _ => inr {| ok := true; status := 200; text := "<html>" |};
     JSON_parse := JSON_parse OAuth.Sample.node;
     JSON_stringify := JSON_stringify OAuth.Sample.node;
     ObjectToString := ObjectToString OAuth.Sample.node;
     ObjectToNumber := ObjectToNumber OAuth.Sample.node;
     now := now OAuth.Sample.node;
     homedir := homedir OAuth.Sample.node;
     path_join := path_join OAuth.Sample.node;
     fs_fault := fs_fault OAuth.Sample.node |}.

Example html_answer_rejects_unhandled :
  unhandled_rejections garbled
    (trace (snd (refresh_agents garbled (fun _ => None) resolve N AGENTS [] idle)))
  = [mkError "Unexpected token in JSON"].
Proof. vm_compute. reflexivity. Qed.

Lemma agent_failures_are_isolated_witness :
  exists secrets,
    fst (refresh_agents (keyed true) (fun _ => None) resolve N AGENTS [] idle)
    = inr secrets
    /\ List.length secrets
       + console_errors N
           (snd (refresh_agents (keyed true) (fun _ => None) resolve N AGENTS [] idle))
       = 2.
Proof.
  destruct (agent_failures_are_isolated (keyed true) (fun _ => None) resolve N
              AGENTS [] idle)
    as (secrets & Hr & Hn & _); [vm_compute; reflexivity|].
  exists secrets. split; [exact Hr | exact Hn].
Defined.

Lemma secrets_are_encrypted_written_and_uploaded_witness :
  exists payload,
    file_content (fun _ => None) resolve (trace (snd (sample_run true idle)))
      "/work/result.json"
    = Some payload.
Proof.
  destruct (fst (refresh_agents (keyed true) (fun _ => None) resolve N AGENTS [] idle))
    as [err|[|secret more]] eqn:E;
    [vm_compute in E; discriminate E | vm_compute in E; discriminate E |].
  destruct (secrets_are_encrypted_written_and_uploaded (keyed true)
              OAuth.Sample.stringify (fun _ => None) resolve dirname (fun _ _ _ => None)
              N Encrypt.Standin.randomBytes N Encrypt.Standin.createCipheriv
              Encrypt.Standin.update Encrypt.Standin.final Encrypt.Standin.getAuthTag
              Encrypt.Standin.randomBytes_length Encrypt.Standin.createCipheriv_aes256
              Encrypt.Standin.getAuthTag_length resolve_idempotent
              idle Encrypt.zero_key secret more)
    as (payload & c & _ & _ & Hfile & _).
  - reflexivity.
  - apply Encrypt.test_key_spec. vm_compute. reflexivity.
  - exact E.
  - vm_compute. reflexivity.
  - reflexivity.
  - reflexivity.
  - exists payload. exact Hfile.
Defined.

Lemma unrefreshed_secret_is_stored_credential_witness :
  fst (refresh_agent (keyed true) (fun _ => None) resolve N "qwen" idle)
  = inr (VObj [("name", VStr "PROMPTOPS_QWEN_TOKEN");
               ("value", VStr OAuth.Sample.stored_text)]).
Proof.
  rewrite (unrefreshed_secret_is_stored_credential (keyed true) (fun _ => None) resolve N
             "qwen" Setup.qwen_config OAuth.Sample.stored_text (VStr "1//stored") idle).
  - reflexivity.
  - discriminate.
  - reflexivity.
  - split; [reflexivity|]. split; [vm_compute; discriminate|].
    exists OAuth.Sample.stored_value. repeat split; vm_compute; reflexivity.
  - reflexivity.
Defined.

End Refresh.
